(** * Diff layers of the state snapshot: a shallow embedding

    This development embeds the diff layer of the snapshot package
    (the second document of [core/state_prefetcher.go]: [diffLayer],
    [newDiffLayer], [rebloom], the read path, [flatten] and the sorted key
    views) and states the properties of its specification over the
    embedding.

    Conventions of the embedding.
    - A [uint64] is a [Z] with the wrap-around written out ([wrap64]).
    - A Go slice is an [option (list _)]: [None] is the nil slice.
    - Go maps and [*diffLayer] values are references into a store
      ([heap]); everything that the code mutates in place is mutated in
      the store, so that aliases observe it.
    - Mutexes and the metrics meters are not modelled: every operation
      runs atomically, and the meters are write-only counters.
    - The walk to the disk layer is recursive over parent pointers that
      live in the store, hence the functions that follow them take fuel. *)

From Stdlib Require Import ZArith Lia List.
From Stdlib.Strings Require Import Byte String.
From stdpp Require Import base option list gmap sorting.

Local Open Scope Z_scope.

(** ** Bytes, hashes and slices *)

#[global] Instance byte_eq_decision : EqDecision byte := byte_eq_dec.
#[global] Instance byte_countable : Countable byte :=
  inj_countable Byte.to_N Byte.of_N Byte.of_to_N.

(** [common.Hash] is [[32]byte]; the embedding keeps the bytes in a list
    and states the length where it matters. *)
Abbreviation Hash := (list byte).

Definition HashLength : Z := 32.

Definition slice (A : Type) : Type := option (list A).

(** [len(s)], zero for the nil slice. *)
Definition len {A : Type} (s : slice A) : Z :=
  match s with
  | None => 0
  | Some l => Z.of_nat (length l)
  end.

(** An account or slot blob ([[]byte]). *)
Abbreviation blob := (slice byte).

Definition byteZ (b : byte) : Z := Z.of_N (Byte.to_N b).

Definition wrap64 (z : Z) : Z := z mod 2 ^ 64.

(** ** Tuning constants *)

Definition aggregatorMemoryLimit : Z := wrap64 (4 * 1024 * 1024).

(** [aggregatorMemoryLimit / 42] on [uint64]: truncating division. *)
Definition aggregatorItemLimit : Z := aggregatorMemoryLimit / 42.

(** ** Key mixing *)

(** [b[7] | b[6]<<8 | ... | b[0]<<56] of [binary.BigEndian.Uint64]. *)
Definition byte_at (b : list byte) (i : nat) : Z := byteZ (nth i b x00).

Definition BigEndian_Uint64 (b : list byte) : Z :=
  Z.lor (byte_at b 7)
    (Z.lor (Z.shiftl (byte_at b 6) 8)
       (Z.lor (Z.shiftl (byte_at b 5) 16)
          (Z.lor (Z.shiftl (byte_at b 4) 24)
             (Z.lor (Z.shiftl (byte_at b 3) 32)
                (Z.lor (Z.shiftl (byte_at b 2) 40)
                   (Z.lor (Z.shiftl (byte_at b 1) 48)
                      (Z.shiftl (byte_at b 0) 56))))))).

(** The slice expression [h[lo:lo+8]]. *)
Definition window (lo : nat) (h : Hash) : list byte := take 8 (drop lo h).

(** The two offsets are package variables, written once by [init]. *)
Record bloomOffsets : Type := mkOffsets {
  bloomAccountHasherOffset : nat;
  bloomStorageHasherOffset : nat
}.

(** [rand.Intn(n)]: the generator is represented by the raw number it
    reduces into [[0,n)]. *)
Definition rand_Intn (draw : Z) (n : Z) : Z := draw mod n.

Definition init (draw1 draw2 : Z) : bloomOffsets :=
  {| bloomAccountHasherOffset := Z.to_nat (rand_Intn draw1 25);
     bloomStorageHasherOffset := Z.to_nat (rand_Intn draw2 25) |}.

Definition accountBloomHash (off : bloomOffsets) (h : Hash) : Z :=
  BigEndian_Uint64 (window (bloomAccountHasherOffset off) h).

Definition storageBloomHash (off : bloomOffsets) (h0 h1 : Hash) : Z :=
  Z.lxor (BigEndian_Uint64 (window (bloomStorageHasherOffset off) h0))
         (BigEndian_Uint64 (window (bloomStorageHasherOffset off) h1)).

(** The big-endian value of a byte string, as the specification writes
    it: the first byte is the most significant one. *)
Definition be_u64 (l : list byte) : Z :=
  fold_left (fun acc b => acc * 256 + byteZ b) l 0.

(** ** Ordering of hashes and sorting *)

(** [bytes.Compare], which [common.Hash.Cmp] applies to the two arrays:
    lexicographic order on the bytes, a proper prefix being smaller. *)
Fixpoint bytes_Compare (a b : list byte) : Z :=
  match a, b with
  | [], [] => 0
  | [], _ :: _ => -1
  | _ :: _, [] => 1
  | x :: a', y :: b' =>
      if byteZ x <? byteZ y then -1
      else if byteZ y <? byteZ x then 1
      else bytes_Compare a' b'
  end.

Definition Hash_Cmp (h other : Hash) : Z := bytes_Compare h other.

(** [x] is not after [y] for the comparison function [cmp]. *)
Definition cmp_le (cmp : Hash -> Hash -> Z) : relation Hash :=
  fun x y => cmp x y <= 0.

#[global] Instance cmp_le_dec cmp : RelDecision (cmp_le cmp).
Proof. intros x y. unfold cmp_le. apply _. Defined.

(** [slices.SortFunc(l, cmp)]: the library routine is represented by a
    merge sort; for a total order on distinct keys the sorted result is
    unique, so the choice of algorithm is not observable. *)
Definition slices_SortFunc (cmp : Hash -> Hash -> Z) (l : list Hash) : list Hash :=
  merge_sort (cmp_le cmp) l.

(** [maps.Keys(m)]: a fresh non-nil slice holding the keys, in the
    enumeration order of the map. *)
Definition maps_Keys {V : Type} (m : gmap Hash V) : list Hash :=
  (map_to_list m).*1.

(** ** Results of operations *)

Inductive error : Type :=
| ErrSnapshotStale
| ErrOther (msg : string).

Inductive outcome (A : Type) : Type :=
| Ret (a : A)
| Panic (msg : string)
| OutOfFuel.

Arguments Ret {A} a.
Arguments Panic {A} msg.
Arguments OutOfFuel {A}.

Definition nil_dereference : string :=
  "invalid memory address or nil pointer dereference"%string.
Definition nil_map_write : string := "assignment to entry in nil map"%string.
Definition double_flatten : string := "parent diff layer is stale"%string.

(** ** Collaborators *)

(** The bloom filter of [github.com/holiman/bloomfilter/v2], by its
    interface and the contract a bloom filter has: no false negatives. *)
Class BloomFilter : Type := {
  Filter : Type;
  bloomfilter_New : Z -> Z -> Filter;
  Filter_Copy : Filter -> Filter;
  Filter_AddHash : Filter -> Z -> Filter;
  Filter_ContainsHash : Filter -> Z -> bool;
  ContainsHash_AddHash :
    forall f x, Filter_ContainsHash (Filter_AddHash f x) x = true;
  ContainsHash_AddHash_mono :
    forall f x y, Filter_ContainsHash f y = true ->
                  Filter_ContainsHash (Filter_AddHash f x) y = true;
  ContainsHash_Copy :
    forall f y, Filter_ContainsHash (Filter_Copy f) y = Filter_ContainsHash f y
}.

(** The persistent disk layer, by the two lookups the diff layer calls. *)
Class DiskLayer : Type := {
  diskLayer : Type;
  diskLayer_AccountRLP : diskLayer -> Hash -> blob * option error;
  diskLayer_Storage : diskLayer -> Hash -> Hash -> blob * option error
}.

(** [types.SlimAccount] and [rlp.DecodeBytes] into it; [None] is a
    decoding error. *)
Class SlimCodec : Type := {
  SlimAccount : Type;
  rlp_DecodeBytes : list byte -> option SlimAccount
}.

(** Process-wide settings: the randomised offsets and the two derived
    bloom parameters after their conversion to [uint64]. *)
Class Tuning : Type := {
  offsets : bloomOffsets;
  bloomSize : Z;
  bloomFuncs : Z
}.

(** ** The store *)

Abbreviation loc := nat (only parsing).

(** A Go map value: nil or a reference to a map object. *)
Abbreviation mapref := (option nat) (only parsing).

Section Model.
Context `{BF : BloomFilter} `{DL : DiskLayer} `{SC : SlimCodec} `{TU : Tuning}.

(** The [snapshot] interface value held in [parent]. *)
Inductive snapshot : Type :=
| SnapNil
| SnapDisk (d : diskLayer)
| SnapDiff (l : loc).

Record diffLayer : Type := mkDiffLayer {
  origin : option diskLayer;
  parent : snapshot;
  memory : Z;
  root : Hash;
  stale : bool;
  accountData : mapref;
  storageData : mapref;
  accountList : slice Hash;
  storageList : gmap Hash (slice Hash);
  diffed : option Filter
}.

(** [layers]: the [diffLayer] objects, addressed by index.
    [blobmaps]: the [map[common.Hash][]byte] objects (account maps and
    the per-account slot maps). [slotmaps]: the
    [map[common.Hash]map[common.Hash][]byte] objects. A reference that
    has no entry yet denotes an empty map object. *)
Record heap : Type := mkHeap {
  layers : list diffLayer;
  blobmaps : gmap loc (gmap Hash blob);
  slotmaps : gmap loc (gmap Hash mapref)
}.

Definition empty_heap : heap := mkHeap [] ∅ ∅.

Definition blobmap_at (h : heap) (r : mapref) : gmap Hash blob :=
  match r with
  | Some l => default ∅ (blobmaps h !! l)
  | None => ∅
  end.

Definition slotmap_at (h : heap) (r : mapref) : gmap Hash mapref :=
  match r with
  | Some l => default ∅ (slotmaps h !! l)
  | None => ∅
  end.

Definition set_blobmap (l : loc) (m : gmap Hash blob) (h : heap) : heap :=
  mkHeap (layers h) (<[l := m]> (blobmaps h)) (slotmaps h).

Definition set_slotmap (l : loc) (m : gmap Hash mapref) (h : heap) : heap :=
  mkHeap (layers h) (blobmaps h) (<[l := m]> (slotmaps h)).

Definition update_layer (l : loc) (f : diffLayer -> diffLayer) (h : heap) : heap :=
  mkHeap (alter f l (layers h)) (blobmaps h) (slotmaps h).

Definition alloc_layer (d : diffLayer) (h : heap) : loc * heap :=
  (length (layers h), mkHeap (layers h ++ [d]) (blobmaps h) (slotmaps h)).

Definition set_origin (o : option diskLayer) (d : diffLayer) : diffLayer :=
  mkDiffLayer o (parent d) (memory d) (root d) (stale d) (accountData d)
    (storageData d) (accountList d) (storageList d) (diffed d).

Definition set_memory (m : Z) (d : diffLayer) : diffLayer :=
  mkDiffLayer (origin d) (parent d) m (root d) (stale d) (accountData d)
    (storageData d) (accountList d) (storageList d) (diffed d).

Definition set_stale (b : bool) (d : diffLayer) : diffLayer :=
  mkDiffLayer (origin d) (parent d) (memory d) (root d) b (accountData d)
    (storageData d) (accountList d) (storageList d) (diffed d).

Definition set_accountList (l : slice Hash) (d : diffLayer) : diffLayer :=
  mkDiffLayer (origin d) (parent d) (memory d) (root d) (stale d) (accountData d)
    (storageData d) l (storageList d) (diffed d).

Definition set_storageList (l : gmap Hash (slice Hash)) (d : diffLayer) : diffLayer :=
  mkDiffLayer (origin d) (parent d) (memory d) (root d) (stale d) (accountData d)
    (storageData d) (accountList d) l (diffed d).

Definition set_diffed (f : option Filter) (d : diffLayer) : diffLayer :=
  mkDiffLayer (origin d) (parent d) (memory d) (root d) (stale d) (accountData d)
    (storageData d) (accountList d) (storageList d) f.

(** [dl.memory += uint64(n)]. *)
Definition add_memory (n : Z) (d : diffLayer) : diffLayer :=
  set_memory (wrap64 (memory d + wrap64 n)) d.

(** ** Construction *)

(** [rebloom]: store the origin, take a copy of the parent's filter (or a
    new one over a disk layer) and add the mixed hash of every local
    key. *)
Definition bloom_accounts (m : gmap Hash blob) (f : Filter) : Filter :=
  map_fold (fun hash _ f => Filter_AddHash f (accountBloomHash offsets hash)) f m.

Definition bloom_slots (accountHash : Hash) (m : gmap Hash blob) (f : Filter) : Filter :=
  map_fold (fun storageHash _ f =>
              Filter_AddHash f (storageBloomHash offsets accountHash storageHash)) f m.

Definition bloom_storage (h : heap) (s : gmap Hash mapref) (f : Filter) : Filter :=
  map_fold (fun accountHash slots f => bloom_slots accountHash (blobmap_at h slots) f) f s.

Definition rebloom (o : option diskLayer) (dl : loc) (h : heap) : outcome unit * heap :=
  match layers h !! dl with
  | None => (Panic nil_dereference, h)
  | Some d =>
      let h1 := update_layer dl (set_origin o) h in
      let fresh_filter :=
        match parent d with
        | SnapDiff p =>
            match layers h1 !! p with
            | Some pd =>
                match diffed pd with
                | Some f => Ret (Filter_Copy f)
                | None => Panic nil_dereference
                end
            | None => Panic nil_dereference
            end
        | _ => Ret (bloomfilter_New bloomSize bloomFuncs)
        end in
      match fresh_filter with
      | Ret f0 =>
          let f1 := bloom_accounts (blobmap_at h1 (accountData d)) f0 in
          let f2 := bloom_storage h1 (slotmap_at h1 (storageData d)) f1 in
          (Ret tt, update_layer dl (set_diffed (Some f2)) h1)
      | Panic msg => (Panic msg, h1)
      | OutOfFuel => (OutOfFuel, h1)
      end
  end.

(** [fmt.Sprintf("storage %#x nil", accountHash)]: the hash is printed
    as [0x] and two lower-case hexadecimal digits per byte. *)
Definition hex_digit (n : Z) : Ascii.ascii :=
  nth (Z.to_nat n) (list_ascii_of_string "0123456789abcdef") (Ascii.ascii_of_nat 48).

Definition hex_of_bytes (l : list byte) : string :=
  fold_right (fun b s => String (hex_digit (byteZ b / 16))
                           (String (hex_digit (byteZ b mod 16)) s))
             EmptyString l.

Definition storage_nil_message (accountHash : Hash) : string :=
  ("storage 0x" ++ hex_of_bytes accountHash ++ " nil")%string.

(** The two accounting loops of [newDiffLayer]; the second one panics on
    a nil slot map. *)
Definition account_memory (dl : loc) (m : gmap Hash blob) (h : heap) : heap :=
  map_fold (fun _ data h => update_layer dl (add_memory (HashLength + len data)) h) h m.

Definition storage_memory_step (dl : loc) (accountHash : Hash) (slots : mapref)
    (st : outcome unit * heap) : outcome unit * heap :=
  match st with
  | (Ret _, h) =>
      match slots with
      | None => (Panic (storage_nil_message accountHash), h)
      | Some _ => (Ret tt, account_memory dl (blobmap_at h slots) h)
      end
  | _ => st
  end.

Definition storage_memory (dl : loc) (s : gmap Hash mapref) (h : heap)
    : outcome unit * heap :=
  map_fold (storage_memory_step dl) (Ret tt, h) s.

Definition newDiffLayer (parent : snapshot) (root : Hash)
    (accounts storage : mapref) (h : heap) : outcome loc * heap :=
  let '(dl, h0) :=
    alloc_layer
      {| origin := None; parent := parent; memory := 0; root := root;
         stale := false; accountData := accounts; storageData := storage;
         accountList := None; storageList := ∅; diffed := None |} h in
  let bloomed :=
    match parent with
    | SnapDisk disk => rebloom (Some disk) dl h0
    | SnapDiff p =>
        match layers h0 !! p with
        | Some pd => rebloom (origin pd) dl h0
        | None => (Panic nil_dereference, h0)
        end
    | SnapNil => (Panic "unknown parent type"%string, h0)
    end in
  match bloomed with
  | (Ret _, h1) =>
      let h2 := account_memory dl (blobmap_at h1 accounts) h1 in
      match storage_memory dl (slotmap_at h2 storage) h2 with
      | (Ret _, h3) => (Ret dl, h3)
      | (Panic msg, h3) => (Panic msg, h3)
      | (OutOfFuel, h3) => (OutOfFuel, h3)
      end
  | (Panic msg, h1) => (Panic msg, h1)
  | (OutOfFuel, h1) => (OutOfFuel, h1)
  end.

(** [Update]: a new layer on top of the diff layer [dl]. *)
Definition Update (dl : loc) (blockRoot : Hash) (accounts storage : mapref)
    (h : heap) : outcome loc * heap :=
  newDiffLayer (SnapDiff dl) blockRoot accounts storage h.

(** ** Plain accessors *)

Definition Root (dl : loc) (h : heap) : outcome Hash :=
  match layers h !! dl with
  | Some d => Ret (root d)
  | None => Panic nil_dereference
  end.

Definition Parent (dl : loc) (h : heap) : outcome snapshot :=
  match layers h !! dl with
  | Some d => Ret (parent d)
  | None => Panic nil_dereference
  end.

Definition Stale (dl : loc) (h : heap) : outcome bool :=
  match layers h !! dl with
  | Some d => Ret (stale d)
  | None => Panic nil_dereference
  end.

(** ** The read path *)

(** [accountRLP]: the walk over the maps of the layer and of its diff
    ancestors, down to the disk layer. The [depth] argument of the
    source only feeds a histogram and is left out. *)
Fixpoint accountRLP (fuel : nat) (h : heap) (dl : loc) (hash : Hash)
    : outcome (blob * option error) :=
  match fuel with
  | O => OutOfFuel
  | S fuel' =>
      match layers h !! dl with
      | None => Panic nil_dereference
      | Some d =>
          if stale d then Ret (None, Some ErrSnapshotStale)
          else
            match blobmap_at h (accountData d) !! hash with
            | Some data => Ret (data, None)
            | None =>
                match parent d with
                | SnapDiff diff => accountRLP fuel' h diff hash
                | SnapDisk disk => Ret (diskLayer_AccountRLP disk hash)
                | SnapNil => Panic nil_dereference
                end
            end
      end
  end.

Definition AccountRLP (fuel : nat) (h : heap) (dl : loc) (hash : Hash)
    : outcome (blob * option error) :=
  match layers h !! dl with
  | None => Panic nil_dereference
  | Some d =>
      if stale d then Ret (None, Some ErrSnapshotStale)
      else
        match diffed d with
        | None => Panic nil_dereference
        | Some bloom =>
            let hit := Filter_ContainsHash bloom (accountBloomHash offsets hash) in
            let origin := if hit then None else origin d in
            match origin with
            | Some disk => Ret (diskLayer_AccountRLP disk hash)
            | None => accountRLP fuel h dl hash
            end
        end
  end.

(** [Account]: the decoded view; an empty blob, nil or not, is no
    account. A decoding failure panics. *)
Definition Account (fuel : nat) (h : heap) (dl : loc) (hash : Hash)
    : outcome (option SlimAccount * option error) :=
  match AccountRLP fuel h dl hash with
  | Ret (_, Some err) => Ret (None, Some err)
  | Ret (data, None) =>
      if len data =? 0 then Ret (None, None)
      else
        match rlp_DecodeBytes (default [] data) with
        | Some account => Ret (Some account, None)
        | None => Panic "rlp: decoding error"%string
        end
  | Panic msg => Panic msg
  | OutOfFuel => OutOfFuel
  end.

(** [Accounts]: every entry of the account map of the layer itself,
    decoded. The first entry that fails to decode ends the loop with its
    error. The method takes the read lock and makes no stale check. *)
Definition Accounts (dl : loc) (h : heap)
    : outcome (option (gmap Hash SlimAccount) * option error) :=
  match layers h !! dl with
  | None => Panic nil_dereference
  | Some d =>
      Ret (map_fold
             (fun hash data (st : option (gmap Hash SlimAccount) * option error) =>
                match st with
                | (Some accounts, None) =>
                    match rlp_DecodeBytes (default [] data) with
                    | Some account => (Some (<[hash := account]> accounts), None)
                    | None => (None, Some (ErrOther "rlp: decoding error"))
                    end
                | _ => st
                end)
             (Some ∅, None) (blobmap_at h (accountData d)))
  end.

Fixpoint storage (fuel : nat) (h : heap) (dl : loc) (accountHash storageHash : Hash)
    : outcome (blob * option error) :=
  match fuel with
  | O => OutOfFuel
  | S fuel' =>
      match layers h !! dl with
      | None => Panic nil_dereference
      | Some d =>
          if stale d then Ret (None, Some ErrSnapshotStale)
          else
            let local :=
              match slotmap_at h (storageData d) !! accountHash with
              | Some slots => blobmap_at h slots !! storageHash
              | None => None
              end in
            match local with
            | Some data => Ret (data, None)
            | None =>
                match parent d with
                | SnapDiff diff => storage fuel' h diff accountHash storageHash
                | SnapDisk disk => Ret (diskLayer_Storage disk accountHash storageHash)
                | SnapNil => Panic nil_dereference
                end
            end
      end
  end.

Definition Storage (fuel : nat) (h : heap) (dl : loc) (accountHash storageHash : Hash)
    : outcome (blob * option error) :=
  match layers h !! dl with
  | None => Panic nil_dereference
  | Some d =>
      if stale d then Ret (None, Some ErrSnapshotStale)
      else
        match diffed d with
        | None => Panic nil_dereference
        | Some bloom =>
            let hit := Filter_ContainsHash bloom
                         (storageBloomHash offsets accountHash storageHash) in
            let origin := if hit then None else origin d in
            match origin with
            | Some disk => Ret (diskLayer_Storage disk accountHash storageHash)
            | None => storage fuel h dl accountHash storageHash
            end
        end
  end.

(** ** Flatten *)

(** [maps.Copy(dst, src)] on stored maps: every entry of [src] is
    written into [dst]; writing into a nil map panics. *)
Definition maps_Copy (dst src : mapref) (h : heap) : outcome unit * heap :=
  let s := blobmap_at h src in
  if decide (s = ∅) then (Ret tt, h)
  else
    match dst with
    | None => (Panic nil_map_write, h)
    | Some l => (Ret tt, set_blobmap l (s ∪ blobmap_at h dst) h)
    end.

(** One round of the loop over the child's storage: move the slot map
    when the parent has none for the account, merge the slots
    otherwise. *)
Definition flatten_storage_step (pstorage : mapref) (accountHash : Hash)
    (slots : mapref) (st : outcome unit * heap) : outcome unit * heap :=
  match st with
  | (Ret _, h) =>
      match slotmap_at h pstorage !! accountHash with
      | None =>
          match pstorage with
          | None => (Panic nil_map_write, h)
          | Some l =>
              (Ret tt, set_slotmap l (<[accountHash := slots]> (slotmap_at h pstorage)) h)
          end
      | Some pslots => maps_Copy pslots slots h
      end
  | _ => st
  end.

(** The loop ranges over the child's storage map as it is when the loop
    starts; Go leaves the order of a [range] over a map open, the
    embedding takes the enumeration order of [map_fold]. *)
Definition flatten_storage (pstorage cstorage : mapref) (h : heap)
    : outcome unit * heap :=
  map_fold (flatten_storage_step pstorage) (Ret tt, h) (slotmap_at h cstorage).

Fixpoint flatten (fuel : nat) (dl : loc) (h : heap) : outcome loc * heap :=
  match fuel with
  | O => (OutOfFuel, h)
  | S fuel' =>
      match layers h !! dl with
      | None => (Panic nil_dereference, h)
      | Some d0 =>
          match parent d0 with
          | SnapDiff p =>
              match flatten fuel' p h with
              | (Ret par, h1) =>
                  match layers h1 !! par with
                  | None => (Panic nil_dereference, h1)
                  | Some pd =>
                      if stale pd then (Panic double_flatten, h1)
                      else
                        let h2 := update_layer par (set_stale true) h1 in
                        match layers h2 !! dl with
                        | None => (Panic nil_dereference, h2)
                        | Some d =>
                            match maps_Copy (accountData pd) (accountData d) h2 with
                            | (Ret _, h3) =>
                                match flatten_storage (storageData pd) (storageData d) h3 with
                                | (Ret _, h4) =>
                                    let '(l, h5) :=
                                      alloc_layer
                                        {| origin := origin pd;
                                           parent := parent pd;
                                           memory := wrap64 (memory pd + memory d);
                                           root := root d;
                                           stale := false;
                                           accountData := accountData pd;
                                           storageData := storageData pd;
                                           accountList := None;
                                           storageList := ∅;
                                           diffed := diffed d |} h4 in
                                    (Ret l, h5)
                                | (Panic msg, h4) => (Panic msg, h4)
                                | (OutOfFuel, h4) => (OutOfFuel, h4)
                                end
                            | (Panic msg, h3) => (Panic msg, h3)
                            | (OutOfFuel, h3) => (OutOfFuel, h3)
                            end
                        end
                  end
              | (Panic msg, h1) => (Panic msg, h1)
              | (OutOfFuel, h1) => (OutOfFuel, h1)
              end
          | _ => (Ret dl, h)
          end
      end
  end.

(** ** Sorted key views *)

Definition AccountList (dl : loc) (h : heap) : outcome (slice Hash) * heap :=
  match layers h !! dl with
  | None => (Panic nil_dereference, h)
  | Some d =>
      match accountList d with
      | Some list => (Ret (Some list), h)
      | None =>
          let keys := slices_SortFunc Hash_Cmp (maps_Keys (blobmap_at h (accountData d))) in
          (Ret (Some keys),
           update_layer dl
             (fun d => add_memory (Z.of_nat (length keys) * HashLength)
                         (set_accountList (Some keys) d)) h)
      end
  end.

Definition StorageList (dl : loc) (accountHash : Hash) (h : heap)
    : outcome (slice Hash) * heap :=
  match layers h !! dl with
  | None => (Panic nil_dereference, h)
  | Some d =>
      match slotmap_at h (storageData d) !! accountHash with
      | None => (Ret None, h)
      | Some slots =>
          match storageList d !! accountHash with
          | Some list => (Ret list, h)
          | None =>
              let keys := slices_SortFunc Hash_Cmp (maps_Keys (blobmap_at h slots)) in
              let cache := <[accountHash := Some keys]> (storageList d) in
              (Ret (Some keys),
               update_layer dl
                 (fun d => add_memory (Z.of_nat (size cache) * HashLength + HashLength)
                             (set_storageList cache d)) h)
          end
      end
  end.

(** ** The producer of deltas *)

(** The state transition engine hands every new layer maps of its own:
    it allocates an account map and, per touched account, a slot map,
    and passes the references to [newDiffLayer]. *)
Definition fresh_blob (h : heap) : loc := fresh (dom (blobmaps h)).
Definition fresh_slot (h : heap) : loc := fresh (dom (slotmaps h)).

Definition make_blobmap (m : gmap Hash blob) (h : heap) : loc * heap :=
  (fresh_blob h, set_blobmap (fresh_blob h) m h).

Definition make_storage_step (accountHash : Hash) (slots : gmap Hash blob)
    (st : gmap Hash mapref * heap) : gmap Hash mapref * heap :=
  let '(l, h) := make_blobmap slots st.2 in
  (<[accountHash := Some l]> st.1, h).

Definition make_storage (s : gmap Hash (gmap Hash blob)) (h : heap) : loc * heap :=
  let '(outer, h1) := map_fold make_storage_step (∅, h) s in
  (fresh_slot h1, set_slotmap (fresh_slot h1) outer h1).

(** One block applied on top of [parent]. *)
Definition apply_block (parent : snapshot) (root : Hash)
    (accounts : gmap Hash blob) (storage : gmap Hash (gmap Hash blob))
    (h : heap) : outcome loc * heap :=
  let '(a, h1) := make_blobmap accounts h in
  let '(s, h2) := make_storage storage h1 in
  newDiffLayer parent root (Some a) (Some s) h2.

End Model.

(** ** A concrete environment

    Instances of the collaborators on which the operations can be run:
    a bit-array filter with one index function, a disk layer given by
    association lists, a codec that takes every blob for the account
    it encodes. *)

Record bitFilter : Type := mkBitFilter { bf_m : Z; bf_bits : Z }.

Definition bit_index (m x : Z) : Z := x mod Z.max 1 m.

#[global] Program Instance bit_bloom : BloomFilter := {|
  Filter := bitFilter;
  bloomfilter_New m _ := mkBitFilter m 0;
  Filter_Copy f := f;
  Filter_AddHash f x := mkBitFilter (bf_m f) (Z.setbit (bf_bits f) (bit_index (bf_m f) x));
  Filter_ContainsHash f x := Z.testbit (bf_bits f) (bit_index (bf_m f) x)
|}.
Next Obligation.
  intros f x; simpl. apply Z.setbit_eq. apply Z.mod_pos_bound. lia.
Qed.
Next Obligation.
  intros f x y Hy; simpl in *. rewrite Z.setbit_eqb.
  - rewrite Hy. apply orb_true_r.
  - apply Z.mod_pos_bound. lia.
Qed.
Next Obligation. reflexivity. Qed.

(** A disk layer given by two association lists. *)
Record listDisk : Type := mkListDisk {
  disk_accounts : list (Hash * list byte);
  disk_slots : list (Hash * Hash * list byte)
}.

Fixpoint assoc_find {K V : Type} `{EqDecision K} (k : K) (l : list (K * V)) : option V :=
  match l with
  | [] => None
  | (k', v) :: l' => if decide (k = k') then Some v else assoc_find k l'
  end.

#[global] Instance list_disk : DiskLayer := {|
  diskLayer := listDisk;
  diskLayer_AccountRLP d hash := (assoc_find hash (disk_accounts d), None);
  diskLayer_Storage d accountHash storageHash :=
    (assoc_find (accountHash, storageHash) (disk_slots d), None)
|}.

#[global] Instance raw_codec : SlimCodec := {|
  SlimAccount := list byte;
  rlp_DecodeBytes data := Some data
|}.

(** Offsets 0 and 1 and a 64-bit filter. *)
#[global] Instance small_tuning : Tuning := {|
  offsets := mkOffsets 0 1;
  bloomSize := 64;
  bloomFuncs := 1
|}.

(** The hash whose bytes are all [b]. *)
Definition hash_of (b : byte) : Hash := repeat b 32.

(** The hash whose first byte is [b] and the others zero. *)
Definition hash_from (b : byte) : Hash := b :: repeat x00 31.

Definition disk0 : listDisk :=
  mkListDisk [(hash_of x0a, [x01]); (hash_of x0c, [x04])]
             [(hash_of x0c, hash_of x02, [x06])].

(** ** Vocabulary of the statements *)

(** Lexicographic byte order, as the specification names it. *)
Inductive lex_lt : list byte -> list byte -> Prop :=
| lex_lt_nil b l : lex_lt [] (b :: l)
| lex_lt_head x y l1 l2 : byteZ x < byteZ y -> lex_lt (x :: l1) (y :: l2)
| lex_lt_tail x l1 l2 : lex_lt l1 l2 -> lex_lt (x :: l1) (x :: l2).

Section Vocabulary.
Context `{BF : BloomFilter} `{DL : DiskLayer} `{SC : SlimCodec} `{TU : Tuning}.

Definition layer_memory (h : heap) (l : loc) : option Z :=
  memory <$> layers h !! l.

Definition layer_stale (h : heap) (l : loc) : option bool :=
  stale <$> layers h !! l.

(** The record at [l]; an unused default stands for a missing one. *)
Definition layer_at (h : heap) (l : loc) : diffLayer :=
  default (mkDiffLayer None SnapNil 0 [] false None None None ∅ None)
          (layers h !! l).

(** [chain h l c]: [c] lists [l] and its diff ancestors, from [l] down
    to the layer whose parent is not a diff layer. *)
Inductive chain (h : heap) : loc -> list loc -> Prop :=
| chain_bottom l d :
    layers h !! l = Some d -> (forall p, parent d <> SnapDiff p) ->
    chain h l [l]
| chain_step l d p c :
    layers h !! l = Some d -> parent d = SnapDiff p -> chain h p c ->
    chain h l (l :: c).

End Vocabulary.

(** ** Sample stores *)

(** One layer over [disk0]: account [0a..0a] is written, account
    [0d..0d] is deleted (an empty, non-nil blob), one slot of [0a..0a]
    is written. *)
Definition one_layer_heap : heap :=
  (apply_block (SnapDisk disk0) (hash_of x01)
     {[ hash_of x0a := Some [x02]; hash_of x0d := Some [] ]}
     {[ hash_of x0a := {[ hash_of x01 := Some [x07] ]} ]}
     empty_heap).2.

(** One layer over [disk0]: account [0a..0a] with three slots. *)
Definition three_slot_heap : heap :=
  (apply_block (SnapDisk disk0) (hash_of x01)
     {[ hash_of x0a := Some [x02] ]}
     {[ hash_of x0a := {[ hash_of x01 := Some [x07];
                          hash_of x02 := Some [x08];
                          hash_of x03 := Some [x09] ]} ]}
     empty_heap).2.

(** A second layer on top of the layer of [one_layer_heap]: it
    overwrites account [0a..0a], writes account [0c..0c], adds a slot to
    [0a..0a] and touches a slot of [0b..0b]. *)
Definition two_layer_heap : heap :=
  (apply_block (SnapDiff 0%nat) (hash_of x02)
     {[ hash_of x0a := Some [x03]; hash_of x0c := Some [x05] ]}
     {[ hash_of x0a := {[ hash_of x02 := Some [x08] ]};
        hash_of x0b := {[ hash_of x01 := Some [] ]} ]}
     one_layer_heap).2.

(** A third layer on top of the second one. *)
Definition three_layer_heap : heap :=
  (apply_block (SnapDiff 1%nat) (hash_of x03)
     {[ hash_of x0b := Some [x09] ]}
     {[ hash_of x0a := {[ hash_of x03 := Some [x0a] ]} ]}
     two_layer_heap).2.





(** [two_layer_heap] after layer 1 was flattened into layer 0. *)
Definition flattened_heap : heap := (flatten 2 1%nat two_layer_heap).2.

(** A store with one storage map object, which holds a nil slot map for
    account [0a..0a], and no layer. *)
Definition nil_slot_heap : heap :=
  mkHeap [] ∅ {[ 0%nat := {[ hash_of x0a := None ]} ]}.

(** ** Ownership of map objects and merged views *)

Section Ownership.
Context `{BF : BloomFilter} `{DL : DiskLayer} `{SC : SlimCodec} `{TU : Tuning}.

(** The stored storage map [sto] holds the slot map [i] for some
    account. *)
Definition inner_ref (h : heap) (sto : mapref) (i : nat) : Prop :=
  exists a, slotmap_at h sto !! a = Some (Some i).

(** The blob-map objects reached from a pair of map references. *)
Definition owns_ref (h : heap) (acc sto : mapref) (i : nat) : Prop :=
  acc = Some i \/ inner_ref h sto i.

(** The maps of a layer are well formed: no nil map, one slot map per
    account, and the account map is none of the slot maps. *)
Record maps_wf (h : heap) (acc sto : mapref) : Prop := mkMapsWf {
  wf_accounts_ref : exists a, acc = Some a /\ ~ inner_ref h sto a;
  wf_storage_ref : is_Some sto;
  wf_slots_ref : forall a r, slotmap_at h sto !! a = Some r -> is_Some r;
  wf_slots_inj : forall a1 a2 i,
      slotmap_at h sto !! a1 = Some (Some i) ->
      slotmap_at h sto !! a2 = Some (Some i) -> a1 = a2
}.

Definition owns_blob (h : heap) (d : diffLayer) (i : nat) : Prop :=
  owns_ref h (accountData d) (storageData d) i.

Definition layer_wf (h : heap) (d : diffLayer) : Prop :=
  maps_wf h (accountData d) (storageData d).

(** Two layers share no map object. *)
Definition apart (h : heap) (d1 d2 : diffLayer) : Prop :=
  storageData d1 <> storageData d2 /\
  forall i, owns_blob h d1 i -> ~ owns_blob h d2 i.

(** What the maps of one layer answer. *)
Definition local_account (h : heap) (acc : mapref) (hash : Hash) : option blob :=
  blobmap_at h acc !! hash.

Definition local_slot (h : heap) (sto : mapref) (accountHash storageHash : Hash)
    : option blob :=
  match slotmap_at h sto !! accountHash with
  | Some slots => blobmap_at h slots !! storageHash
  | None => None
  end.

(** What the maps of the layers of a chain answer, the upper layer
    first. *)
Fixpoint chain_account (h : heap) (c : list nat) (hash : Hash) : option blob :=
  match c with
  | [] => None
  | l :: c' =>
      match local_account h (accountData (layer_at h l)) hash with
      | Some data => Some data
      | None => chain_account h c' hash
      end
  end.

Fixpoint chain_slot (h : heap) (c : list nat) (accountHash storageHash : Hash)
    : option blob :=
  match c with
  | [] => None
  | l :: c' =>
      match local_slot h (storageData (layer_at h l)) accountHash storageHash with
      | Some data => Some data
      | None => chain_slot h c' accountHash storageHash
      end
  end.

(** The layer [flatten] allocates for a merge. *)
Definition merged_layer (pd d : diffLayer) : diffLayer :=
  {| origin := origin pd; parent := parent pd;
     memory := wrap64 (memory pd + memory d); root := root d; stale := false;
     accountData := accountData pd; storageData := storageData pd;
     accountList := None; storageList := ∅; diffed := diffed d |}.

(** The byte cost the specification gives a delta: 32 plus the length of
    the blob, summed over the entries. *)
Definition account_weight (m : gmap Hash blob) : Z :=
  map_fold (fun _ data acc => acc + (HashLength + len data)) 0 m.

Definition storage_weight (h : heap) (s : gmap Hash (option nat)) : Z :=
  map_fold (fun _ slots acc => acc + account_weight (blobmap_at h slots)) 0 s.



(** The layers of a chain are well formed and pairwise apart. *)
Definition chain_sep (h : heap) (c : list nat) : Prop :=
  (forall l, l ∈ c -> layer_wf h (layer_at h l)) /\
  (forall l1 l2, l1 ∈ c -> l2 ∈ c -> l1 <> l2 ->
                 apart h (layer_at h l1) (layer_at h l2)).

(** A layer is live when no layer of its chain is stale. *)
Definition live (h : heap) (l : nat) : Prop :=
  exists c, chain h l c /\ forall x, x ∈ c -> stale (layer_at h x) = false.

End Ownership.

(** ** Reachable stores and their invariant *)

Section Reachability.
Context `{BF : BloomFilter} `{DL : DiskLayer} `{SC : SlimCodec} `{TU : Tuning}.

(** The stores the operations of the diff layer produce from the empty
    one: a new layer over a disk layer or over a diff layer
    ([newDiffLayer], [Update]) with the maps the producer hands over,
    [flatten], and the two sorted key views. The reads change nothing.
    Only calls that returned count, a panic ends the process. *)
Inductive reachable : heap -> Prop :=
| reachable_empty : reachable empty_heap
| reachable_block h parent root accounts storage l h' :
    reachable h ->
    apply_block parent root accounts storage h = (Ret l, h') ->
    reachable h'
| reachable_flatten h fuel dl l' h' :
    reachable h -> flatten fuel dl h = (Ret l', h') -> reachable h'
| reachable_AccountList h dl r h' :
    reachable h -> AccountList dl h = (Ret r, h') -> reachable h'
| reachable_StorageList h dl a r h' :
    reachable h -> StorageList dl a h = (Ret r, h') -> reachable h'.

(** The stores the operations produce from the empty one whatever the
    callers do with maps: a caller may allocate and write map objects at
    will, and hands [newDiffLayer] any references, nil ones and ones
    that other layers hold included. *)
Inductive evolves : heap -> Prop :=
| evolves_empty : evolves empty_heap
| evolves_maps h h' : evolves h -> layers h' = layers h -> evolves h'
| evolves_new h par rt acc sto l h' :
    evolves h -> newDiffLayer par rt acc sto h = (Ret l, h') -> evolves h'
| evolves_flatten h fuel dl l' h' :
    evolves h -> flatten fuel dl h = (Ret l', h') -> evolves h'
| evolves_AccountList h dl r h' :
    evolves h -> AccountList dl h = (r, h') -> evolves h'
| evolves_StorageList h dl a r h' :
    evolves h -> StorageList dl a h = (r, h') -> evolves h'.

(** What holds of the layer records of every such store: parents are
    older layers, a layer on a diff parent is not stale, and the filter
    of a layer is positive wherever the filter of its diff parent is. *)
Record shape (h : heap) : Prop := mkShape {
  shape_parent : forall l d p,
      layers h !! l = Some d -> parent d = SnapDiff p ->
      (p < l)%nat /\ stale d = false;
  shape_mono : forall l d p pd f fp,
      layers h !! l = Some d -> parent d = SnapDiff p ->
      layers h !! p = Some pd -> diffed d = Some f -> diffed pd = Some fp ->
      forall y, Filter_ContainsHash fp y = true -> Filter_ContainsHash f y = true
}.

(** The stores built by updates alone. *)
Inductive built : heap -> Prop :=
| built_empty : built empty_heap
| built_disk h disk root accounts storage :
    built h ->
    built (apply_block (SnapDisk disk) root accounts storage h).2
| built_diff h p root accounts storage :
    built h -> (p < length (layers h))%nat ->
    built (apply_block (SnapDiff p) root accounts storage h).2.

(** What [rebloom] starts from in a new layer on [par]: the origin, and
    a new filter over a disk layer or a copy of the filter of the diff
    parent. *)
Definition new_base (h : heap) (par : snapshot)
    : option (option diskLayer * Filter) :=
  match par with
  | SnapDisk disk => Some (Some disk, bloomfilter_New bloomSize bloomFuncs)
  | SnapDiff p =>
      match layers h !! p with
      | Some pd =>
          match diffed pd with
          | Some f => Some (origin pd, Filter_Copy f)
          | None => None
          end
      | None => None
      end
  | SnapNil => None
  end.

(** The record [newDiffLayer] leaves behind. *)
Definition new_layer (h : heap) (par : snapshot) (rt : Hash) (acc sto : mapref)
    (o : option diskLayer) (f0 : Filter) : diffLayer :=
  {| origin := o; parent := par;
     memory := wrap64 (account_weight (blobmap_at h acc)
                       + storage_weight h (slotmap_at h sto));
     root := rt; stale := false; accountData := acc; storageData := sto;
     accountList := None; storageList := ∅;
     diffed := Some (bloom_storage h (slotmap_at h sto)
                       (bloom_accounts (blobmap_at h acc) f0)) |}.

(** The filter [f] is positive on every key of the maps of layer [x]. *)
Definition bloom_holds (h : heap) (f : Filter) (x : nat) : Prop :=
  (forall k, is_Some (local_account h (accountData (layer_at h x)) k) ->
             Filter_ContainsHash f (accountBloomHash offsets k) = true) /\
  (forall a s, is_Some (local_slot h (storageData (layer_at h x)) a s) ->
               Filter_ContainsHash f (storageBloomHash offsets a s) = true).

(** The filter of layer [l] is positive on every key of every layer of
    its chain. *)
Definition bloom_superset (h : heap) (l : nat) : Prop :=
  exists f c, diffed (layer_at h l) = Some f /\ chain h l c /\
              forall x, x ∈ c -> bloom_holds h f x.

(** The fields of a layer record that the sorted key views leave alone. *)
Definition same_core (d d' : diffLayer) : Prop :=
  origin d' = origin d /\ parent d' = parent d /\ root d' = root d /\
  stale d' = stale d /\ accountData d' = accountData d /\
  storageData d' = storageData d /\ diffed d' = diffed d.

(** Layer [l] is in [h'] what it was in [h]: the same record up to
    memory and caches, and the same contents of its maps. *)
Definition kept (h h' : heap) (l : nat) : Prop :=
  same_core (layer_at h l) (layer_at h' l) /\
  slotmap_at h' (storageData (layer_at h l)) = slotmap_at h (storageData (layer_at h l)) /\
  forall i, owns_blob h (layer_at h l) i -> blobmap_at h' (Some i) = blobmap_at h (Some i).

(** A live layer of [h] that is live in [h'] with the same chain, all of
    whose layers are kept. *)
Definition survives (h h' : heap) (l : nat) : Prop :=
  exists c, chain h l c /\ chain h' l c /\
            (forall x, x ∈ c -> stale (layer_at h x) = false) /\
            forall x, x ∈ c -> kept h h' x.

(** The invariant of the reachable stores. Parents are older layers and
    a stale layer sits on a disk layer; the live layers have well-formed
    maps of their own, share no map object, have one origin along their
    chain, and their filters are positive on every key of the chain. *)
Record heap_inv (h : heap) : Prop := mkHeapInv {
  inv_parent : forall l d p,
      layers h !! l = Some d -> parent d = SnapDiff p ->
      (p < l)%nat /\ stale d = false;
  inv_bottom : forall l d, layers h !! l = Some d -> parent d <> SnapNil;
  inv_wf : forall l, live h l -> layer_wf h (layer_at h l);
  inv_dom : forall l i,
      live h l -> owns_blob h (layer_at h l) i -> i ∈ dom (blobmaps h);
  inv_dom_slots : forall l s,
      live h l -> storageData (layer_at h l) = Some s -> s ∈ dom (slotmaps h);
  inv_apart : forall l1 l2,
      live h l1 -> live h l2 -> l1 <> l2 ->
      apart h (layer_at h l1) (layer_at h l2);
  inv_origin : forall l c x,
      live h l -> chain h l c -> x ∈ c ->
      origin (layer_at h x) = origin (layer_at h l);
  inv_bloom : forall l, live h l -> bloom_superset h l
}.

(** The memory counter [flatten] gives the layer it returns for a
    chain: the counter of the bottom layer, then one wrapped addition
    per merge, from the bottom up. *)
Fixpoint chain_memory (h : heap) (c : list nat) : Z :=
  match c with
  | [] => 0
  | l :: c' =>
      match c' with
      | [] => memory (layer_at h l)
      | _ :: _ => wrap64 (chain_memory h c' + memory (layer_at h l))
      end
  end.

End Reachability.

(** * Properties *)

(** ** Key mixing *)

Lemma byteZ_range (b : byte) : 0 <= byteZ b < 256.
Proof. unfold byteZ. pose proof (Byte.to_N_bounded b). lia. Qed.

Lemma lor_shift_byte (x y k : Z) :
  0 <= x < 256 -> 0 <= k ->
  Z.lor (Z.shiftl x k) (Z.shiftl y (k + 8)) = Z.shiftl (x + 256 * y) k.
Proof.
  intros Hx Hk.
  replace (k + 8) with (8 + k) by lia.
  rewrite <- (Z.shiftl_shiftl y 8 k) by lia.
  rewrite <- Z.shiftl_lor. f_equal.
  rewrite <- Z.add_nocarry_lor.
  - rewrite Z.shiftl_mul_pow2 by lia. lia.
  - apply Z.bits_inj'. intros n Hn.
    rewrite Z.land_spec, Z.bits_0.
    destruct (Z.lt_ge_cases n 8) as [Hlt | Hge].
    + rewrite (Z.shiftl_spec_low y 8 n Hlt). apply andb_false_r.
    + replace (Z.testbit x n) with false; [reflexivity |].
      symmetry. destruct (Z.eq_dec x 0) as [-> | Hx0]; [apply Z.bits_0 |].
      apply Z.bits_above_log2; [lia |].
      apply Z.log2_lt_pow2; [lia |].
      apply Z.lt_le_trans with (2 ^ 8); [simpl; lia |].
      apply Z.pow_le_mono_r; lia.
Qed.

(** On eight bytes the shifts and ors of [binary.BigEndian.Uint64] add
    up to the big-endian value. *)
Lemma BigEndian_Uint64_be_u64 (b : list byte) :
  length b = 8%nat -> BigEndian_Uint64 b = be_u64 b.
Proof.
  intros Hlen.
  destruct b as [| b0 [| b1 [| b2 [| b3 [| b4 [| b5 [| b6 [| b7 [| ? ?]]]]]]]]];
    try discriminate Hlen.
  unfold BigEndian_Uint64, be_u64, byte_at; simpl nth; simpl fold_left.
  pose proof (byteZ_range b0). pose proof (byteZ_range b1).
  pose proof (byteZ_range b2). pose proof (byteZ_range b3).
  pose proof (byteZ_range b4). pose proof (byteZ_range b5).
  pose proof (byteZ_range b6). pose proof (byteZ_range b7).
  change 56 with (48 + 8). rewrite (lor_shift_byte (byteZ b1) (byteZ b0) 48) by lia.
  change 48 with (40 + 8). rewrite (lor_shift_byte (byteZ b2) _ 40) by lia.
  change 40 with (32 + 8). rewrite (lor_shift_byte (byteZ b3) _ 32) by lia.
  change 32 with (24 + 8). rewrite (lor_shift_byte (byteZ b4) _ 24) by lia.
  change 24 with (16 + 8). rewrite (lor_shift_byte (byteZ b5) _ 16) by lia.
  change 16 with (8 + 8). rewrite (lor_shift_byte (byteZ b6) _ 8) by lia.
  rewrite <- (Z.shiftl_0_r (byteZ b7)) at 1.
  change 8 with (0 + 8). rewrite (lor_shift_byte (byteZ b7) _ 0) by lia.
  rewrite Z.shiftl_0_r. lia.
Qed.

Lemma be_u64_bound_aux (l : list byte) (acc : Z) :
  0 <= acc ->
  0 <= fold_left (fun acc b => acc * 256 + byteZ b) l acc
    < (acc + 1) * 256 ^ Z.of_nat (length l).
Proof.
  revert acc. induction l as [| b l IH]; intros acc Hacc.
  - simpl. lia.
  - cbn [fold_left length]. pose proof (byteZ_range b) as Hb.
    specialize (IH (acc * 256 + byteZ b) ltac:(lia)).
    rewrite Nat2Z.inj_succ, Z.pow_succ_r by lia.
    split; [lia |].
    eapply Z.lt_le_trans; [apply IH |].
    assert (0 < 256 ^ Z.of_nat (length l)) by (apply Z.pow_pos_nonneg; lia).
    nia.
Qed.

Lemma be_u64_range (l : list byte) :
  length l = 8%nat -> 0 <= be_u64 l < 2 ^ 64.
Proof.
  intros Hl. pose proof (be_u64_bound_aux l 0 ltac:(lia)) as H.
  rewrite Hl in H. unfold be_u64. change (256 ^ Z.of_nat 8) with (2 ^ 64) in H. lia.
Qed.

Lemma window_length (lo : nat) (h : Hash) :
  (lo + 8 <= length h)%nat -> length (window lo h) = 8%nat.
Proof. intros H. unfold window. rewrite length_take, length_drop. lia. Qed.

Lemma init_offsets_range (draw1 draw2 : Z) :
  (bloomAccountHasherOffset (init draw1 draw2) <= 24)%nat /\
  (bloomStorageHasherOffset (init draw1 draw2) <= 24)%nat.
Proof.
  unfold init, rand_Intn; simpl.
  pose proof (Z.mod_pos_bound draw1 25 ltac:(lia)).
  pose proof (Z.mod_pos_bound draw2 25 ltac:(lia)).
  lia.
Qed.

Lemma lxor_range64 (a b : Z) :
  0 <= a < 2 ^ 64 -> 0 <= b < 2 ^ 64 -> 0 <= Z.lxor a b < 2 ^ 64.
Proof.
  intros Ha Hb.
  assert (Hnn : 0 <= Z.lxor a b) by (apply Z.lxor_nonneg; lia).
  split; [exact Hnn |].
  destruct (Z.eq_dec (Z.lxor a b) 0) as [-> | Hne]; [lia |].
  apply Z.log2_lt_pow2; [lia |].
  pose proof (Z.log2_lxor a b ltac:(lia) ltac:(lia)) as Hl.
  assert (Z.log2 a < 64).
  { destruct (Z.eq_dec a 0) as [-> | ?]; [simpl; lia | apply Z.log2_lt_pow2; lia]. }
  assert (Z.log2 b < 64).
  { destruct (Z.eq_dec b 0) as [-> | ?]; [simpl; lia | apply Z.log2_lt_pow2; lia]. }
  lia.
Qed.

(** C6, as the code has it: the storage key reads BOTH hashes at the
    storage offset. For offsets drawn by [init] and 32-byte hashes, the
    account key is the big-endian word of the account hash at the account
    offset, the storage key is the exclusive or of the big-endian words
    of the account hash and of the slot hash, both at the storage offset;
    both offsets lie in [0,24], so the windows hold eight bytes, and the
    keys are 64-bit values. *)
Theorem storageBloomHash_spec (draw1 draw2 : Z) (a s : Hash) :
  length a = 32%nat -> length s = 32%nat ->
  let off := init draw1 draw2 in
  (bloomAccountHasherOffset off <= 24)%nat /\
  (bloomStorageHasherOffset off <= 24)%nat /\
  accountBloomHash off a = be_u64 (window (bloomAccountHasherOffset off) a) /\
  storageBloomHash off a s =
    Z.lxor (be_u64 (window (bloomStorageHasherOffset off) a))
           (be_u64 (window (bloomStorageHasherOffset off) s)) /\
  0 <= accountBloomHash off a < 2 ^ 64 /\
  0 <= storageBloomHash off a s < 2 ^ 64.
Proof.
  intros Ha Hs off.
  destruct (init_offsets_range draw1 draw2) as [Hoa Hos]. fold off in Hoa, Hos.
  assert (Hwa : length (window (bloomAccountHasherOffset off) a) = 8%nat)
    by (apply window_length; lia).
  assert (Hwsa : length (window (bloomStorageHasherOffset off) a) = 8%nat)
    by (apply window_length; lia).
  assert (Hwss : length (window (bloomStorageHasherOffset off) s) = 8%nat)
    by (apply window_length; lia).
  unfold accountBloomHash, storageBloomHash.
  rewrite !BigEndian_Uint64_be_u64 by assumption.
  repeat split; try assumption; try reflexivity;
    try (apply be_u64_range; assumption);
    apply lxor_range64; apply be_u64_range; assumption.
Qed.

Lemma storageBloomHash_spec_witness :
  let off := init 7 30 in
  (bloomAccountHasherOffset off <= 24)%nat /\
  (bloomStorageHasherOffset off <= 24)%nat /\
  accountBloomHash off (hash_of x0a) =
    be_u64 (window (bloomAccountHasherOffset off) (hash_of x0a)) /\
  storageBloomHash off (hash_of x0a) (hash_of x01) =
    Z.lxor (be_u64 (window (bloomStorageHasherOffset off) (hash_of x0a)))
           (be_u64 (window (bloomStorageHasherOffset off) (hash_of x01))) /\
  0 <= accountBloomHash off (hash_of x0a) < 2 ^ 64 /\
  0 <= storageBloomHash off (hash_of x0a) (hash_of x01) < 2 ^ 64.
Proof.
  apply (storageBloomHash_spec 7 30 (hash_of x0a) (hash_of x01)); reflexivity.
Defined.

(** C6, as the specification words it (the account hash read at the
    ACCOUNT offset), fails: with the offsets 0 and 1 drawn by [init] and
    the account hash [01 00 .. 00], the code yields 0 and the formula of
    the specification [2^56]. *)
Lemma storageBloomHash_account_offset_counterexample :
  storageBloomHash (init 0 1) (hash_from x01) (hash_of x00) = 0 /\
  Z.lxor (be_u64 (window (bloomAccountHasherOffset (init 0 1)) (hash_from x01)))
         (be_u64 (window (bloomStorageHasherOffset (init 0 1)) (hash_of x00)))
    = 2 ^ 56 /\
  storageBloomHash (init 0 1) (hash_from x01) (hash_of x00) <>
  Z.lxor (be_u64 (window (bloomAccountHasherOffset (init 0 1)) (hash_from x01)))
         (be_u64 (window (bloomStorageHasherOffset (init 0 1)) (hash_of x00))).
Proof. vm_compute. repeat split; discriminate. Qed.

(** ** The order on hashes *)

Lemma byteZ_inj (x y : byte) : byteZ x = byteZ y -> x = y.
Proof.
  unfold byteZ. intros H. apply N2Z.inj in H.
  pose proof (Byte.of_to_N x) as Hx. rewrite H, Byte.of_to_N in Hx.
  congruence.
Qed.

Lemma bytes_Compare_antisym (a b : list byte) :
  bytes_Compare b a = - bytes_Compare a b.
Proof.
  revert b. induction a as [| x a IH]; intros [| y b]; simpl; try reflexivity.
  destruct (Z.ltb_spec (byteZ x) (byteZ y)), (Z.ltb_spec (byteZ y) (byteZ x));
    try lia. apply IH.
Qed.

Lemma bytes_Compare_eq (a b : list byte) :
  bytes_Compare a b = 0 <-> a = b.
Proof.
  revert b. induction a as [| x a IH]; intros [| y b]; simpl;
    try (split; [lia | discriminate]); [tauto |].
  destruct (Z.ltb_spec (byteZ x) (byteZ y)), (Z.ltb_spec (byteZ y) (byteZ x));
    try (split; [lia | intros [= -> ->]; lia]).
  rewrite IH. assert (x = y) by (apply byteZ_inj; lia).
  split; [intros -> | intros [= _ ->]]; congruence.
Qed.

Lemma bytes_Compare_lt_lex (a b : list byte) :
  bytes_Compare a b < 0 <-> lex_lt a b.
Proof.
  revert b. induction a as [| x a IH]; intros [| y b]; simpl.
  - split; [lia | inversion 1].
  - split; [constructor | lia].
  - split; [lia | inversion 1].
  - destruct (Z.ltb_spec (byteZ x) (byteZ y)).
    + split; [intros _; by constructor | lia].
    + destruct (Z.ltb_spec (byteZ y) (byteZ x)).
      * split; [lia | inversion 1; subst; [lia |]]. lia.
      * assert (x = y) as -> by (apply byteZ_inj; lia).
        rewrite IH. split; [by constructor | inversion 1; subst; [lia | done]].
Qed.

Lemma bytes_Compare_trans (a b c : list byte) :
  bytes_Compare a b <= 0 -> bytes_Compare b c <= 0 -> bytes_Compare a c <= 0.
Proof.
  revert b c. induction a as [| x a IH]; intros [| y b] [| z c]; simpl; try lia.
  destruct (Z.ltb_spec (byteZ x) (byteZ y)), (Z.ltb_spec (byteZ y) (byteZ x)),
    (Z.ltb_spec (byteZ y) (byteZ z)), (Z.ltb_spec (byteZ z) (byteZ y)),
    (Z.ltb_spec (byteZ x) (byteZ z)), (Z.ltb_spec (byteZ z) (byteZ x));
    try lia.
  apply IH.
Qed.

Lemma Hash_Cmp_le_trans : Transitive (cmp_le Hash_Cmp).
Proof. intros a b c. apply bytes_Compare_trans. Qed.

Lemma Hash_Cmp_le_total : Total (cmp_le Hash_Cmp).
Proof.
  intros a b. unfold cmp_le, Hash_Cmp.
  rewrite (bytes_Compare_antisym a b). lia.
Qed.

Lemma StronglySorted_strict {A : Type} (R R' : relation A) (l : list A) :
  (forall x y, R x y -> x <> y -> R' x y) ->
  StronglySorted R l -> NoDup l -> StronglySorted R' l.
Proof.
  intros HR. induction 1 as [| x l Hs IH Hall]; intros Hnd; [constructor |].
  apply NoDup_cons in Hnd as [Hx Hnd].
  constructor; [by apply IH |].
  rewrite Forall_forall in Hall |- *. intros y Hy.
  apply HR; [by apply Hall |]. intros ->. done.
Qed.

(** Sorting a duplicate-free list with [Hash_Cmp] yields the keys in
    strictly ascending lexicographic order. *)
Lemma slices_SortFunc_sorted (l : list Hash) :
  NoDup l ->
  StronglySorted lex_lt (slices_SortFunc Hash_Cmp l) /\
  slices_SortFunc Hash_Cmp l ≡ₚ l.
Proof.
  intros Hnd. unfold slices_SortFunc.
  pose proof (merge_sort_Permutation (cmp_le Hash_Cmp) l) as Hp.
  split; [| exact Hp].
  pose proof (@StronglySorted_merge_sort _ (cmp_le Hash_Cmp) _
                Hash_Cmp_le_trans Hash_Cmp_le_total l) as Hs.
  eapply StronglySorted_strict; [| exact Hs | by rewrite Hp].
  intros x y Hle Hne. apply bytes_Compare_lt_lex.
  unfold cmp_le, Hash_Cmp in Hle.
  destruct (Z.eq_dec (bytes_Compare x y) 0) as [He | He]; [| lia].
  apply bytes_Compare_eq in He. done.
Qed.

(** ** Sorted key views *)

Lemma wrap64_add_wrap64 (a n : Z) : wrap64 (a + wrap64 n) = wrap64 (a + n).
Proof. unfold wrap64. apply Z.add_mod_idemp_r. lia. Qed.

Lemma maps_Keys_NoDup {V : Type} (m : gmap Hash V) : NoDup (maps_Keys m).
Proof. apply NoDup_fst_map_to_list. Qed.

Lemma elem_of_maps_Keys {V : Type} (m : gmap Hash V) (k : Hash) :
  k ∈ maps_Keys m <-> is_Some (m !! k).
Proof.
  unfold maps_Keys. rewrite list_elem_of_fmap. split.
  - intros [[k' v] [-> Hin]]. apply elem_of_map_to_list in Hin. by exists v.
  - intros [v Hv]. exists (k, v). split; [done |]. by apply elem_of_map_to_list.
Qed.

Lemma maps_Keys_length {V : Type} (m : gmap Hash V) :
  length (maps_Keys m) = size m.
Proof. unfold maps_Keys. rewrite length_fmap. apply length_map_to_list. Qed.

(** The sorted keys of a stored map: strictly ascending, exactly the
    keys of the map. *)
Lemma sorted_keys_spec {V : Type} (m : gmap Hash V) :
  let keys := slices_SortFunc Hash_Cmp (maps_Keys m) in
  StronglySorted lex_lt keys /\ NoDup keys /\
  (forall k, k ∈ keys <-> is_Some (m !! k)) /\
  length keys = size m.
Proof.
  intros keys.
  destruct (slices_SortFunc_sorted (maps_Keys m) (maps_Keys_NoDup m)) as [Hs Hp].
  fold keys in Hs, Hp. repeat split.
  - exact Hs.
  - rewrite Hp. apply maps_Keys_NoDup.
  - rewrite Hp. by apply elem_of_maps_Keys.
  - rewrite Hp. by apply elem_of_maps_Keys.
  - rewrite Hp. apply maps_Keys_length.
Qed.

Section KeyViews.
Context `{BF : BloomFilter} `{DL : DiskLayer} `{SC : SlimCodec} `{TU : Tuning}.

Lemma lookup_update_layer_eq (h : heap) (l : loc) (f : diffLayer -> diffLayer) :
  layers (update_layer l f h) !! l = f <$> layers h !! l.
Proof. unfold update_layer; simpl. apply list_lookup_alter_eq. Qed.

Lemma lookup_update_layer_ne (h : heap) (l l' : loc) (f : diffLayer -> diffLayer) :
  l <> l' -> layers (update_layer l f h) !! l' = layers h !! l'.
Proof. intros. unfold update_layer; simpl. by apply list_lookup_alter_ne. Qed.

Lemma layer_at_lookup (h : heap) (l : loc) :
  (l <? length (layers h))%nat = true -> layers h !! l = Some (layer_at h l).
Proof.
  intros Hlt. apply Nat.ltb_lt, lookup_lt_is_Some in Hlt as [d Hd].
  unfold layer_at. by rewrite Hd.
Qed.

Lemma outcome_pair_eta {A : Type} (r : outcome A * heap) (a : A) :
  r.1 = Ret a -> r = (Ret a, r.2).
Proof. destruct r as [o h']; simpl. by intros ->. Qed.

(** First call of [AccountList]: the sorted key set is returned, cached
    and charged to [memory]; the next call returns the cached list and
    leaves the store as it is. *)
Lemma AccountList_first (h : heap) (dl : loc) (d : diffLayer) :
  layers h !! dl = Some d -> accountList d = None ->
  exists keys h',
    AccountList dl h = (Ret (Some keys), h') /\
    StronglySorted lex_lt keys /\ NoDup keys /\
    (forall k, k ∈ keys <-> is_Some (blobmap_at h (accountData d) !! k)) /\
    accountList <$> layers h' !! dl = Some (Some keys) /\
    layer_memory h' dl =
      Some (wrap64 (memory d + HashLength * Z.of_nat (length keys))) /\
    AccountList dl h' = (Ret (Some keys), h').
Proof.
  intros Hd Hnil.
  destruct (sorted_keys_spec (blobmap_at h (accountData d))) as (Hs & Hnd & Hin & _).
  eexists _, _. unfold AccountList at 1. rewrite Hd, Hnil.
  split; [reflexivity |]. repeat split; try assumption; try apply Hin.
  - rewrite lookup_update_layer_eq, Hd. reflexivity.
  - unfold layer_memory. rewrite lookup_update_layer_eq, Hd. simpl.
    rewrite wrap64_add_wrap64. do 2 f_equal. lia.
  - unfold AccountList. rewrite lookup_update_layer_eq, Hd. reflexivity.
Qed.

(** First call of [StorageList] for a tracked account: the sorted slot
    keys are returned and cached; [memory] grows by one hash per cached
    ACCOUNT (the size of the cache after the insertion) plus one hash,
    whatever the length of the list. *)
Lemma StorageList_first (h : heap) (dl : loc) (d : diffLayer)
    (accountHash : Hash) (slots : mapref) :
  layers h !! dl = Some d ->
  slotmap_at h (storageData d) !! accountHash = Some slots ->
  storageList d !! accountHash = None ->
  exists keys h',
    StorageList dl accountHash h = (Ret (Some keys), h') /\
    StronglySorted lex_lt keys /\ NoDup keys /\
    (forall k, k ∈ keys <-> is_Some (blobmap_at h slots !! k)) /\
    layer_memory h' dl =
      Some (wrap64 (memory d
                    + (HashLength * (Z.of_nat (size (storageList d)) + 1)
                       + HashLength))) /\
    StorageList dl accountHash h' = (Ret (Some keys), h').
Proof.
  intros Hd Hslots Hnil.
  destruct (sorted_keys_spec (blobmap_at h slots)) as (Hs & Hnd & Hin & _).
  eexists _, _. unfold StorageList at 1. rewrite Hd, Hslots, Hnil.
  split; [reflexivity |]. repeat split; try assumption; try apply Hin.
  - unfold layer_memory. rewrite lookup_update_layer_eq, Hd. simpl.
    rewrite wrap64_add_wrap64. do 2 f_equal.
    rewrite map_size_insert, Hnil. lia.
  - unfold StorageList. rewrite lookup_update_layer_eq, Hd. simpl.
    change (slotmap_at (update_layer dl _ h)) with (slotmap_at h).
    rewrite Hslots. by rewrite lookup_insert_eq.
Qed.

End KeyViews.

(** C7 at a failing input. The layer of [three_slot_heap] holds account
    [0a..0a] with three slots. The first [StorageList] call returns the
    three keys in ascending order, yet [memory] grows from 132 to 196,
    by 64 = 32 * (number of cached accounts) + 32, not by the 96 bytes of
    the three materialised hashes: the source multiplies
    [len(dl.storageList)], the cache map, where [AccountList] multiplies
    the length of the list. *)
Theorem StorageList_memory_slip :
  (StorageList 0%nat (hash_of x0a) three_slot_heap).1
    = Ret (Some [hash_of x01; hash_of x02; hash_of x03]) /\
  layer_memory three_slot_heap 0%nat = Some 132 /\
  layer_memory (StorageList 0%nat (hash_of x0a) three_slot_heap).2 0%nat
    = Some (132 + 64) /\
  HashLength * Z.of_nat (length [hash_of x01; hash_of x02; hash_of x03]) = 96.
Proof. vm_compute. repeat split; reflexivity. Qed.

(** ** The read path *)

Section ReadPath.
Context `{BF : BloomFilter} `{DL : DiskLayer} `{SC : SlimCodec} `{TU : Tuning}.

(** Every point read starts with the stale check. *)
Lemma stale_reads_fail (h : heap) (dl : loc) (d : diffLayer) :
  layers h !! dl = Some d -> stale d = true ->
  forall (fuel : nat) (hash accountHash storageHash : Hash),
    AccountRLP fuel h dl hash = Ret (None, Some ErrSnapshotStale) /\
    Account fuel h dl hash = Ret (None, Some ErrSnapshotStale) /\
    Storage fuel h dl accountHash storageHash = Ret (None, Some ErrSnapshotStale) /\
    accountRLP (S fuel) h dl hash = Ret (None, Some ErrSnapshotStale) /\
    storage (S fuel) h dl accountHash storageHash = Ret (None, Some ErrSnapshotStale).
Proof.
  intros Hd Hs fuel hash accountHash storageHash.
  unfold Account, AccountRLP, Storage; simpl. rewrite Hd, Hs. auto.
Qed.

(** C4. On a live layer, a key whose mixed hash is not in the bloom
    filter is answered by the lookup of the origin disk layer. The answer
    is reached with any fuel, even none (the walk over the diff layers,
    which consumes fuel, is not entered), and in any store that holds the
    same layer record at [dl], whatever its maps and its other layers
    hold. *)
Theorem bloom_miss_delegates (h : heap) (dl : loc) (d : diffLayer)
    (bloom : Filter) (disk : diskLayer) :
  layers h !! dl = Some d -> stale d = false ->
  diffed d = Some bloom -> origin d = Some disk ->
  (forall hash : Hash,
      Filter_ContainsHash bloom (accountBloomHash offsets hash) = false ->
      forall (fuel : nat) (h' : heap),
        layers h' !! dl = Some d ->
        AccountRLP 0 h dl hash = Ret (diskLayer_AccountRLP disk hash) /\
        AccountRLP fuel h' dl hash = Ret (diskLayer_AccountRLP disk hash)) /\
  (forall accountHash storageHash : Hash,
      Filter_ContainsHash bloom
        (storageBloomHash offsets accountHash storageHash) = false ->
      forall (fuel : nat) (h' : heap),
        layers h' !! dl = Some d ->
        Storage 0 h dl accountHash storageHash
          = Ret (diskLayer_Storage disk accountHash storageHash) /\
        Storage fuel h' dl accountHash storageHash
          = Ret (diskLayer_Storage disk accountHash storageHash)).
Proof.
  intros Hd Hs Hb Ho. split.
  - intros hash Hmiss fuel h' Hd'. unfold AccountRLP.
    rewrite Hd, Hd', Hs, Hb, Hmiss, Ho. auto.
  - intros accountHash storageHash Hmiss fuel h' Hd'. unfold Storage.
    rewrite Hd, Hd', Hs, Hb, Hmiss, Ho. auto.
Qed.

(** A key held by the layer itself is returned as stored, nil or empty
    alike, once the bloom filter lets the read in. *)
Lemma AccountRLP_local (fuel : nat) (h : heap) (dl : loc) (d : diffLayer)
    (bloom : Filter) (hash : Hash) (data : blob) :
  layers h !! dl = Some d -> stale d = false -> diffed d = Some bloom ->
  Filter_ContainsHash bloom (accountBloomHash offsets hash) = true ->
  blobmap_at h (accountData d) !! hash = Some data ->
  AccountRLP (S fuel) h dl hash = Ret (data, None).
Proof.
  intros Hd Hs Hb Hhit Hdata. unfold AccountRLP; simpl.
  by rewrite Hd, Hs, Hb, Hhit, Hdata.
Qed.


End ReadPath.

(** In [one_layer_heap], account [0c..0c] misses the filter of the layer
    and is answered by the disk. *)
Lemma bloom_miss_delegates_witness :
  AccountRLP 0 one_layer_heap 0%nat (hash_of x0c) = Ret (Some [x04], None) /\
  Storage 0 one_layer_heap 0%nat (hash_of x0c) (hash_of x02)
    = Ret (Some [x06], None).
Proof.
  assert (Hd : layers one_layer_heap !! 0%nat = Some (layer_at one_layer_heap 0%nat))
    by (apply layer_at_lookup; vm_compute; reflexivity).
  assert (Hs : stale (layer_at one_layer_heap 0%nat) = false)
    by (vm_compute; reflexivity).
  assert (Hb : diffed (layer_at one_layer_heap 0%nat) = Some (mkBitFilter 64 11264))
    by (vm_compute; reflexivity).
  assert (Ho : origin (layer_at one_layer_heap 0%nat) = Some disk0)
    by (vm_compute; reflexivity).
  destruct (bloom_miss_delegates one_layer_heap 0%nat _ _ _ Hd Hs Hb Ho) as [Ha Hst].
  assert (Hma : Filter_ContainsHash (mkBitFilter 64 11264)
                  (accountBloomHash offsets (hash_of x0c)) = false)
    by (vm_compute; reflexivity).
  assert (Hms : Filter_ContainsHash (mkBitFilter 64 11264)
                  (storageBloomHash offsets (hash_of x0c) (hash_of x02)) = false)
    by (vm_compute; reflexivity).
  split.
  - rewrite (proj1 (Ha (hash_of x0c) Hma 0%nat one_layer_heap Hd)).
    vm_compute. reflexivity.
  - rewrite (proj1 (Hst (hash_of x0c) (hash_of x02) Hms 0%nat one_layer_heap Hd)).
    vm_compute. reflexivity.
Defined.


(** ** Flatten: what happens to the layer records *)

Arguments update_layer : simpl never.
Arguments maps_Copy : simpl never.
Arguments flatten_storage : simpl never.

Section FlattenLayers.
Context `{BF : BloomFilter} `{DL : DiskLayer} `{SC : SlimCodec} `{TU : Tuning}.

Lemma maps_Copy_layers (dst src : mapref) (h h' : heap) (r : outcome unit) :
  maps_Copy dst src h = (r, h') ->
  layers h' = layers h /\ slotmaps h' = slotmaps h.
Proof.
  unfold maps_Copy. case_decide; [by intros [= _ <-] |].
  destruct dst; by intros [= _ <-].
Qed.

Lemma flatten_storage_step_layers (ps : mapref) (a : Hash) (slots : mapref)
    (st : outcome unit * heap) :
  layers (flatten_storage_step ps a slots st).2 = layers st.2.
Proof.
  destruct st as [[[] | |] h]; simpl; try reflexivity.
  destruct (slotmap_at h ps !! a) as [pslots |].
  - destruct (maps_Copy pslots slots h) as [r h'] eqn:E.
    apply maps_Copy_layers in E as [E _]. exact E.
  - by destruct ps.
Qed.

Lemma flatten_storage_layers (ps cs : mapref) (h : heap) :
  layers (flatten_storage ps cs h).2 = layers h.
Proof.
  unfold flatten_storage.
  apply (map_fold_weak_ind (fun st _ => layers st.2 = layers h)); [done |].
  intros a slots m st _ IH. by rewrite flatten_storage_step_layers.
Qed.

Lemma chain_functional (h : heap) (l : loc) (c1 c2 : list loc) :
  chain h l c1 -> chain h l c2 -> c1 = c2.
Proof.
  intros H1. revert c2. induction H1 as [l d Hd Hp | l d p c Hd Hp Hc IH];
    intros c2 H2; inversion H2; subst; simplify_eq.
  - done.
  - congruence.
  - congruence.
  - f_equal. apply IH. congruence.
Qed.

Lemma chain_head (h : heap) (l : loc) (c : list loc) :
  chain h l c -> exists c', c = l :: c'.
Proof. destruct 1; eauto. Qed.

Lemma chain_last_bottom (h : heap) (l : loc) (c : list loc) :
  chain h l c ->
  exists b d, last c = Some b /\ layers h !! b = Some d /\
              forall p, parent d <> SnapDiff p.
Proof.
  induction 1 as [l d Hd Hp | l d p c Hd Hp Hc (b & db & Hl & Hb & Hnp)].
  - by exists l, d.
  - exists b, db. split; [| done].
    destruct (chain_head _ _ _ Hc) as [c' ->]. by rewrite last_cons_cons.
Qed.


(** The layer records after a flatten that returned. Either the layer
    sits on a non-diff parent and nothing happened, or: the bottom layer
    [b] of the chain was live and is now stale, one stale layer was
    appended for every intermediate merge, and the returned layer is the
    last one appended. *)
Lemma flatten_Ret_layers (fuel : nat) (dl l' : loc) (h h' : heap) :
  flatten fuel dl h = (Ret l', h') ->
  exists c, chain h dl c /\ (length c <= fuel)%nat /\
    ((c = [dl] /\ l' = dl /\ h' = h) \/
     (exists b db d new d',
         (2 <= length c)%nat /\ last c = Some b /\
         layers h !! b = Some db /\ stale db = false /\
         layers h !! dl = Some d /\
         layers h' = alter (set_stale true) b (layers h) ++ new ++ [d'] /\
         l' = (length (layers h) + length new)%nat /\
         length new = (length c - 2)%nat /\
         Forall (fun x => stale x = true /\ parent x = parent db) new /\
         origin d' = origin db /\ parent d' = parent db /\
         root d' = root d /\ stale d' = false /\
         accountData d' = accountData db /\ storageData d' = storageData db /\
         accountList d' = None /\ storageList d' = ∅ /\
         diffed d' = diffed d)).
Proof.
  revert dl l' h h'. induction fuel as [| fuel IH]; intros dl l' h h' Hf;
    [discriminate Hf |].
  simpl in Hf. destruct (layers h !! dl) as [d0 |] eqn:Hd0; [| discriminate Hf].
  destruct (parent d0) as [| disk | p] eqn:Hp0.
  1,2: injection Hf as <- <-; exists [dl]; split;
    [eapply chain_bottom; [exact Hd0 | intros p; congruence] | split; [simpl; lia | auto]].
  destruct (flatten fuel p h) as [[par | |] h1] eqn:Hrec; try discriminate Hf.
  destruct (IH _ _ _ _ Hrec) as (c0 & Hc0 & Hlen0 & Hcase).
  destruct (layers h1 !! par) as [pd |] eqn:Hpd; [| discriminate Hf].
  destruct (stale pd) eqn:Hspd; [discriminate Hf |].
  set (h2 := update_layer par (set_stale true) h1) in *.
  change (alter (set_stale true) par (layers h1)) with (layers h2) in Hf.
  destruct (layers h2 !! dl) as [d |] eqn:Hd2; [| discriminate Hf].
  destruct (maps_Copy (accountData pd) (accountData d) h2) as [[[] | |] h3] eqn:Hcopy;
    try discriminate Hf.
  pose proof (flatten_storage_layers (storageData pd) (storageData d) h3) as Hl4.
  destruct (flatten_storage (storageData pd) (storageData d) h3) as [[[] | |] h4] eqn:Hfs;
    try discriminate Hf.
  simpl in Hl4. apply maps_Copy_layers in Hcopy as [Hl3 _].
  injection Hf as <- <-.
  exists (dl :: c0). split; [by eapply chain_step |]. split; [simpl; lia |].
  right.
  destruct (chain_last_bottom _ _ _ Hc0) as (b & db & Hlast & Hb & Hnp).
  destruct (chain_head _ _ _ Hc0) as [c0' ->].
  assert (Hdlb : dl <> b).
  { intros ->. rewrite Hd0 in Hb. injection Hb as ->. exact (Hnp _ Hp0). }
  destruct Hcase as [(Hc1 & -> & ->) | Hdeep].
  - (* the parent is the bottom layer *)
    injection Hc1 as ->. simpl in Hlast. injection Hlast as <-.
    rewrite Hb in Hpd. injection Hpd as <-.
    assert (d = d0) as ->.
    { unfold h2 in Hd2. rewrite lookup_update_layer_ne in Hd2 by done. congruence. }
    match goal with |- context [layers h4 ++ [?r]] => set (d' := r) end.
    exists p, db, d0, [], d'. simpl.
    rewrite Hl4, Hl3. unfold h2; simpl.
    repeat split; try done; try lia. by rewrite length_alter, Nat.add_0_r.
  - destruct Hdeep as (b' & db' & dp & new & pd' & Hlen & Hlast' & Hb' & Hsb & Hdp
                       & Hl1 & -> & Hnew & Hall & Ho & Hpa & Hr & Hs & Ha & Hst
                       & Hal & Hsl & Hdf).
    rewrite Hlast in Hlast'. injection Hlast' as <-.
    rewrite Hb in Hb'. injection Hb' as <-.
    assert (Hpd' : pd' = pd).
    { rewrite Hl1 in Hpd. rewrite app_assoc in Hpd.
      rewrite lookup_app_r in Hpd by (rewrite length_app, length_alter; lia).
      rewrite length_app, length_alter, Nat.sub_diag in Hpd. by injection Hpd. }
    subst pd'.
    assert (Hlayers2 : layers h2 =
              alter (set_stale true) b (layers h) ++ (new ++ [set_stale true pd]) ++ []).
    { unfold h2; simpl. rewrite Hl1, app_nil_r, app_assoc.
      rewrite <- (Nat.add_0_r (length (layers h) + length new)).
      replace (length (layers h) + length new)%nat
        with (length (alter (set_stale true) b (layers h) ++ new))
        by (rewrite length_app, length_alter; lia).
      rewrite alter_app_r. simpl. by rewrite <- app_assoc. }
    assert (d = d0) as ->.
    { rewrite Hlayers2, app_nil_r in Hd2.
      apply lookup_lt_Some in Hd0 as Hlt.
      rewrite lookup_app_l in Hd2 by (rewrite length_alter; lia).
      rewrite list_lookup_alter_ne in Hd2 by done. congruence. }
    match goal with |- context [layers h4 ++ [?r]] => set (d' := r) end.
    exists b, db, d0, (new ++ [set_stale true pd]), d'. simpl.
    rewrite Hl4, Hl3, Hlayers2, app_nil_r.
    repeat split; try done; try (simpl in *; lia).
    + by rewrite <- !app_assoc.
    + rewrite !length_app, length_alter. simpl. lia.
    + rewrite length_app. simpl in *. lia.
    + apply Forall_app. split; [done |]. constructor; [| constructor].
      simpl. by rewrite Hpa.
Qed.

End FlattenLayers.

(** ** Flatten and the stale flag *)

Section FlattenStale.
Context `{BF : BloomFilter} `{DL : DiskLayer} `{SC : SlimCodec} `{TU : Tuning}.

Lemma flatten_bottom (fuel : nat) (l : loc) (d : diffLayer) (h : heap) :
  layers h !! l = Some d -> (forall p, parent d <> SnapDiff p) ->
  flatten (S fuel) l h = (Ret l, h).
Proof.
  intros Hd Hp. simpl. rewrite Hd.
  destruct (parent d) as [| |p] eqn:E; try done. by destruct (Hp p).
Qed.



(** What a returned flatten over a diff parent did to the layers that
    were there: the bottom layer of the chain, which is not the layer
    flatten was called on, went from live to stale, and nothing else
    changed. *)
Lemma flatten_old_layers (fuel : nat) (dl l' p : loc) (d : diffLayer) (h h' : heap) :
  layers h !! dl = Some d -> parent d = SnapDiff p ->
  flatten fuel dl h = (Ret l', h') ->
  exists c b db,
    chain h p c /\ (length c < fuel)%nat /\ last c = Some b /\ b <> dl /\
    layers h !! b = Some db /\ stale db = false /\
    (forall q, parent db <> SnapDiff q) /\
    (length (layers h) <= l')%nat /\
    (forall x dx, layers h !! x = Some dx ->
       layers h' !! x = Some (if decide (x = b) then set_stale true dx else dx)) /\
    (forall x dx, (length (layers h) <= x)%nat -> x <> l' ->
       layers h' !! x = Some dx -> stale dx = true) /\
    (exists d', layers h' !! l' = Some d' /\
       origin d' = origin db /\ parent d' = parent db /\
       root d' = root d /\ stale d' = false /\
       accountData d' = accountData db /\ storageData d' = storageData db /\
       accountList d' = None /\ storageList d' = ∅ /\ diffed d' = diffed d).
Proof.
  intros Hd Hp Hf.
  destruct (flatten_Ret_layers _ _ _ _ _ Hf) as (c & Hc & Hlen & Hcase).
  inversion Hc as [? d1 Hd1 Hp1 | ? d1 p1 c1 Hd1 Hp1 Hc1]; subst.
  { rewrite Hd in Hd1. injection Hd1 as <-. by destruct (Hp1 p). }
  rewrite Hd in Hd1. injection Hd1 as <-. rewrite Hp in Hp1. injection Hp1 as <-.
  destruct Hcase as [(Habs & _) | Hdeep].
  { destruct (chain_head _ _ _ Hc1) as [? ->]. discriminate Habs. }
  destruct Hdeep as (b & db & d2 & new & d' & Hlen2 & Hlast & Hb & Hsb & Hd2
                     & Hl' & -> & Hnew & Hall & Hfields).
  destruct (chain_last_bottom _ _ _ Hc1) as (b1 & db1 & Hlast1 & Hb1 & Hnp1).
  destruct (chain_head _ _ _ Hc1) as [c1' ->].
  rewrite last_cons_cons in Hlast. rewrite Hlast in Hlast1. injection Hlast1 as <-.
  rewrite Hb in Hb1. injection Hb1 as <-.
  rewrite Hd in Hd2. injection Hd2 as <-.
  exists (p :: c1'), b, db. simpl in Hlen.
  split; [done |]. split; [simpl; lia |]. split; [done |].
  split; [intros ->; rewrite Hd in Hb; injection Hb as ->; exact (Hnp1 _ Hp) |].
  split; [done |]. split; [done |]. split; [done |]. split; [lia |].
  split; [| split].
  - intros x dx Hx. rewrite Hl'.
    apply lookup_lt_Some in Hx as Hlt.
    rewrite lookup_app_l by (rewrite length_alter; lia).
    rewrite list_lookup_alter, Hb. case_decide as Hxb.
    + subst x. rewrite decide_True by done. simpl. congruence.
    + rewrite decide_False by (intros ->; done). done.
  - intros x dx Hge Hne Hx. rewrite Hl' in Hx.
    rewrite lookup_app_r in Hx by (rewrite length_alter; lia).
    rewrite length_alter in Hx.
    destruct (decide (x - length (layers h) < length new)%nat) as [Hlt | Hnlt].
    + rewrite lookup_app_l in Hx by done.
      rewrite Forall_forall in Hall.
      apply list_elem_of_lookup_2 in Hx. by destruct (Hall _ Hx).
    + rewrite lookup_app_r in Hx by lia.
      destruct (x - length (layers h) - length new)%nat eqn:E; [lia |].
      simpl in Hx. by destruct n.
  - exists d'. split; [| done]. rewrite Hl', app_assoc.
    rewrite lookup_app_r by (rewrite length_app, length_alter; lia).
    by rewrite length_app, length_alter, Nat.sub_diag.
Qed.

End FlattenStale.

Section StaleClaims.
Context `{BF : BloomFilter} `{DL : DiskLayer} `{SC : SlimCodec} `{TU : Tuning}.


(** C2, for the accessors that check the flag. On a stale layer the
    point reads [AccountRLP], [Account] and [Storage] and the two
    internal walks answer [ErrSnapshotStale] with no value. After a
    returned flatten over a diff parent [P] this holds for every layer
    that was merged into: the bottom layer of the chain of [P], however
    long the chain, and every layer the flatten allocated except the one
    it returned. The other accessors, [Root], [Parent], [Accounts],
    [AccountList] and [StorageList], answer the same whatever the flag
    is. *)
Theorem stale_point_reads_fail :
  (forall (h : heap) (dl : loc) (d : diffLayer),
     layers h !! dl = Some d -> stale d = true ->
     forall (fuel : nat) (hash accountHash storageHash : Hash),
       AccountRLP fuel h dl hash = Ret (None, Some ErrSnapshotStale) /\
       Account fuel h dl hash = Ret (None, Some ErrSnapshotStale) /\
       Storage fuel h dl accountHash storageHash
         = Ret (None, Some ErrSnapshotStale) /\
       accountRLP (S fuel) h dl hash = Ret (None, Some ErrSnapshotStale) /\
       storage (S fuel) h dl accountHash storageHash
         = Ret (None, Some ErrSnapshotStale)) /\
  (forall (fuel : nat) (dl l' P : loc) (d : diffLayer) (h h' : heap),
     layers h !! dl = Some d -> parent d = SnapDiff P ->
     flatten fuel dl h = (Ret l', h') ->
     forall x,
       ((exists c, chain h P c /\ last c = Some x) \/
        ((length (layers h) <= x)%nat /\ x <> l' /\ is_Some (layers h' !! x))) ->
       forall (fuel' : nat) (hash accountHash storageHash : Hash),
         AccountRLP fuel' h' x hash = Ret (None, Some ErrSnapshotStale) /\
         Account fuel' h' x hash = Ret (None, Some ErrSnapshotStale) /\
         Storage fuel' h' x accountHash storageHash
           = Ret (None, Some ErrSnapshotStale)) /\
  (forall (h : heap) (dl : loc) (b : bool) (accountHash : Hash),
     Root dl (update_layer dl (set_stale b) h) = Root dl h /\
     Parent dl (update_layer dl (set_stale b) h) = Parent dl h /\
     Accounts dl (update_layer dl (set_stale b) h) = Accounts dl h /\
     (AccountList dl (update_layer dl (set_stale b) h)).1 = (AccountList dl h).1 /\
     (StorageList dl accountHash (update_layer dl (set_stale b) h)).1
       = (StorageList dl accountHash h).1).
Proof.
  split; [exact stale_reads_fail |]. split.
  - intros fuel dl l' P d h h' Hd Hp Hf x Hx fuel' hash accountHash storageHash.
    destruct (flatten_old_layers _ _ _ _ _ _ _ Hd Hp Hf)
      as (c & b & db & Hc & Hlen & Hlast & Hbne & Hb & Hsb & Hnp & Hfresh & Hold
          & Hnew & _).
    assert (exists dx, layers h' !! x = Some dx /\ stale dx = true) as (dx & Hdx & Hs).
    { destruct Hx as [(c0 & Hc0 & Hlast0) | (Hge & Hne & [dx Hdx])].
      - rewrite (chain_functional _ _ _ _ Hc0 Hc), Hlast in Hlast0.
        injection Hlast0 as <-.
        eexists. split; [by apply Hold |]. rewrite decide_True by done. reflexivity.
      - exists dx. split; [done |]. exact (Hnew x dx Hge Hne Hdx). }
    destruct (stale_reads_fail h' x dx Hdx Hs fuel' hash accountHash storageHash)
      as (H1 & H2 & H3 & _).
    done.
  - intros h dl b accountHash.
    unfold Root, Parent, Accounts, AccountList, StorageList.
    rewrite lookup_update_layer_eq.
    destruct (layers h !! dl) as [d |]; simpl; [| done].
    repeat split.
    + by destruct (accountList d).
    + change (slotmap_at (update_layer dl (set_stale b) h)) with (slotmap_at h).
      destruct (slotmap_at h (storageData d) !! accountHash); [| done].
      by destruct (storageList d !! accountHash).
Qed.

End StaleClaims.


(** C10 as worded fails on a chain of three layers. In
    [three_layer_heap] the parent of layer 2 is layer 1; the flatten of
    layer 2 returns layer 4, leaves the flag of the parent (layer 1)
    unset, and sets the flag of layer 0 and of the intermediate merged
    layer 3. *)
Lemma flatten_stale_only_parent_counterexample :
  Parent 2%nat three_layer_heap = Ret (SnapDiff 1%nat) /\
  (flatten 3 2%nat three_layer_heap).1 = Ret 4%nat /\
  layer_stale three_layer_heap 0%nat = Some false /\
  layer_stale (flatten 3 2%nat three_layer_heap).2 1%nat = Some false /\
  layer_stale (flatten 3 2%nat three_layer_heap).2 0%nat = Some true /\
  layer_stale (flatten 3 2%nat three_layer_heap).2 3%nat = Some true.
Proof. vm_compute. repeat split; reflexivity. Qed.

(** In [three_layer_heap] the parent of layer 2 is layer 1, which sits
    on layer 0. After the flatten of layer 2, reads on layer 0, the
    bottom layer of the chain, fail. *)
Lemma stale_point_reads_fail_witness :
  AccountRLP 3 (flatten 3 2%nat three_layer_heap).2 0%nat (hash_of x0a)
    = Ret (None, Some ErrSnapshotStale) /\
  Account 3 (flatten 3 2%nat three_layer_heap).2 0%nat (hash_of x0a)
    = Ret (None, Some ErrSnapshotStale) /\
  Storage 3 (flatten 3 2%nat three_layer_heap).2 0%nat (hash_of x0a) (hash_of x01)
    = Ret (None, Some ErrSnapshotStale).
Proof.
  assert (Hd : layers three_layer_heap !! 2%nat = Some (layer_at three_layer_heap 2%nat))
    by (apply layer_at_lookup; vm_compute; reflexivity).
  assert (Hp : parent (layer_at three_layer_heap 2%nat) = SnapDiff 1%nat)
    by (vm_compute; reflexivity).
  assert (Hf : flatten 3 2%nat three_layer_heap
               = (Ret 4%nat, (flatten 3 2%nat three_layer_heap).2))
    by (apply outcome_pair_eta; vm_compute; reflexivity).
  assert (Hd1 : layers three_layer_heap !! 1%nat = Some (layer_at three_layer_heap 1%nat))
    by (apply layer_at_lookup; vm_compute; reflexivity).
  assert (Hp1 : parent (layer_at three_layer_heap 1%nat) = SnapDiff 0%nat)
    by (vm_compute; reflexivity).
  assert (Hd0 : layers three_layer_heap !! 0%nat = Some (layer_at three_layer_heap 0%nat))
    by (apply layer_at_lookup; vm_compute; reflexivity).
  assert (Hp0 : parent (layer_at three_layer_heap 0%nat) = SnapDisk disk0)
    by (vm_compute; reflexivity).
  assert (Hc : chain three_layer_heap 1%nat [1%nat; 0%nat]).
  { eapply chain_step; [exact Hd1 | exact Hp1 |].
    eapply chain_bottom; [exact Hd0 |]. intros q Hq. rewrite Hp0 in Hq. discriminate Hq. }
  refine (proj1 (proj2 stale_point_reads_fail) 3%nat 2%nat 4%nat 1%nat _ _ _ Hd Hp Hf
            0%nat _ 3%nat (hash_of x0a) (hash_of x0a) (hash_of x01)).
  left. exists [1%nat; 0%nat]. split; [exact Hc | reflexivity].
Defined.

(** C2 as worded fails for the accessors without a stale check: on the
    stale layer 0 of [flattened_heap], [AccountList], [StorageList] and
    [Root] return values, and so does [Accounts], which has an error
    result: it returns the decoded accounts and no error. *)
Lemma stale_accessors_counterexample :
  layer_stale flattened_heap 0%nat = Some true /\
  (AccountList 0%nat flattened_heap).1
    = Ret (Some [hash_of x0a; hash_of x0c; hash_of x0d]) /\
  (StorageList 0%nat (hash_of x0a) flattened_heap).1
    = Ret (Some [hash_of x01; hash_of x02]) /\
  Root 0%nat flattened_heap = Ret (hash_of x01) /\
  match Accounts 0%nat flattened_heap with
  | Ret (Some accounts, None) => accounts !! hash_of x0a
  | _ => None
  end = Some [x03].
Proof. vm_compute. repeat split; reflexivity. Qed.

(** ** Flatten: what happens to the maps *)

Arguments blobmap_at : simpl never.
Arguments slotmap_at : simpl never.

Section FlattenMaps.
Context `{BF : BloomFilter} `{DL : DiskLayer} `{SC : SlimCodec} `{TU : Tuning}.

Lemma blobmap_at_nil (h : heap) : blobmap_at h None = ∅.
Proof. reflexivity. Qed.

Lemma blobmap_at_set_blobmap (h : heap) (l i : nat) (m : gmap Hash blob) :
  blobmap_at (set_blobmap l m h) (Some i)
  = if decide (i = l) then m else blobmap_at h (Some i).
Proof.
  unfold blobmap_at, set_blobmap; simpl. case_decide as E.
  - subst. by rewrite lookup_insert_eq.
  - by rewrite lookup_insert_ne.
Qed.

Lemma slotmap_at_set_slotmap (h : heap) (l s : nat) (m : gmap Hash (option nat)) :
  slotmap_at (set_slotmap l m h) (Some s)
  = if decide (s = l) then m else slotmap_at h (Some s).
Proof.
  unfold slotmap_at, set_slotmap; simpl. case_decide as E.
  - subst. by rewrite lookup_insert_eq.
  - by rewrite lookup_insert_ne.
Qed.

(** [maps.Copy] into a stored map: the destination becomes the union in
    which the source wins; nothing else changes. *)
Lemma maps_Copy_spec (l : nat) (src : option nat) (h : heap) :
  exists h',
    maps_Copy (Some l) src h = (Ret tt, h') /\
    layers h' = layers h /\ slotmaps h' = slotmaps h /\
    forall i, blobmap_at h' (Some i)
              = if decide (i = l) then blobmap_at h src ∪ blobmap_at h (Some l)
                else blobmap_at h (Some i).
Proof.
  unfold maps_Copy. case_decide as E.
  - exists h. repeat split; try done. intros i. case_decide; [| done].
    subst. rewrite E. by rewrite (left_id_L ∅ (∪)).
  - eexists. repeat split; try done. intros i. apply blobmap_at_set_blobmap.
Qed.

(** The loop over the child's storage map, for a parent map [S] without
    nil slot maps and with one slot map per account, and a child map [C]
    without nil slot maps whose slot maps are not the parent's: the
    parent map becomes [S ∪ C] (the parent's own entries stay), every
    slot map of the parent receives the child's slots of the same
    account, and no other map object changes. *)
Lemma flatten_storage_spec (sp : nat) (cs : option nat) (h : heap) :
  let S := slotmap_at h (Some sp) in
  let C := slotmap_at h cs in
  (forall a r, S !! a = Some r -> is_Some r) ->
  (forall a1 a2 i, S !! a1 = Some (Some i) -> S !! a2 = Some (Some i) -> a1 = a2) ->
  (forall a r, C !! a = Some r -> is_Some r) ->
  (forall a j, C !! a = Some (Some j) -> forall a', S !! a' <> Some (Some j)) ->
  exists h',
    flatten_storage (Some sp) cs h = (Ret tt, h') /\
    layers h' = layers h /\
    slotmap_at h' (Some sp) = S ∪ C /\
    (forall s, s <> sp -> slotmap_at h' (Some s) = slotmap_at h (Some s)) /\
    (forall a i, S !! a = Some (Some i) ->
        blobmap_at h' (Some i)
        = blobmap_at h (default None (C !! a)) ∪ blobmap_at h (Some i)) /\
    (forall i, (forall a, S !! a <> Some (Some i)) ->
        blobmap_at h' (Some i) = blobmap_at h (Some i)).
Proof.
  intros S C HSnil HSinj. unfold flatten_storage. fold C. generalize C. clear C.
  apply (map_fold_weak_ind (fun st m =>
    (forall a r, m !! a = Some r -> is_Some r) ->
    (forall a j, m !! a = Some (Some j) -> forall a', S !! a' <> Some (Some j)) ->
    exists h',
      st = (Ret tt, h') /\
      layers h' = layers h /\
      slotmap_at h' (Some sp) = S ∪ m /\
      (forall s, s <> sp -> slotmap_at h' (Some s) = slotmap_at h (Some s)) /\
      (forall a i, S !! a = Some (Some i) ->
          blobmap_at h' (Some i)
          = blobmap_at h (default None (m !! a)) ∪ blobmap_at h (Some i)) /\
      (forall i, (forall a, S !! a <> Some (Some i)) ->
          blobmap_at h' (Some i) = blobmap_at h (Some i)))).
  - intros _ _. exists h. repeat split; try done.
    + by rewrite (right_id_L ∅ (∪)).
    + intros a i _. rewrite lookup_empty. simpl.
      by rewrite blobmap_at_nil, (left_id_L ∅ (∪)).
  - intros a x m st Hma IH Hnil Hdisj.
    destruct IH as (hk & -> & Hlay & Hslot & Hother & Hblob & Hframe).
    { intros a0 r Hr. apply (Hnil a0). rewrite lookup_insert_ne; [done |].
      intros ->. congruence. }
    { intros a0 j Hj. apply (Hdisj a0). rewrite lookup_insert_ne; [done |].
      intros ->. congruence. }
    destruct (Hnil a x (lookup_insert_eq _ _ _)) as [j ->].
    pose proof (Hdisj a j (lookup_insert_eq _ _ _)) as Hj.
    unfold flatten_storage_step. rewrite Hslot. rewrite lookup_union_l by done.
    destruct (S !! a) as [r |] eqn:HSa.
    + (* the parent has a slot map for the account: merge *)
      destruct (HSnil a r HSa) as [i ->].
      destruct (maps_Copy_spec i (Some j) hk) as (h' & Hcopy & Hl' & Hs' & Hb').
      exists h'. split; [exact Hcopy |]. split; [congruence |].
      assert (Hsm : forall s, slotmap_at h' (Some s) = slotmap_at hk (Some s)).
      { intros s. unfold slotmap_at. by rewrite Hs'. }
      split; [| split; [| split]].
      * rewrite Hsm, Hslot. apply map_eq. intros a0.
        rewrite !lookup_union. destruct (decide (a0 = a)) as [-> | Hne].
        -- rewrite HSa, Hma. by rewrite lookup_insert_eq.
        -- by rewrite lookup_insert_ne.
      * intros s Hs. rewrite Hsm. by apply Hother.
      * intros a0 i0 Ha0. rewrite Hb'. case_decide as Hi.
        -- subst i0. assert (a0 = a) as -> by (eapply HSinj; eauto).
           rewrite lookup_insert_eq. simpl.
           rewrite (Hframe j Hj). rewrite (Hblob a i HSa), Hma. simpl.
           by rewrite blobmap_at_nil, (left_id_L ∅ (∪)).
        -- rewrite (Hblob a0 i0 Ha0).
           rewrite lookup_insert_ne; [done |]. intros ->. congruence.
      * intros i0 Hi0. rewrite Hb'. case_decide as Hi.
        -- subst i0. by destruct (Hi0 a).
        -- by apply Hframe.
    + (* the parent has none: the child's slot map moves over *)
      eexists. split; [reflexivity |]. split; [exact Hlay |].
      split; [| split; [| split]].
      * rewrite slotmap_at_set_slotmap, decide_True by done.
        apply map_eq. intros a0.
        destruct (decide (a0 = a)) as [-> | Hne].
        -- rewrite lookup_insert_eq, lookup_union, HSa, lookup_insert_eq. done.
        -- rewrite lookup_insert_ne by done. rewrite !lookup_union.
           by rewrite lookup_insert_ne.
      * intros s Hs. rewrite slotmap_at_set_slotmap, decide_False by done.
        by apply Hother.
      * intros a0 i0 Ha0. change (blobmap_at (set_slotmap _ _ hk)) with (blobmap_at hk).
        rewrite (Hblob a0 i0 Ha0).
        rewrite lookup_insert_ne; [done |]. intros ->. congruence.
      * intros i0 Hi0. change (blobmap_at (set_slotmap _ _ hk)) with (blobmap_at hk).
        by apply Hframe.
Qed.

Lemma slotmap_at_same_slotmaps (h h' : heap) (s : option nat) :
  slotmaps h' = slotmaps h -> slotmap_at h' s = slotmap_at h s.
Proof. intros E. unfold slotmap_at. by rewrite E. Qed.

Lemma lookup_union_Some_cases {V : Type} (m1 m2 : gmap Hash V) (k : Hash) (v : V) :
  (m1 ∪ m2) !! k = Some v ->
  m1 !! k = Some v \/ (m1 !! k = None /\ m2 !! k = Some v).
Proof. apply lookup_union_Some_raw. Qed.

(** One merge of [flatten]: the child's maps [(ca, cs)] into the
    parent's maps [(pa, ps)], both well formed and without a common map
    object. Both steps return; afterwards the parent's maps answer every
    key as the child's maps did, and as the parent's did where the child
    had no entry; they are well formed, made of objects that belonged to
    one of the two, and no other map object changed. *)
Lemma flatten_merge_spec (h : heap) (pa ps ca cs : option nat) :
  maps_wf h pa ps -> maps_wf h ca cs ->
  (forall i, owns_ref h ca cs i -> ~ owns_ref h pa ps i) ->
  exists h3 h4,
    maps_Copy pa ca h = (Ret tt, h3) /\
    flatten_storage ps cs h3 = (Ret tt, h4) /\
    layers h4 = layers h /\
    (forall k, local_account h4 pa k
               = match local_account h ca k with
                 | Some v => Some v
                 | None => local_account h pa k
                 end) /\
    (forall a s, local_slot h4 ps a s
                 = match local_slot h cs a s with
                   | Some v => Some v
                   | None => local_slot h ps a s
                   end) /\
    maps_wf h4 pa ps /\
    (forall i, owns_ref h4 pa ps i -> owns_ref h pa ps i \/ owns_ref h ca cs i) /\
    (forall i, ~ owns_ref h pa ps i -> blobmap_at h4 (Some i) = blobmap_at h (Some i)) /\
    (forall s, Some s <> ps -> slotmap_at h4 (Some s) = slotmap_at h (Some s)).
Proof.
  intros [(ap & -> & Hap) [sp ->] HSnil HSinj] [(ac & -> & Hac) [sc ->] HCnil HCinj] Hdisj.
  destruct (maps_Copy_spec ap (Some ac) h) as (h3 & Hcopy & Hl3 & Hs3 & Hb3).
  pose proof (slotmap_at_same_slotmaps h h3 (Some sp) Hs3) as HS3.
  pose proof (slotmap_at_same_slotmaps h h3 (Some sc) Hs3) as HC3.
  set (S := slotmap_at h (Some sp)) in *. set (C := slotmap_at h (Some sc)) in *.
  assert (HCS : forall a j, C !! a = Some (Some j) -> forall a', S !! a' <> Some (Some j)).
  { intros a j Hj a' Hj'. apply (Hdisj j); [right; by exists a | right; by exists a']. }
  assert (Hjap : forall a j, C !! a = Some (Some j) -> j <> ap).
  { intros a j Hj ->. apply (Hdisj ap); [right; by exists a | by left]. }
  assert (Hiap : forall a i, S !! a = Some (Some i) -> i <> ap).
  { intros a i Hi ->. apply Hap. by exists a. }
  destruct (flatten_storage_spec sp (Some sc) h3) as (h4 & Hfs & Hl4 & Hslot & Hother & Hblob & Hframe).
  { rewrite HS3. exact HSnil. }
  { rewrite HS3. exact HSinj. }
  { rewrite HC3. exact HCnil. }
  { rewrite HS3, HC3. exact HCS. }
  rewrite HS3 in Hslot, Hblob, Hframe. rewrite HC3 in Hslot, Hblob.
  assert (Hb3' : forall i, i <> ap -> blobmap_at h3 (Some i) = blobmap_at h (Some i)).
  { intros i Hi. rewrite Hb3. by rewrite decide_False. }
  exists h3, h4. split; [exact Hcopy |]. split; [exact Hfs |]. split; [congruence |].
  split; [| split; [| split; [| split; [| split]]]].
  - (* accounts *)
    intros k. unfold local_account.
    rewrite (Hframe ap) by (intros a Ha; by apply Hap; exists a).
    rewrite Hb3, decide_True by done. rewrite lookup_union.
    by destruct (blobmap_at h (Some ac) !! k), (blobmap_at h (Some ap) !! k).
  - (* slots *)
    intros a s. unfold local_slot. rewrite Hslot, lookup_union. fold S C.
    destruct (S !! a) as [r |] eqn:HSa.
    + destruct (HSnil a r HSa) as [i ->].
      assert ((Some (Some i) ∪ C !! a) = Some (Some i)) as -> by (by destruct (C !! a)).
      rewrite (Hblob a i HSa), lookup_union.
      rewrite (Hb3' i (Hiap a i HSa)).
      destruct (C !! a) as [r |] eqn:HCa; simpl.
      * destruct (HCnil a r HCa) as [j ->].
        rewrite (Hb3' j (Hjap a j HCa)).
        by destruct (blobmap_at h (Some j) !! s), (blobmap_at h (Some i) !! s).
      * rewrite blobmap_at_nil, lookup_empty.
        by destruct (blobmap_at h (Some i) !! s).
    + rewrite (left_id_L None (∪)).
      destruct (C !! a) as [r |] eqn:HCa; [| done].
      destruct (HCnil a r HCa) as [j ->].
      rewrite (Hframe j (HCS a j HCa)), (Hb3' j (Hjap a j HCa)).
      by destruct (blobmap_at h (Some j) !! s).
  - (* well-formedness *)
    split.
    + exists ap. split; [done |]. intros [a Ha]. rewrite Hslot in Ha.
      apply lookup_union_Some_cases in Ha as [Ha | [_ Ha]].
      * by apply (Hiap a ap Ha).
      * by apply (Hjap a ap Ha).
    + by exists sp.
    + intros a r Ha. rewrite Hslot in Ha.
      apply lookup_union_Some_cases in Ha as [Ha | [_ Ha]]; eauto.
    + intros a1 a2 i H1 H2. rewrite Hslot in H1, H2.
      apply lookup_union_Some_cases in H1 as [H1 | [_ H1]];
        apply lookup_union_Some_cases in H2 as [H2 | [_ H2]].
      * eauto.
      * by destruct (HCS a2 i H2 a1).
      * by destruct (HCS a1 i H1 a2).
      * eauto.
  - (* ownership *)
    intros i [Hi | [a Ha]]; [left; by left |].
    rewrite Hslot in Ha.
    apply lookup_union_Some_cases in Ha as [Ha | [_ Ha]].
    + left. right. by exists a.
    + right. right. by exists a.
  - (* frame on blob maps *)
    intros i Hi.
    rewrite Hframe by (intros a Ha; apply Hi; right; by exists a).
    apply Hb3'. intros ->. apply Hi. by left.
  - (* frame on storage maps *)
    intros s Hs. rewrite Hother by congruence.
    by apply slotmap_at_same_slotmaps.
Qed.

End FlattenMaps.

Section FlattenChain.
Context `{BF : BloomFilter} `{DL : DiskLayer} `{SC : SlimCodec} `{TU : Tuning}.

Lemma flatten_step (fuel : nat) (l p par : nat) (d pd d2 : diffLayer)
    (h h1 h3 h4 : heap) :
  layers h !! l = Some d -> parent d = SnapDiff p ->
  flatten fuel p h = (Ret par, h1) ->
  layers h1 !! par = Some pd -> stale pd = false ->
  layers (update_layer par (set_stale true) h1) !! l = Some d2 ->
  maps_Copy (accountData pd) (accountData d2)
    (update_layer par (set_stale true) h1) = (Ret tt, h3) ->
  flatten_storage (storageData pd) (storageData d2) h3 = (Ret tt, h4) ->
  flatten (S fuel) l h
  = (Ret (length (layers h4)),
     mkHeap (layers h4 ++ [merged_layer pd d2]) (blobmaps h4) (slotmaps h4)).
Proof.
  intros Hd Hp Hrec Hpd Hs Hd2 Hcopy Hfs.
  cbn [flatten]. rewrite Hd, Hp, Hrec, Hpd, Hs. cbv zeta.
  rewrite Hd2, Hcopy, Hfs. reflexivity.
Qed.

Lemma layer_at_Some (h : heap) (l : nat) (d : diffLayer) :
  layers h !! l = Some d -> layer_at h l = d.
Proof. intros E. unfold layer_at. by rewrite E. Qed.

Lemma inner_ref_same (h h' : heap) (sto : option nat) (i : nat) :
  slotmap_at h' sto = slotmap_at h sto -> inner_ref h' sto i <-> inner_ref h sto i.
Proof. intros E. unfold inner_ref. by rewrite E. Qed.

Lemma owns_ref_same (h h' : heap) (acc sto : option nat) (i : nat) :
  slotmap_at h' sto = slotmap_at h sto ->
  owns_ref h' acc sto i <-> owns_ref h acc sto i.
Proof. intros E. unfold owns_ref. by rewrite (inner_ref_same h h' sto i E). Qed.

Lemma maps_wf_same (h h' : heap) (acc sto : option nat) :
  slotmap_at h' sto = slotmap_at h sto -> maps_wf h acc sto -> maps_wf h' acc sto.
Proof.
  intros E [(a & Ha & Hna) Hs Hnil Hinj]. split.
  - exists a. split; [done |]. by rewrite (inner_ref_same h h' sto a E).
  - done.
  - rewrite E. exact Hnil.
  - rewrite E. exact Hinj.
Qed.

Lemma local_slot_same (h h' : heap) (sto : option nat) (a s : Hash) :
  slotmap_at h' sto = slotmap_at h sto ->
  (forall i, inner_ref h sto i -> blobmap_at h' (Some i) = blobmap_at h (Some i)) ->
  local_slot h' sto a s = local_slot h sto a s.
Proof.
  intros E Hb. unfold local_slot. rewrite E.
  destruct (slotmap_at h sto !! a) as [[i |] |] eqn:Ha; try done.
  rewrite Hb; [done |]. by exists a.
Qed.

(** Flatten over a chain whose layers are well formed and pairwise
    apart and whose bottom layer is live: with fuel for the chain it
    returns a live layer on the parent of the bottom layer, whose maps
    are the maps of the bottom layer and answer every key as the chain
    did, the upper layer first. The layers with a diff parent keep their
    records, and no map object outside the chain changes. *)
Lemma flatten_chain_spec (h : heap) (dl : nat) (c : list nat) :
  chain h dl c -> NoDup c -> chain_sep h c ->
  (forall b, last c = Some b -> stale (layer_at h b) = false) ->
  forall fuel, (length c <= fuel)%nat ->
  exists l' h' d',
    flatten fuel dl h = (Ret l', h') /\
    layers h' !! l' = Some d' /\ stale d' = false /\
    (forall q, parent d' <> SnapDiff q) /\
    (forall x dx, layers h !! x = Some dx -> (exists q, parent dx = SnapDiff q) ->
                  layers h' !! x = Some dx) /\
    (forall b, last c = Some b ->
               accountData d' = accountData (layer_at h b) /\
               storageData d' = storageData (layer_at h b)) /\
    (forall k, local_account h' (accountData d') k = chain_account h c k) /\
    (forall a s, local_slot h' (storageData d') a s = chain_slot h c a s) /\
    layer_wf h' d' /\
    (forall i, owns_blob h' d' i -> exists l, l ∈ c /\ owns_blob h (layer_at h l) i) /\
    (forall i, (forall l, l ∈ c -> ~ owns_blob h (layer_at h l) i) ->
               blobmap_at h' (Some i) = blobmap_at h (Some i)) /\
    (forall s, (forall l, l ∈ c -> storageData (layer_at h l) <> Some s) ->
               slotmap_at h' (Some s) = slotmap_at h (Some s)).
Proof.
  induction 1 as [l d Hd Hp | l d p c Hd Hp Hc IH];
    intros Hnd [Hwf Hap] Hlive fuel Hfuel.
  - (* the bottom layer: nothing to merge *)
    destruct fuel as [| fuel]; [simpl in Hfuel; lia |].
    pose proof (layer_at_Some _ _ _ Hd) as Hat.
    exists l, h, d. split; [by apply (flatten_bottom fuel l d) |].
    split; [done |]. split; [rewrite <- Hat; by apply Hlive |].
    split; [done |]. split; [done |].
    split; [intros b [= <-]; by rewrite Hat |].
    split; [intros k; simpl; rewrite Hat;
            by destruct (local_account h (accountData d) k) |].
    split; [intros a s; simpl; rewrite Hat;
            by destruct (local_slot h (storageData d) a s) |].
    split; [rewrite <- Hat; apply Hwf; by left |].
    split; [intros i Hi; exists l; rewrite Hat; split; [by left | done] |].
    done.
  - (* a layer on a diff parent: flatten the parent, then merge *)
    destruct fuel as [| fuel]; [simpl in Hfuel; lia |]. simpl in Hfuel.
    apply NoDup_cons in Hnd as [Hlc Hndc].
    destruct (chain_head _ _ _ Hc) as [c' Ec].
    destruct (IH Hndc) with (fuel := fuel)
      as (par & h1 & pd & Hrec & Hpd & Hspd & Hnpd & Hkeep & Hrefs & Hacc & Hslot
          & Hwfp & Hown & Hfb & Hfs); [| | lia |].
    { split.
      - intros x Hx. apply Hwf. by right.
      - intros x y Hx Hy. apply Hap; by right. }
    { intros b Hb. apply Hlive. subst c. by rewrite last_cons_cons. }
    pose proof (layer_at_Some _ _ _ Hd) as Hat.
    assert (Hlpar : l <> par).
    { intros ->. rewrite (Hkeep _ _ Hd (ex_intro _ p Hp)) in Hpd.
      injection Hpd as ->. by destruct (Hnpd p). }
    set (h2 := update_layer par (set_stale true) h1).
    assert (Hd2 : layers h2 !! l = Some d).
    { unfold h2. rewrite lookup_update_layer_ne by done. apply Hkeep; eauto. }
    (* the child's maps are as they were *)
    assert (Hcs : slotmap_at h2 (storageData d) = slotmap_at h (storageData d)).
    { change (slotmap_at h2) with (slotmap_at h1).
      destruct (Hwf l ltac:(by left)) as [_ [sc Hsc] _ _]. rewrite Hat in Hsc.
      rewrite Hsc. apply Hfs. intros x Hx Hsx.
      destruct (Hap l x ltac:(by left) ltac:(by right) ltac:(by intros ->))
        as [Hne _].
      rewrite Hat in Hne. congruence. }
    assert (Hcb : forall i, owns_blob h d i -> blobmap_at h2 (Some i) = blobmap_at h (Some i)).
    { intros i Hi. change (blobmap_at h2) with (blobmap_at h1). apply Hfb.
      intros x Hx Hox.
      destruct (Hap l x ltac:(by left) ltac:(by right) ltac:(by intros ->))
        as [_ Hdis].
      rewrite Hat in Hdis. by apply (Hdis i). }
    destruct (flatten_merge_spec h2 (accountData pd) (storageData pd)
                (accountData d) (storageData d))
      as (h3 & h4 & Hcopy & Hfst & Hl4 & Hacc4 & Hslot4 & Hwf4 & Hown4 & Hfb4 & Hfs4).
    { apply (maps_wf_same h1 h2 _ _ eq_refl). exact Hwfp. }
    { apply (maps_wf_same h h2 _ _ Hcs). rewrite <- Hat. apply Hwf. by left. }
    { intros i Hi Hpi. apply (owns_ref_same h h2 _ _ i Hcs) in Hi.
      destruct (Hown i Hpi) as (x & Hx & Hox).
      destruct (Hap l x ltac:(by left) ltac:(by right) ltac:(by intros ->))
        as [_ Hdis].
      rewrite Hat in Hdis. by apply (Hdis i). }
    pose proof (flatten_step fuel l p par d pd d h h1 h3 h4 Hd Hp Hrec Hpd Hspd Hd2
                  Hcopy Hfst) as Hflat.
    eexists _, _, (merged_layer pd d). split; [exact Hflat |].
    split; [simpl; apply list_lookup_middle; done |].
    split; [done |]. split; [exact Hnpd |].
    split.
    { intros x dx Hx Hq. simpl. rewrite Hl4.
      assert (Hx1 : layers h1 !! x = Some dx) by (by apply Hkeep).
      rewrite lookup_app_l.
      - unfold h2. rewrite lookup_update_layer_ne; [done |].
        intros ->. rewrite Hx1 in Hpd. injection Hpd as ->.
        destruct Hq as [q Hq]. by destruct (Hnpd q).
      - unfold h2, update_layer; simpl. rewrite length_alter.
        by apply lookup_lt_Some in Hx1. }
    split.
    { intros b Hb. simpl. apply Hrefs. subst c. by rewrite last_cons_cons in Hb. }
    split.
    { intros k. simpl. rewrite Hat.
      change (local_account _ (accountData pd) k)
        with (local_account h4 (accountData pd) k).
      rewrite Hacc4.
      change (local_account h2 (accountData pd) k)
        with (local_account h1 (accountData pd) k).
      rewrite Hacc.
      assert (local_account h2 (accountData d) k = local_account h (accountData d) k) as ->.
      { unfold local_account.
        destruct (Hwf l ltac:(by left)) as [(ac & Hac & _) _ _ _]. rewrite Hat in Hac.
        rewrite Hac. rewrite Hcb; [done |]. by left. }
      done. }
    split.
    { intros a s. simpl. rewrite Hat.
      change (local_slot _ (storageData pd) a s)
        with (local_slot h4 (storageData pd) a s).
      rewrite Hslot4.
      change (local_slot h2 (storageData pd) a s)
        with (local_slot h1 (storageData pd) a s).
      rewrite Hslot.
      rewrite (local_slot_same h h2 (storageData d) a s Hcs); [done |].
      intros i Hi. apply Hcb. by right. }
    split; [eapply maps_wf_same; [| exact Hwf4]; reflexivity |].
    split.
    { intros i Hi. change (owns_ref h4 (accountData pd) (storageData pd) i) in Hi.
      destruct (Hown4 i Hi) as [Hpi | Hci].
      - destruct (Hown i Hpi) as (x & Hx & Hox). exists x. split; [by right | done].
      - exists l. split; [by left |]. rewrite Hat.
        by apply (owns_ref_same h h2 _ _ i Hcs). }
    split.
    { intros i Hi. change (blobmap_at h4 (Some i) = blobmap_at h (Some i)).
      rewrite Hfb4.
      - change (blobmap_at h2) with (blobmap_at h1). apply Hfb.
        intros x Hx. apply Hi. by right.
      - intros Hpi. destruct (Hown i Hpi) as (x & Hx & Hox).
        apply (Hi x); [by right | done]. }
    { intros s Hs. change (slotmap_at h4 (Some s) = slotmap_at h (Some s)).
      destruct (chain_last_bottom _ _ _ Hc) as (b & db & Hlast & Hb & _).
      destruct (Hrefs b Hlast) as [_ Hsto].
      rewrite Hfs4.
      - change (slotmap_at h2) with (slotmap_at h1). apply Hfs.
        intros x Hx. apply Hs. by right.
      - rewrite Hsto. intros E. apply (Hs b); [| done].
        right. rewrite last_lookup in Hlast. by eapply list_elem_of_lookup_2. }
Qed.

End FlattenChain.

(** ** Reads along a chain *)

Section ChainReads.
Context `{BF : BloomFilter} `{DL : DiskLayer} `{SC : SlimCodec} `{TU : Tuning}.




End ChainReads.

(** ** Construction: what [newDiffLayer] builds *)

Section Construction.
Context `{BF : BloomFilter} `{DL : DiskLayer} `{SC : SlimCodec} `{TU : Tuning}.

(** Adding the keys of a map to a filter keeps what the filter held and
    makes every key of the map positive. *)
Lemma bloom_accounts_spec (m : gmap Hash blob) (f0 : Filter) :
  (forall x, Filter_ContainsHash f0 x = true ->
             Filter_ContainsHash (bloom_accounts m f0) x = true) /\
  (forall k, is_Some (m !! k) ->
             Filter_ContainsHash (bloom_accounts m f0) (accountBloomHash offsets k) = true).
Proof.
  unfold bloom_accounts.
  apply (map_fold_weak_ind (fun f m =>
    (forall x, Filter_ContainsHash f0 x = true -> Filter_ContainsHash f x = true) /\
    (forall k, is_Some (m !! k) ->
               Filter_ContainsHash f (accountBloomHash offsets k) = true))).
  - split; [done |]. intros k [v Hv]. by rewrite lookup_empty in Hv.
  - intros k v m' f Hk [IH1 IH2]. split.
    + intros x Hx. apply ContainsHash_AddHash_mono. by apply IH1.
    + intros k' Hk'. destruct (decide (k' = k)) as [-> | Hne].
      * apply ContainsHash_AddHash.
      * apply ContainsHash_AddHash_mono. apply IH2.
        by rewrite lookup_insert_ne in Hk'.
Qed.

Lemma bloom_slots_spec (a : Hash) (m : gmap Hash blob) (f0 : Filter) :
  (forall x, Filter_ContainsHash f0 x = true ->
             Filter_ContainsHash (bloom_slots a m f0) x = true) /\
  (forall k, is_Some (m !! k) ->
             Filter_ContainsHash (bloom_slots a m f0) (storageBloomHash offsets a k) = true).
Proof.
  unfold bloom_slots.
  apply (map_fold_weak_ind (fun f m =>
    (forall x, Filter_ContainsHash f0 x = true -> Filter_ContainsHash f x = true) /\
    (forall k, is_Some (m !! k) ->
               Filter_ContainsHash f (storageBloomHash offsets a k) = true))).
  - split; [done |]. intros k [v Hv]. by rewrite lookup_empty in Hv.
  - intros k v m' f Hk [IH1 IH2]. split.
    + intros x Hx. apply ContainsHash_AddHash_mono. by apply IH1.
    + intros k' Hk'. destruct (decide (k' = k)) as [-> | Hne].
      * apply ContainsHash_AddHash.
      * apply ContainsHash_AddHash_mono. apply IH2.
        by rewrite lookup_insert_ne in Hk'.
Qed.

Lemma bloom_storage_spec (h : heap) (s : gmap Hash (option nat)) (f0 : Filter) :
  (forall x, Filter_ContainsHash f0 x = true ->
             Filter_ContainsHash (bloom_storage h s f0) x = true) /\
  (forall a slots k, s !! a = Some slots -> is_Some (blobmap_at h slots !! k) ->
     Filter_ContainsHash (bloom_storage h s f0) (storageBloomHash offsets a k) = true).
Proof.
  unfold bloom_storage.
  apply (map_fold_weak_ind (fun f s =>
    (forall x, Filter_ContainsHash f0 x = true -> Filter_ContainsHash f x = true) /\
    (forall a slots k, s !! a = Some slots -> is_Some (blobmap_at h slots !! k) ->
       Filter_ContainsHash f (storageBloomHash offsets a k) = true))).
  - split; [done |]. intros a slots k Ha. by rewrite lookup_empty in Ha.
  - intros a slots s' f Ha [IH1 IH2].
    destruct (bloom_slots_spec a (blobmap_at h slots) f) as [M1 M2]. split.
    + intros x Hx. apply M1. by apply IH1.
    + intros a' slots' k Ha' Hk. destruct (decide (a' = a)) as [-> | Hne].
      * rewrite lookup_insert_eq in Ha'. injection Ha' as <-. by apply M2.
      * rewrite lookup_insert_ne in Ha' by done. apply M1. by eapply IH2.
Qed.

Lemma wrap64_range (z : Z) : 0 <= wrap64 z < 2 ^ 64.
Proof. unfold wrap64. apply Z.mod_pos_bound. lia. Qed.

Lemma wrap64_small (z : Z) : 0 <= z < 2 ^ 64 -> wrap64 z = z.
Proof. intros. unfold wrap64. by apply Z.mod_small. Qed.

Lemma wrap64_add_l (a b : Z) : wrap64 (wrap64 a + b) = wrap64 (a + b).
Proof. unfold wrap64. apply Z.add_mod_idemp_l. lia. Qed.

Lemma update_layer_set_memory (h : heap) (dl : nat) (d : diffLayer) (n : Z) :
  layers h !! dl = Some d ->
  update_layer dl (add_memory n) h
  = update_layer dl (set_memory (wrap64 (memory d + n))) h.
Proof.
  intros Hd. unfold update_layer. f_equal.
  apply list_alter_ext; [| done]. intros x Hx. rewrite Hd in Hx. injection Hx as <-.
  unfold add_memory. by rewrite wrap64_add_wrap64.
Qed.

Lemma update_layer_set_memory_twice (h : heap) (dl : nat) (a b : Z) :
  update_layer dl (set_memory a) (update_layer dl (set_memory b) h)
  = update_layer dl (set_memory a) h.
Proof.
  unfold update_layer; simpl. f_equal. rewrite list_alter_alter_eq.
  by apply list_alter_ext.
Qed.

Lemma update_layer_id (h : heap) (dl : nat) (d : diffLayer) :
  layers h !! dl = Some d -> update_layer dl (set_memory (memory d)) h = h.
Proof.
  intros Hd. destruct h as [ls bm sm]. unfold update_layer; simpl in *. f_equal.
  apply list_eq. intros i. rewrite list_lookup_alter. case_decide as E; [| done].
  subst i. rewrite Hd. by destruct d.
Qed.

(** The first accounting loop adds the weight of the account delta. *)
Lemma account_memory_spec (dl : nat) (m : gmap Hash blob) (h : heap) (d : diffLayer) :
  layers h !! dl = Some d -> 0 <= memory d < 2 ^ 64 ->
  account_memory dl m h
  = update_layer dl (set_memory (wrap64 (memory d + account_weight m))) h.
Proof.
  intros Hd Hrange. unfold account_memory, account_weight.
  induction m as [| k v m Hk Hfirst IH] using map_first_key_ind.
  - rewrite !map_fold_empty, Z.add_0_r, wrap64_small by done.
    by rewrite update_layer_id.
  - rewrite !map_fold_insert_first_key by done. rewrite IH.
    erewrite update_layer_set_memory
      by (rewrite lookup_update_layer_eq, Hd; reflexivity).
    simpl. rewrite update_layer_set_memory_twice. do 2 f_equal.
    rewrite wrap64_add_l. f_equal. lia.
Qed.

(** The second accounting loop, on a storage delta without nil slot
    maps, adds the weight of every slot map. *)
Lemma storage_memory_spec (dl : nat) (s : gmap Hash (option nat)) (h : heap)
    (d : diffLayer) :
  layers h !! dl = Some d -> 0 <= memory d < 2 ^ 64 ->
  (forall a r, s !! a = Some r -> is_Some r) ->
  storage_memory dl s h
  = (Ret tt, update_layer dl (set_memory (wrap64 (memory d + storage_weight h s))) h).
Proof.
  intros Hd Hrange. unfold storage_memory, storage_weight.
  induction s as [| a r s Ha Hfirst IH] using map_first_key_ind; intros Hnil.
  - rewrite !map_fold_empty, Z.add_0_r, wrap64_small by done.
    by rewrite update_layer_id.
  - rewrite !map_fold_insert_first_key by done. rewrite IH.
    + destruct (Hnil a r (lookup_insert_eq _ _ _)) as [i ->].
      unfold storage_memory_step.
      erewrite account_memory_spec;
        [| rewrite lookup_update_layer_eq, Hd; reflexivity | simpl; apply wrap64_range].
      simpl. rewrite update_layer_set_memory_twice. do 3 f_equal.
      rewrite wrap64_add_l. f_equal.
      change (blobmap_at (update_layer dl _ h)) with (blobmap_at h). lia.
    + intros a' r' Hr'. apply (Hnil a'). rewrite lookup_insert_ne; [done |].
      intros ->. congruence.
Qed.

End Construction.

Section Producer.
Context `{BF : BloomFilter} `{DL : DiskLayer} `{SC : SlimCodec} `{TU : Tuning}.

Lemma update_layer_last (ls : list diffLayer) (d : diffLayer)
    (bm : gmap nat (gmap Hash blob)) (sm : gmap nat (gmap Hash (option nat)))
    (f : diffLayer -> diffLayer) :
  update_layer (length ls) f (mkHeap (ls ++ [d]) bm sm) = mkHeap (ls ++ [f d]) bm sm.
Proof.
  unfold update_layer; simpl. f_equal.
  rewrite <- (Nat.add_0_r (length ls)). by rewrite alter_app_r.
Qed.

(** The producer's storage map: one new slot map per account, holding
    the given slots; nothing that was allocated before changes. *)
Lemma make_storage_spec (s : gmap Hash (gmap Hash blob)) (h h' : heap) (sl : nat) :
  make_storage s h = (sl, h') ->
  layers h' = layers h /\
  (sl ∉ dom (slotmaps h)) /\
  (forall j, j <> sl -> slotmaps h' !! j = slotmaps h !! j) /\
  (dom (blobmaps h) ⊆ dom (blobmaps h')) /\
  (forall i, i ∈ dom (blobmaps h) -> blobmaps h' !! i = blobmaps h !! i) /\
  (forall a, slotmap_at h' (Some sl) !! a = None <-> s !! a = None) /\
  (forall a r, slotmap_at h' (Some sl) !! a = Some r ->
     exists i slots, r = Some i /\ s !! a = Some slots /\
                     (i ∉ dom (blobmaps h)) /\ blobmaps h' !! i = Some slots) /\
  (forall a1 a2 i, slotmap_at h' (Some sl) !! a1 = Some (Some i) ->
                   slotmap_at h' (Some sl) !! a2 = Some (Some i) -> a1 = a2) /\
  sl ∈ dom (slotmaps h').
Proof.
  unfold make_storage.
  assert (Hfold :
    let st := map_fold make_storage_step (∅, h) s in
    layers st.2 = layers h /\ slotmaps st.2 = slotmaps h /\
    (dom (blobmaps h) ⊆ dom (blobmaps st.2)) /\
    (forall i, i ∈ dom (blobmaps h) -> blobmaps st.2 !! i = blobmaps h !! i) /\
    (forall a, st.1 !! a = None <-> s !! a = None) /\
    (forall a r, st.1 !! a = Some r ->
       exists i slots, r = Some i /\ s !! a = Some slots /\
                       (i ∉ dom (blobmaps h)) /\ blobmaps st.2 !! i = Some slots) /\
    (forall a1 a2 i, st.1 !! a1 = Some (Some i) -> st.1 !! a2 = Some (Some i) -> a1 = a2)).
  { apply (map_fold_weak_ind (fun st m =>
      layers st.2 = layers h /\ slotmaps st.2 = slotmaps h /\
      (dom (blobmaps h) ⊆ dom (blobmaps st.2)) /\
      (forall i, i ∈ dom (blobmaps h) -> blobmaps st.2 !! i = blobmaps h !! i) /\
      (forall a, st.1 !! a = None <-> m !! a = None) /\
      (forall a r, st.1 !! a = Some r ->
         exists i slots, r = Some i /\ m !! a = Some slots /\
                         (i ∉ dom (blobmaps h)) /\ blobmaps st.2 !! i = Some slots) /\
      (forall a1 a2 i, st.1 !! a1 = Some (Some i) -> st.1 !! a2 = Some (Some i) -> a1 = a2))).
    - simpl. repeat split; try done.
    - intros a slots m [outer hk] Hma (Hl & Hs & Hdom & Hold & Hnone & Hent & Hinj).
      simpl in *. unfold make_storage_step, make_blobmap, fresh_blob; simpl.
      set (l := fresh (dom (blobmaps hk))).
      assert (Hl_fresh : l ∉ dom (blobmaps hk)) by apply is_fresh.
      assert (Hl_h : l ∉ dom (blobmaps h)) by (intros Hin; apply Hl_fresh; by apply Hdom).
      repeat split.
      + done.
      + done.
      + rewrite dom_insert_L. intros x Hx. apply elem_of_union_r. by apply Hdom.
      + intros i Hi. rewrite lookup_insert_ne; [by apply Hold |]. by intros ->.
      + intros Ha. destruct (decide (a0 = a)) as [-> | Hne].
        * by rewrite lookup_insert_eq in Ha.
        * rewrite lookup_insert_ne in Ha by done. rewrite lookup_insert_ne by done.
          by apply Hnone.
      + intros Ha. destruct (decide (a0 = a)) as [-> | Hne].
        * by rewrite lookup_insert_eq in Ha.
        * rewrite lookup_insert_ne in Ha by done. rewrite lookup_insert_ne by done.
          by apply Hnone.
      + intros a0 r Hr. destruct (decide (a0 = a)) as [-> | Hne].
        * rewrite lookup_insert_eq in Hr. injection Hr as <-.
          exists l, slots. by rewrite !lookup_insert_eq.
        * rewrite lookup_insert_ne in Hr by done.
          destruct (Hent a0 r Hr) as (i & slots' & -> & Hm & Hih & Hik).
          exists i, slots'. rewrite lookup_insert_ne by done.
          repeat split; try done. rewrite lookup_insert_ne; [done |].
          intros <-. apply Hl_fresh. apply elem_of_dom. by eexists.
      + intros a1 a2 i H1 H2.
        destruct (decide (a1 = a)) as [-> | Hne1], (decide (a2 = a)) as [-> | Hne2];
          try done.
        * rewrite lookup_insert_eq in H1. injection H1 as <-.
          rewrite lookup_insert_ne in H2 by done.
          destruct (Hent a2 _ H2) as (i & slots' & [= <-] & _ & _ & Hik).
          destruct Hl_fresh. apply elem_of_dom. by eexists.
        * rewrite lookup_insert_eq in H2. injection H2 as <-.
          rewrite lookup_insert_ne in H1 by done.
          destruct (Hent a1 _ H1) as (i & slots' & [= <-] & _ & _ & Hik).
          destruct Hl_fresh. apply elem_of_dom. by eexists.
        * rewrite lookup_insert_ne in H1, H2 by done. by eapply Hinj. }
  destruct (map_fold make_storage_step (∅, h) s) as [outer h1].
  simpl in Hfold. destruct Hfold as (Hl & Hs & Hdom & Hold & Hnone & Hent & Hinj).
  intros [= <- <-]. unfold fresh_slot.
  assert (Hfresh : fresh (dom (slotmaps h1)) ∉ dom (slotmaps h1)) by apply is_fresh.
  rewrite slotmap_at_set_slotmap, decide_True by done. simpl.
  repeat split; try done.
  - by rewrite <- Hs.
  - intros j Hj. rewrite lookup_insert_ne by done. by rewrite Hs.
  - by apply Hnone.
  - by apply Hnone.
  - apply elem_of_dom. rewrite lookup_insert_eq. by eexists.
Qed.

End Producer.

(** ** What [newDiffLayer] builds *)

Section NewLayer.
Context `{BF : BloomFilter} `{DL : DiskLayer} `{SC : SlimCodec} `{TU : Tuning}.

Lemma lookup_last (ls : list diffLayer) (d : diffLayer) :
  (ls ++ [d]) !! length ls = Some d.
Proof. by rewrite lookup_app_r, Nat.sub_diag by lia. Qed.

(** [rebloom] on the layer allocated last. *)
Lemma rebloom_last (ls : list diffLayer) (d0 : diffLayer)
    (bm : gmap nat (gmap Hash blob)) (sm : gmap nat (gmap Hash (option nat)))
    (o : option diskLayer) :
  rebloom o (length ls) (mkHeap (ls ++ [d0]) bm sm)
  = let h1 := mkHeap (ls ++ [set_origin o d0]) bm sm in
    match
      match parent d0 with
      | SnapDiff p =>
          match layers h1 !! p with
          | Some pd =>
              match diffed pd with
              | Some f => Ret (Filter_Copy f)
              | None => Panic nil_dereference
              end
          | None => Panic nil_dereference
          end
      | _ => Ret (bloomfilter_New bloomSize bloomFuncs)
      end
    with
    | Ret f0 =>
        (Ret tt,
         mkHeap (ls ++ [set_diffed
                          (Some (bloom_storage h1 (slotmap_at h1 (storageData d0))
                                   (bloom_accounts (blobmap_at h1 (accountData d0)) f0)))
                          (set_origin o d0)]) bm sm)
    | Panic msg => (Panic msg, h1)
    | OutOfFuel => (OutOfFuel, h1)
    end.
Proof.
  unfold rebloom. cbn [layers]. rewrite lookup_last, !update_layer_last. cbv zeta.
  destruct (parent d0) as [| disk | p]; rewrite ?update_layer_last; try reflexivity.
  cbn [layers]. destruct ((ls ++ [set_origin o d0]) !! p) as [pd |]; [| reflexivity].
  destruct (diffed pd); rewrite ?update_layer_last; reflexivity.
Qed.

(** A call on a nil parent, on a missing parent or on a parent without
    a filter does not return. *)
Lemma newDiffLayer_Ret_base (par : snapshot) (rt : Hash) (acc sto : option nat)
    (h h' : heap) (l : nat) :
  newDiffLayer par rt acc sto h = (Ret l, h') -> is_Some (new_base h par).
Proof.
  unfold newDiffLayer, alloc_layer, new_base. cbv zeta.
  destruct par as [| disk | p]; [discriminate | by eexists |].
  cbn [layers].
  destruct (lt_eq_lt_dec p (length (layers h))) as [[Hlt | ->] | Hgt].
  - rewrite lookup_app_l by done.
    destruct (layers h !! p) as [pd |] eqn:Hp; [| discriminate].
    rewrite rebloom_last. cbv zeta. cbn [parent layers].
    rewrite lookup_app_l by done. rewrite Hp.
    destruct (diffed pd); [by eexists | discriminate].
  - rewrite lookup_last, rebloom_last. cbv zeta. cbn [parent layers].
    rewrite lookup_last. cbn. discriminate.
  - rewrite lookup_ge_None_2 by (rewrite length_app; simpl; lia). discriminate.
Qed.

End NewLayer.

(** ** Chains, live layers and kept layers *)

Section Chains.
Context `{BF : BloomFilter} `{DL : DiskLayer} `{SC : SlimCodec} `{TU : Tuning}.

Lemma chain_lookup (h : heap) (l : nat) (c : list nat) (x : nat) :
  chain h l c -> x ∈ c -> layers h !! x = Some (layer_at h x).
Proof.
  induction 1 as [l d Hd Hp | l d p c Hd Hp Hc IH]; intros Hx.
  - apply list_elem_of_singleton in Hx as ->. by rewrite (layer_at_Some _ _ _ Hd).
  - apply elem_of_cons in Hx as [-> | Hx]; [| by apply IH].
    by rewrite (layer_at_Some _ _ _ Hd).
Qed.

(** Every layer of a chain has a chain of its own, which ends in the
    same bottom layer. *)
Lemma chain_sub (h : heap) (l : nat) (c : list nat) (x : nat) :
  chain h l c -> x ∈ c ->
  exists cx, chain h x cx /\ last cx = last c /\ forall y, y ∈ cx -> y ∈ c.
Proof.
  induction 1 as [l d Hd Hp | l d p c Hd Hp Hc IH]; intros Hx.
  - apply list_elem_of_singleton in Hx as ->. exists [l].
    split; [by eapply chain_bottom | done].
  - apply elem_of_cons in Hx as [-> | Hx].
    + exists (l :: c). split; [by eapply chain_step | done].
    + destruct (IH Hx) as (cx & Hcx & Hlast & Hsub). exists cx.
      split; [done |]. split.
      * rewrite Hlast. destruct (chain_head _ _ _ Hc) as [c' ->].
        by rewrite last_cons_cons.
      * intros y Hy. right. by apply Hsub.
Qed.

Lemma live_chain (h : heap) (l : nat) (c : list nat) :
  live h l -> chain h l c -> forall x, x ∈ c -> stale (layer_at h x) = false.
Proof.
  intros (c0 & Hc0 & Hs) Hc. by rewrite <- (chain_functional _ _ _ _ Hc0 Hc).
Qed.

Lemma live_sub (h : heap) (l : nat) (c : list nat) (x : nat) :
  live h l -> chain h l c -> x ∈ c -> live h x.
Proof.
  intros Hl Hc Hx. pose proof (live_chain _ _ _ Hl Hc) as Hs.
  destruct (chain_sub _ _ _ _ Hc Hx) as (cx & Hcx & _ & Hsub).
  exists cx. split; [done |]. intros y Hy. apply Hs. by apply Hsub.
Qed.

(** Two chains that meet end in the same bottom layer. *)
Lemma chain_meet (h : heap) (l1 l2 : nat) (c1 c2 : list nat) (x : nat) :
  chain h l1 c1 -> chain h l2 c2 -> x ∈ c1 -> x ∈ c2 -> last c1 = last c2.
Proof.
  intros H1 H2 Hx1 Hx2.
  destruct (chain_sub _ _ _ _ H1 Hx1) as (cx & Hcx & <- & _).
  destruct (chain_sub _ _ _ _ H2 Hx2) as (cx' & Hcx' & <- & _).
  by rewrite (chain_functional _ _ _ _ Hcx Hcx').
Qed.

Lemma chain_transfer (h h' : heap) (l : nat) (c : list nat) :
  chain h l c ->
  (forall x, x ∈ c ->
     exists d', layers h' !! x = Some d' /\ parent d' = parent (layer_at h x)) ->
  chain h' l c.
Proof.
  induction 1 as [l d Hd Hp | l d p c Hd Hp Hc IH]; intros Hk;
    destruct (Hk l ltac:(by left)) as (d' & Hd' & Hp');
    rewrite (layer_at_Some _ _ _ Hd) in Hp'.
  - eapply chain_bottom; [exact Hd' |]. by rewrite Hp'.
  - eapply chain_step; [exact Hd' | by rewrite Hp' |].
    apply IH. intros x Hx. apply Hk. by right.
Qed.

Section Decreasing.
Variable h : heap.
Hypothesis Hdec : forall l d p,
  layers h !! l = Some d -> parent d = SnapDiff p -> (p < l)%nat /\ stale d = false.

Lemma chain_bound (l : nat) (c : list nat) :
  chain h l c ->
  (forall x, x ∈ c -> (x <= l)%nat) /\ NoDup c /\ (length c <= S l)%nat.
Proof.
  induction 1 as [l d Hd Hp | l d p c Hd Hp Hc (IH1 & IH2 & IH3)].
  - split; [intros x Hx; apply list_elem_of_singleton in Hx as ->; lia |].
    split; [apply NoDup_singleton | simpl; lia].
  - destruct (Hdec _ _ _ Hd Hp) as [Hlt _]. split; [| split].
    + intros x Hx. apply elem_of_cons in Hx as [-> | Hx]; [lia |].
      specialize (IH1 x Hx). lia.
    + apply NoDup_cons. split; [| done]. intros Hin. specialize (IH1 l Hin). lia.
    + simpl. lia.
Qed.

Lemma chain_exists (l : nat) (d : diffLayer) :
  layers h !! l = Some d -> exists c, chain h l c.
Proof.
  revert d. induction l as [l IH] using lt_wf_ind. intros d Hd.
  destruct (parent d) as [| disk | p] eqn:Hp.
  - exists [l]. eapply chain_bottom; [done |]. intros q; congruence.
  - exists [l]. eapply chain_bottom; [done |]. intros q; congruence.
  - destruct (Hdec _ _ _ Hd Hp) as [Hlt _].
    destruct (lookup_lt_is_Some_2 (layers h) p) as [pd Hpd].
    { apply lookup_lt_Some in Hd. lia. }
    destruct (IH p Hlt pd Hpd) as [c Hc]. exists (l :: c). by eapply chain_step.
Qed.

(** Only the bottom layer of a chain can be stale. *)
Lemma chain_live_bottom (l : nat) (c : list nat) (b : nat) :
  chain h l c -> last c = Some b -> stale (layer_at h b) = false ->
  forall x, x ∈ c -> stale (layer_at h x) = false.
Proof.
  induction 1 as [l d Hd Hp | l d p c Hd Hp Hc IH]; intros Hlast Hb x Hx.
  - injection Hlast as <-. by apply list_elem_of_singleton in Hx as ->.
  - apply elem_of_cons in Hx as [-> | Hx].
    + rewrite (layer_at_Some _ _ _ Hd). by destruct (Hdec _ _ _ Hd Hp).
    + destruct (chain_head _ _ _ Hc) as [c' ->].
      rewrite last_cons_cons in Hlast. by apply IH.
Qed.

End Decreasing.

(** *** Kept layers *)

Lemma kept_owns (h h' : heap) (l i : nat) :
  kept h h' l ->
  owns_blob h' (layer_at h' l) i <-> owns_blob h (layer_at h l) i.
Proof.
  intros ((_ & _ & _ & _ & Ha & Hs & _) & Hsm & _).
  unfold owns_blob. rewrite Ha, Hs. by apply owns_ref_same.
Qed.

Lemma kept_wf (h h' : heap) (l : nat) :
  kept h h' l -> layer_wf h (layer_at h l) -> layer_wf h' (layer_at h' l).
Proof.
  intros ((_ & _ & _ & _ & Ha & Hs & _) & Hsm & _).
  unfold layer_wf. rewrite Ha, Hs. by apply maps_wf_same.
Qed.

Lemma kept_local_account (h h' : heap) (l : nat) (k : Hash) :
  kept h h' l ->
  local_account h' (accountData (layer_at h' l)) k
  = local_account h (accountData (layer_at h l)) k.
Proof.
  intros ((_ & _ & _ & _ & Ha & Hs & _) & Hsm & Hb).
  unfold local_account. rewrite Ha.
  destruct (accountData (layer_at h l)) as [a |] eqn:E; [| done].
  rewrite Hb; [done |]. unfold owns_blob, owns_ref. left. exact E.
Qed.

Lemma kept_local_slot (h h' : heap) (l : nat) (a s : Hash) :
  kept h h' l ->
  local_slot h' (storageData (layer_at h' l)) a s
  = local_slot h (storageData (layer_at h l)) a s.
Proof.
  intros ((_ & _ & _ & _ & Ha & Hs & _) & Hsm & Hb).
  rewrite Hs. apply local_slot_same; [done |].
  intros i Hi. apply Hb. by right.
Qed.

Lemma kept_apart (h h' : heap) (l1 l2 : nat) :
  kept h h' l1 -> kept h h' l2 ->
  apart h (layer_at h l1) (layer_at h l2) ->
  apart h' (layer_at h' l1) (layer_at h' l2).
Proof.
  intros K1 K2 [Hne Hno]. split.
  - destruct K1 as ((_ & _ & _ & _ & _ & -> & _) & _).
    by destruct K2 as ((_ & _ & _ & _ & _ & -> & _) & _).
  - intros i H1 H2. apply (Hno i).
    + by apply (kept_owns h h' l1 i K1).
    + by apply (kept_owns h h' l2 i K2).
Qed.

Lemma kept_bloom_holds (h h' : heap) (f : Filter) (x : nat) :
  kept h h' x -> bloom_holds h f x -> bloom_holds h' f x.
Proof.
  intros K [H1 H2]. split.
  - intros k. rewrite (kept_local_account h h' x k K). apply H1.
  - intros a s. rewrite (kept_local_slot h h' x a s K). apply H2.
Qed.

End Chains.

(** ** One step of the invariant *)

Section InvariantStep.
Context `{BF : BloomFilter} `{DL : DiskLayer} `{SC : SlimCodec} `{TU : Tuning}.

Lemma apart_sym (h : heap) (d1 d2 : diffLayer) : apart h d1 d2 -> apart h d2 d1.
Proof.
  intros [Hne Hno]. split; [congruence |]. intros i H2 H1. by apply (Hno i).
Qed.

Lemma lookup_layer_at (h : heap) (x : nat) :
  is_Some (layers h !! x) -> layers h !! x = Some (layer_at h x).
Proof. intros [d Hd]. by rewrite (layer_at_Some _ _ _ Hd). Qed.

Lemma live_lookup (h : heap) (l : nat) :
  live h l -> layers h !! l = Some (layer_at h l).
Proof.
  intros (c & Hc & _). destruct (chain_head _ _ _ Hc) as [c' ->].
  eapply chain_lookup; [exact Hc | by left].
Qed.

(** A chain of the new store whose layers were there before with the
    same record core, and whose maps the step left alone, is a chain of
    a surviving layer. *)
Lemma survives_intro (h h' : heap) (l : nat) (c : list nat) :
  chain h' l c ->
  (forall x, x ∈ c -> stale (layer_at h' x) = false) ->
  (forall x, x ∈ c ->
     is_Some (layers h !! x) /\ same_core (layer_at h x) (layer_at h' x)) ->
  (forall x, x ∈ c -> live h x ->
     slotmap_at h' (storageData (layer_at h x))
     = slotmap_at h (storageData (layer_at h x)) /\
     forall i, owns_blob h (layer_at h x) i ->
               blobmap_at h' (Some i) = blobmap_at h (Some i)) ->
  survives h h' l.
Proof.
  intros Hc Hs Hk Hm.
  assert (Hch : chain h l c).
  { apply (chain_transfer h' h l c Hc). intros x Hx.
    destruct (Hk x Hx) as [Hsome (_ & Hp & _)].
    exists (layer_at h x). split; [by apply lookup_layer_at | by rewrite Hp]. }
  assert (Hsh : forall x, x ∈ c -> stale (layer_at h x) = false).
  { intros x Hx. destruct (Hk x Hx) as [_ (_ & _ & _ & Hst & _)].
    rewrite <- Hst. by apply Hs. }
  exists c. split; [done |]. split; [done |]. split; [done |].
  intros x Hx. destruct (Hk x Hx) as [_ Hcore]. split; [done |].
  apply Hm; [done |]. eapply live_sub; [| exact Hch | exact Hx].
  exists c. by split.
Qed.

Lemma survives_live (h h' : heap) (l : nat) : survives h h' l -> live h l.
Proof. intros (c & Hc & _ & Hs & _). exists c. by split. Qed.

Lemma survives_kept (h h' : heap) (l : nat) : survives h h' l -> kept h h' l.
Proof.
  intros (c & Hc & _ & _ & Hk). destruct (chain_head _ _ _ Hc) as [c' ->].
  apply Hk. by left.
Qed.

(** The invariant after a step: the shape of the new store, the old
    live layers surviving, and the clauses of the one layer [n] the
    step may have made live. *)
Lemma heap_inv_step (h h' : heap) (n : nat) :
  heap_inv h ->
  (forall l d p, layers h' !! l = Some d -> parent d = SnapDiff p ->
                 (p < l)%nat /\ stale d = false) ->
  (forall l d, layers h' !! l = Some d -> parent d <> SnapNil) ->
  (dom (blobmaps h) ⊆ dom (blobmaps h')) ->
  (dom (slotmaps h) ⊆ dom (slotmaps h')) ->
  (forall l, live h' l -> l <> n -> survives h h' l) ->
  (live h' n ->
     layer_wf h' (layer_at h' n) /\
     (forall i, owns_blob h' (layer_at h' n) i -> i ∈ dom (blobmaps h')) /\
     (forall s, storageData (layer_at h' n) = Some s -> s ∈ dom (slotmaps h')) /\
     (forall l, survives h h' l -> l <> n ->
                apart h' (layer_at h' l) (layer_at h' n)) /\
     (forall c x, chain h' n c -> x ∈ c ->
                  origin (layer_at h' x) = origin (layer_at h' n)) /\
     bloom_superset h' n) ->
  heap_inv h'.
Proof.
  intros Hinv Hpar Hbot Hdb Hds Hold Hnew. split.
  - exact Hpar.
  - exact Hbot.
  - intros l Hl. destruct (decide (l = n)) as [-> | Hne]; [by apply Hnew |].
    pose proof (Hold l Hl Hne) as Hsv.
    apply (kept_wf h h' l (survives_kept _ _ _ Hsv)).
    apply (inv_wf h Hinv). by eapply survives_live.
  - intros l i Hl Hi. destruct (decide (l = n)) as [-> | Hne].
    { by apply (proj1 (proj2 (Hnew Hl))). }
    pose proof (Hold l Hl Hne) as Hsv. apply Hdb.
    apply (inv_dom h Hinv l i); [by eapply survives_live |].
    by apply (kept_owns h h' l i (survives_kept _ _ _ Hsv)).
  - intros l s Hl Hsd. destruct (decide (l = n)) as [-> | Hne].
    { by apply (proj1 (proj2 (proj2 (Hnew Hl)))). }
    pose proof (Hold l Hl Hne) as Hsv. apply Hds.
    apply (inv_dom_slots h Hinv l s); [by eapply survives_live |].
    destruct (survives_kept _ _ _ Hsv) as ((_ & _ & _ & _ & _ & Hsto & _) & _).
    by rewrite <- Hsto.
  - intros l1 l2 H1 H2 Hne.
    destruct (decide (l2 = n)) as [-> | Hne2].
    { apply (proj1 (proj2 (proj2 (proj2 (Hnew H2))))); [by apply Hold | done]. }
    destruct (decide (l1 = n)) as [-> | Hne1].
    { apply apart_sym.
      apply (proj1 (proj2 (proj2 (proj2 (Hnew H1))))); [by apply Hold | done]. }
    pose proof (Hold l1 H1 Hne1) as S1. pose proof (Hold l2 H2 Hne2) as S2.
    apply (kept_apart h h'); [by apply survives_kept | by apply survives_kept |].
    apply (inv_apart h Hinv); [by eapply survives_live | by eapply survives_live | done].
  - intros l c x Hl Hc Hx. destruct (decide (l = n)) as [-> | Hne].
    { by apply (proj1 (proj2 (proj2 (proj2 (proj2 (Hnew Hl))))) c x). }
    destruct (Hold l Hl Hne) as (c0 & Hc0 & Hc0' & Hs0 & Hk0).
    rewrite (chain_functional _ _ _ _ Hc Hc0') in Hx.
    destruct (chain_head _ _ _ Hc0) as [c1 Ec]. 
    assert (Hlc : l ∈ c0) by (rewrite Ec; by left).
    destruct (Hk0 x Hx) as ((-> & _) & _). destruct (Hk0 l Hlc) as ((-> & _) & _).
    apply (inv_origin h Hinv l c0 x); [| done | done]. exists c0. by split.
  - intros l Hl. destruct (decide (l = n)) as [-> | Hne].
    { by apply (proj2 (proj2 (proj2 (proj2 (proj2 (Hnew Hl)))))). }
    destruct (Hold l Hl Hne) as (c0 & Hc0 & Hc0' & Hs0 & Hk0).
    assert (Hlh : live h l) by (exists c0; by split).
    destruct (inv_bloom h Hinv l Hlh) as (f & c1 & Hf & Hc1 & Hb).
    rewrite (chain_functional _ _ _ _ Hc1 Hc0) in Hb.
    destruct (chain_head _ _ _ Hc0) as [c2 Ec].
    assert (Hlc : l ∈ c0) by (rewrite Ec; by left).
    exists f, c0. split; [| split; [done |]].
    + destruct (Hk0 l Hlc) as ((_ & _ & _ & _ & _ & _ & ->) & _). done.
    + intros x Hx. apply (kept_bloom_holds h h' f x); [by apply Hk0 | by apply Hb].
Qed.

End InvariantStep.

(** ** The sorted key views keep the invariant *)

Section InvariantLists.
Context `{BF : BloomFilter} `{DL : DiskLayer} `{SC : SlimCodec} `{TU : Tuning}.

Lemma same_core_refl (d : diffLayer) : same_core d d.
Proof. by repeat split. Qed.

Lemma layer_at_update_core (h : heap) (dl l : nat) (f : diffLayer -> diffLayer) :
  (forall d, same_core d (f d)) ->
  same_core (layer_at h l) (layer_at (update_layer dl f h) l).
Proof.
  intros Hf. unfold layer_at. destruct (decide (dl = l)) as [-> | Hne].
  - rewrite lookup_update_layer_eq.
    destruct (layers h !! l) as [d |]; simpl; [apply Hf | apply same_core_refl].
  - rewrite lookup_update_layer_ne by done. apply same_core_refl.
Qed.

Lemma blobmap_at_same_blobmaps (h h' : heap) (r : option nat) :
  blobmaps h' = blobmaps h -> blobmap_at h' r = blobmap_at h r.
Proof. intros E. unfold blobmap_at. by rewrite E. Qed.

(** A store that differs from one with the invariant in memory counters
    and caches only has the invariant. *)
Lemma heap_inv_core (h h' : heap) :
  heap_inv h -> blobmaps h' = blobmaps h -> slotmaps h' = slotmaps h ->
  length (layers h') = length (layers h) ->
  (forall l, same_core (layer_at h l) (layer_at h' l)) ->
  heap_inv h'.
Proof.
  intros Hinv Eb Es El Hcore.
  assert (Hback : forall l d, layers h' !! l = Some d ->
            layers h !! l = Some (layer_at h l) /\ same_core (layer_at h l) d).
  { intros l d Hd. split.
    - apply lookup_layer_at, lookup_lt_is_Some. rewrite <- El.
      by eapply lookup_lt_Some.
    - rewrite <- (layer_at_Some _ _ _ Hd). apply Hcore. }
  apply (heap_inv_step h h' (length (layers h)) Hinv).
  - intros l d p Hd Hp. destruct (Hback l d Hd) as [Hl (_ & Hpar & _ & Hst & _)].
    rewrite Hpar in Hp. rewrite Hst. by apply (inv_parent h Hinv l _ p Hl).
  - intros l d Hd. destruct (Hback l d Hd) as [Hl (_ & Hpar & _)].
    rewrite Hpar. by apply (inv_bottom h Hinv l _ Hl).
  - by rewrite Eb.
  - by rewrite Es.
  - intros l (c & Hc & Hs) _. apply (survives_intro h h' l c Hc Hs).
    + intros x Hx. pose proof (chain_lookup _ _ _ _ Hc Hx) as Hx'.
      destruct (Hback _ _ Hx') as [Hl _]. split; [by eexists | apply Hcore].
    + intros x _ _. split; [by apply slotmap_at_same_slotmaps |].
      intros i _. by apply blobmap_at_same_blobmaps.
  - intros Hl. apply live_lookup, lookup_lt_Some in Hl. lia.
Qed.

Lemma heap_inv_update_core (h : heap) (dl : nat) (f : diffLayer -> diffLayer) :
  (forall d, same_core d (f d)) -> heap_inv h -> heap_inv (update_layer dl f h).
Proof.
  intros Hf Hinv. apply (heap_inv_core h); try done.
  - unfold update_layer; simpl. by rewrite length_alter.
  - intros l. by apply layer_at_update_core.
Qed.

Lemma heap_inv_AccountList (h h' : heap) (dl : nat) (r : outcome (slice Hash)) :
  heap_inv h -> AccountList dl h = (r, h') -> heap_inv h'.
Proof.
  intros Hinv. unfold AccountList.
  destruct (layers h !! dl) as [d |]; [| by intros [= _ <-]].
  destruct (accountList d); [by intros [= _ <-] |].
  intros [= _ <-]. apply heap_inv_update_core; [| done].
  intros d0. by repeat split.
Qed.

Lemma heap_inv_StorageList (h h' : heap) (dl : nat) (a : Hash)
    (r : outcome (slice Hash)) :
  heap_inv h -> StorageList dl a h = (r, h') -> heap_inv h'.
Proof.
  intros Hinv. unfold StorageList.
  destruct (layers h !! dl) as [d |]; [| by intros [= _ <-]].
  destruct (slotmap_at h (storageData d) !! a); [| by intros [= _ <-]].
  destruct (storageList d !! a); [by intros [= _ <-] |].
  intros [= _ <-]. apply heap_inv_update_core; [| done].
  intros d0. by repeat split.
Qed.

End InvariantLists.

(** ** The layer [newDiffLayer] returns *)

Section NewLayerExact.
Context `{BF : BloomFilter} `{DL : DiskLayer} `{SC : SlimCodec} `{TU : Tuning}.

(** The two accounting loops on the layer allocated last. *)
Lemma memory_loops_last (ls : list diffLayer) (d : diffLayer)
    (bm : gmap nat (gmap Hash blob)) (sm : gmap nat (gmap Hash (option nat)))
    (acc sto : option nat) :
  memory d = 0 ->
  (forall a r, slotmap_at (mkHeap ls bm sm) sto !! a = Some r -> is_Some r) ->
  let h1 := mkHeap (ls ++ [d]) bm sm in
  let h2 := account_memory (length ls) (blobmap_at h1 acc) h1 in
  storage_memory (length ls) (slotmap_at h2 sto) h2
  = (Ret tt,
     mkHeap (ls ++ [set_memory
                      (wrap64 (account_weight (blobmap_at (mkHeap ls bm sm) acc)
                               + storage_weight (mkHeap ls bm sm)
                                   (slotmap_at (mkHeap ls bm sm) sto))) d]) bm sm).
Proof.
  intros Hm Hnil h1 h2. subst h2.
  rewrite (account_memory_spec (length ls) _ h1 d);
    [| apply lookup_last | rewrite Hm; lia].
  subst h1. rewrite update_layer_last, Hm, Z.add_0_l.
  erewrite storage_memory_spec;
    [| apply lookup_last | simpl; apply wrap64_range | exact Hnil].
  rewrite update_layer_last. simpl. by rewrite wrap64_add_l.
Qed.

(** On a parent with a filter and a storage delta without nil slot maps
    the call returns the new layer, appended to the store, and writes
    no map. *)
Lemma newDiffLayer_exact (par : snapshot) (rt : Hash) (acc sto : option nat)
    (h : heap) (o : option diskLayer) (f0 : Filter) :
  new_base h par = Some (o, f0) ->
  (forall a r, slotmap_at h sto !! a = Some r -> is_Some r) ->
  newDiffLayer par rt acc sto h
  = (Ret (length (layers h)),
     mkHeap (layers h ++ [new_layer h par rt acc sto o f0]) (blobmaps h) (slotmaps h)).
Proof.
  intros Hbase Hnil. destruct h as [ls bm sm].
  unfold newDiffLayer, alloc_layer. cbv zeta. cbn [layers blobmaps slotmaps].
  match goal with |- context [ls ++ [?r]] => set (d0 := r) end.
  assert (Hreb :
    match par with
    | SnapDisk disk => rebloom (Some disk) (length ls) (mkHeap (ls ++ [d0]) bm sm)
    | SnapDiff p =>
        match (ls ++ [d0]) !! p with
        | Some pd => rebloom (origin pd) (length ls) (mkHeap (ls ++ [d0]) bm sm)
        | None => (Panic nil_dereference, mkHeap (ls ++ [d0]) bm sm)
        end
    | SnapNil => (Panic "unknown parent type"%string, mkHeap (ls ++ [d0]) bm sm)
    end
    = (Ret tt,
       mkHeap (ls ++ [set_diffed
                        (Some (bloom_storage (mkHeap ls bm sm)
                                 (slotmap_at (mkHeap ls bm sm) sto)
                                 (bloom_accounts (blobmap_at (mkHeap ls bm sm) acc) f0)))
                        (set_origin o d0)]) bm sm)).
  { unfold new_base in Hbase. cbn [layers] in Hbase.
    destruct par as [| disk | p]; [discriminate Hbase | |].
    - injection Hbase as <- <-. rewrite rebloom_last. reflexivity.
    - destruct (ls !! p) as [pd |] eqn:Hp; [| discriminate Hbase].
      destruct (diffed pd) as [f |] eqn:Hf; [| discriminate Hbase].
      injection Hbase as <- <-.
      rewrite (lookup_app_l_Some _ _ _ _ Hp), rebloom_last. cbv zeta.
      cbn [parent d0 layers]. rewrite (lookup_app_l_Some _ _ _ _ Hp), Hf.
      reflexivity. }
  rewrite Hreb. clear Hreb.
  rewrite memory_loops_last; [| reflexivity | exact Hnil].
  reflexivity.
Qed.

(** The second accounting loop returns only on a storage delta without
    nil slot maps. *)
Lemma storage_memory_Ret (dl : nat) (s : gmap Hash (option nat)) (h h' : heap) :
  storage_memory dl s h = (Ret tt, h') ->
  forall a r, s !! a = Some r -> is_Some r.
Proof.
  unfold storage_memory. revert h'.
  apply (map_fold_weak_ind (fun st m =>
    forall h', st = (Ret tt, h') -> forall a r, m !! a = Some r -> is_Some r)).
  - intros h' _ a r Hr. by rewrite lookup_empty in Hr.
  - intros a r m st Hm IH h' Hret a' r' Hr'.
    destruct st as [[[] | msg |] h0]; simpl in Hret; try discriminate Hret.
    destruct r as [i |]; [| discriminate Hret].
    destruct (decide (a' = a)) as [-> | Hne].
    + rewrite lookup_insert_eq in Hr'. injection Hr' as <-. by eexists.
    + rewrite lookup_insert_ne in Hr' by done. by apply (IH h0 eq_refl a').
Qed.

(** A call that returned appended the new layer and wrote no map,
    whatever maps it was handed, nil ones included. *)
Lemma newDiffLayer_Ret (par : snapshot) (rt : Hash) (acc sto : option nat)
    (h h' : heap) (l : nat) :
  newDiffLayer par rt acc sto h = (Ret l, h') ->
  exists o f0,
    new_base h par = Some (o, f0) /\ l = length (layers h) /\
    h' = mkHeap (layers h ++ [new_layer h par rt acc sto o f0])
                (blobmaps h) (slotmaps h).
Proof.
  intros Hret.
  destruct (newDiffLayer_Ret_base _ _ _ _ _ _ _ Hret) as [[o f0] Hbase].
  exists o, f0. split; [done |].
  assert (Hnil : forall a r, slotmap_at h sto !! a = Some r -> is_Some r).
  { revert Hret Hbase. destruct h as [ls bm sm].
    unfold newDiffLayer, alloc_layer. cbv zeta. cbn [layers blobmaps slotmaps].
    match goal with |- context [ls ++ [?r]] => set (d0 := r) end.
    intros Hret Hbase.
    set (dA := set_diffed
                 (Some (bloom_storage (mkHeap ls bm sm)
                          (slotmap_at (mkHeap ls bm sm) sto)
                          (bloom_accounts (blobmap_at (mkHeap ls bm sm) acc) f0)))
                 (set_origin o d0)).
    assert (Hreb :
      match par with
      | SnapDisk disk => rebloom (Some disk) (length ls) (mkHeap (ls ++ [d0]) bm sm)
      | SnapDiff p =>
          match (ls ++ [d0]) !! p with
          | Some pd => rebloom (origin pd) (length ls) (mkHeap (ls ++ [d0]) bm sm)
          | None => (Panic nil_dereference, mkHeap (ls ++ [d0]) bm sm)
          end
      | SnapNil => (Panic "unknown parent type"%string, mkHeap (ls ++ [d0]) bm sm)
      end
      = (Ret tt, mkHeap (ls ++ [dA]) bm sm)).
    { unfold new_base in Hbase. cbn [layers] in Hbase.
      destruct par as [| disk | p]; [discriminate Hbase | |].
      - injection Hbase as <- <-. rewrite rebloom_last. reflexivity.
      - destruct (ls !! p) as [pd |] eqn:Hp; [| discriminate Hbase].
        destruct (diffed pd) as [f |] eqn:Hf; [| discriminate Hbase].
        injection Hbase as <- <-.
        rewrite (lookup_app_l_Some _ _ _ _ Hp), rebloom_last. cbv zeta.
        cbn [parent d0 layers]. rewrite (lookup_app_l_Some _ _ _ _ Hp), Hf.
        reflexivity. }
    rewrite Hreb in Hret. clear Hreb.
    rewrite (account_memory_spec (length ls) _ (mkHeap (ls ++ [dA]) bm sm) dA) in Hret;
      [| apply lookup_last | simpl; lia].
    rewrite update_layer_last in Hret.
    match type of Hret with context [storage_memory ?a ?b ?c] =>
      destruct (storage_memory a b c) as [[[] | msg |] h3] eqn:E end;
      try discriminate Hret.
    exact (storage_memory_Ret _ _ _ _ E). }
  rewrite (newDiffLayer_exact par rt acc sto h o f0 Hbase Hnil) in Hret.
  by injection Hret as <- <-.
Qed.

End NewLayerExact.

(** ** A block on top of a store *)

Section BlockStep.
Context `{BF : BloomFilter} `{DL : DiskLayer} `{SC : SlimCodec} `{TU : Tuning}.

Lemma new_base_layers (h h' : heap) (par : snapshot) :
  layers h' = layers h -> new_base h' par = new_base h par.
Proof. intros E. unfold new_base. by rewrite E. Qed.

(** What a block that returned left behind: one layer more, on maps
    that were not in the store, holding the delta of the block; every
    map that was in the store is as it was. *)
Lemma apply_block_Ret (h h' : heap) (par : snapshot) (rt : Hash)
    (accounts : gmap Hash blob) (storage : gmap Hash (gmap Hash blob)) (l : nat) :
  apply_block par rt accounts storage h = (Ret l, h') ->
  exists a s o f0,
    l = length (layers h) /\
    new_base h par = Some (o, f0) /\
    layers h' = layers h ++ [new_layer h' par rt (Some a) (Some s) o f0] /\
    (a ∉ dom (blobmaps h)) /\ (s ∉ dom (slotmaps h)) /\
    blobmap_at h' (Some a) = accounts /\
    (forall k, slotmap_at h' (Some s) !! k = None <-> storage !! k = None) /\
    (forall k r, slotmap_at h' (Some s) !! k = Some r ->
       exists i slots, r = Some i /\ storage !! k = Some slots /\
                       (i ∉ dom (blobmaps h)) /\ i <> a /\
                       blobmaps h' !! i = Some slots) /\
    (forall k1 k2 i, slotmap_at h' (Some s) !! k1 = Some (Some i) ->
                     slotmap_at h' (Some s) !! k2 = Some (Some i) -> k1 = k2) /\
    (a ∈ dom (blobmaps h')) /\ (s ∈ dom (slotmaps h')) /\
    (forall i, i ∈ dom (blobmaps h) -> blobmaps h' !! i = blobmaps h !! i) /\
    (forall j, j ∈ dom (slotmaps h) -> slotmaps h' !! j = slotmaps h !! j).
Proof.
  unfold apply_block, make_blobmap. 
  set (a := fresh_blob h). set (h1 := set_blobmap a accounts h).
  destruct (make_storage storage h1) as [s h2] eqn:Hms.
  intros Hnew.
  destruct (make_storage_spec storage h1 h2 s Hms)
    as (Hl & Hs & Hsf & Hdom & Hbf & Hnone & Hent & Hinj & Hsin).
  assert (Ha : a ∉ dom (blobmaps h)) by apply is_fresh.
  assert (Hnil : forall k r, slotmap_at h2 (Some s) !! k = Some r -> is_Some r).
  { intros k r Hr. destruct (Hent k r Hr) as (i & slots & -> & _). by eexists. }
  destruct (newDiffLayer_Ret_base _ _ _ _ _ _ _ Hnew) as [[o f0] Hbase].
  rewrite (newDiffLayer_exact par rt (Some a) (Some s) h2 o f0 Hbase Hnil) in Hnew.
  injection Hnew as <- <-.
  exists a, s, o, f0.
  assert (Hl1 : layers h1 = layers h) by reflexivity.
  assert (Hd1 : dom (blobmaps h1) = {[a]} ∪ dom (blobmaps h)).
  { subst h1. simpl. apply dom_insert_L. }
  assert (Hain : a ∈ dom (blobmaps h1)).
  { rewrite Hd1. by apply elem_of_union_l, elem_of_singleton. }
  split; [by rewrite Hl, Hl1 |].
  split; [rewrite <- Hbase; symmetry; apply new_base_layers; by rewrite Hl |].
  split; [cbn [layers]; rewrite Hl, Hl1; reflexivity |].
  split; [done |]. split; [exact Hs |].
  split.
  { unfold blobmap_at. cbn [blobmaps]. rewrite (Hbf a Hain). subst h1. cbn.
    by rewrite lookup_insert_eq. }
  split; [exact Hnone |].
  split.
  { intros k r Hr. destruct (Hent k r Hr) as (i & slots & -> & Hk & Hi & Hb).
    exists i, slots. repeat split; try done.
    - intros Hin. apply Hi. rewrite Hd1. by apply elem_of_union_r.
    - intros ->. by apply Hi. }
  split; [exact Hinj |].
  split; [by apply Hdom |]. split; [exact Hsin |].
  split.
  - intros i Hi. cbn [blobmaps].
    rewrite Hbf by (rewrite Hd1; by apply elem_of_union_r).
    subst h1; cbn. rewrite lookup_insert_ne; [done |]. intros ->. by apply Ha.
  - intros j Hj. cbn [slotmaps]. rewrite Hsf; [done |]. intros ->. by apply Hs.
Qed.

End BlockStep.

(** ** A block keeps the invariant *)

Section BlockInvariant.
Context `{BF : BloomFilter} `{DL : DiskLayer} `{SC : SlimCodec} `{TU : Tuning}.

Lemma layer_at_old (h h' : heap) (d' : diffLayer) (x : nat) :
  layers h' = layers h ++ [d'] -> (x < length (layers h))%nat ->
  layer_at h' x = layer_at h x.
Proof. intros E Hx. unfold layer_at. by rewrite E, lookup_app_l. Qed.

(** The filter of a new layer is positive on what its base filter was
    positive on, and on every key of the delta. *)
Lemma new_filter_spec (h : heap) (acc : gmap Hash blob) (sto : gmap Hash (option nat))
    (f0 : Filter) :
  let f := bloom_storage h sto (bloom_accounts acc f0) in
  (forall y, Filter_ContainsHash f0 y = true -> Filter_ContainsHash f y = true) /\
  (forall k, is_Some (acc !! k) ->
             Filter_ContainsHash f (accountBloomHash offsets k) = true) /\
  (forall a slots k, sto !! a = Some slots -> is_Some (blobmap_at h slots !! k) ->
             Filter_ContainsHash f (storageBloomHash offsets a k) = true).
Proof.
  intros f. subst f.
  destruct (bloom_accounts_spec acc f0) as [A1 A2].
  destruct (bloom_storage_spec h sto (bloom_accounts acc f0)) as [S1 S2].
  split; [| split].
  - intros y Hy. by apply S1, A1.
  - intros k Hk. by apply S1, A2.
  - exact S2.
Qed.

Lemma heap_inv_apply_block (h h' : heap) (par : snapshot) (rt : Hash)
    (accounts : gmap Hash blob) (storage : gmap Hash (gmap Hash blob)) (l : nat) :
  heap_inv h -> apply_block par rt accounts storage h = (Ret l, h') -> heap_inv h'.
Proof.
  intros Hinv Hret.
  destruct (apply_block_Ret _ _ _ _ _ _ _ Hret)
    as (a & s & o & f0 & -> & Hbase & Hlay & Ha & Hs & Hacc & Hnone & Hent & Hinj
        & Hain & Hsin & Hbf & Hsf).
  set (n := length (layers h)).
  set (d' := new_layer h' par rt (Some a) (Some s) o f0) in *.
  assert (Hold_l : forall x d, layers h' !! x = Some d -> x <> n ->
                               layers h !! x = Some d /\ (x < n)%nat).
  { intros x d Hd Hne. rewrite Hlay in Hd.
    apply lookup_app_Some in Hd as [Hd | [Hge Hd]].
    - split; [done | by eapply lookup_lt_Some].
    - apply list_lookup_singleton_Some in Hd as [Hz _]. subst n. lia. }
  assert (Hnew_l : layers h' !! n = Some d') by (rewrite Hlay; apply lookup_last).
  assert (Hat : layer_at h' n = d') by (by apply layer_at_Some).
  assert (Hpar' : forall x d p, layers h' !! x = Some d -> parent d = SnapDiff p ->
                                (p < x)%nat /\ stale d = false).
  { intros x d p Hd Hp. destruct (decide (x = n)) as [-> | Hne].
    - rewrite Hnew_l in Hd. injection Hd as <-. simpl in Hp. subst par.
      unfold new_base in Hbase.
      destruct (layers h !! p) eqn:Hlp; [| discriminate].
      split; [by eapply lookup_lt_Some | done].
    - destruct (Hold_l x d Hd Hne) as [Hd0 _]. by apply (inv_parent h Hinv x d p). }
  assert (Hbot' : forall x d, layers h' !! x = Some d -> parent d <> SnapNil).
  { intros x d Hd. destruct (decide (x = n)) as [-> | Hne].
    - rewrite Hnew_l in Hd. injection Hd as <-. simpl. intros ->. discriminate Hbase.
    - destruct (Hold_l x d Hd Hne) as [Hd0 _]. by apply (inv_bottom h Hinv x). }
  assert (Hdb : dom (blobmaps h) ⊆ dom (blobmaps h')).
  { intros i Hi. apply elem_of_dom. rewrite (Hbf i Hi). by apply elem_of_dom. }
  assert (Hds : dom (slotmaps h) ⊆ dom (slotmaps h')).
  { intros i Hi. apply elem_of_dom. rewrite (Hsf i Hi). by apply elem_of_dom. }
  assert (Hsurv : forall x, live h' x -> x <> n -> survives h h' x).
  { intros x (c & Hc & Hst) Hne.
    destruct (chain_bound h' Hpar' x c Hc) as (Hle & _ & _).
    assert (Hxn : (x < n)%nat).
    { destruct (chain_head _ _ _ Hc) as [c' Ec].
      assert (Hxc : x ∈ c) by (rewrite Ec; by left).
      pose proof (chain_lookup _ _ _ _ Hc Hxc) as Hx.
      by destruct (Hold_l _ _ Hx Hne). }
    apply (survives_intro h h' x c Hc Hst).
    - intros y Hy. pose proof (Hle y Hy) as Hyx.
      rewrite (layer_at_old h h' d' y Hlay) by (fold n; lia).
      split; [apply lookup_lt_is_Some; fold n; lia | apply same_core_refl].
    - intros y Hy Hly. split.
      + destruct (storageData (layer_at h y)) as [s' |] eqn:Es; [| reflexivity].
        unfold slotmap_at. rewrite Hsf; [done |]. by apply (inv_dom_slots h Hinv y s').
      + intros i Hi. unfold blobmap_at. rewrite Hbf; [done |].
        by apply (inv_dom h Hinv y i). }
  apply (heap_inv_step h h' n Hinv Hpar' Hbot' Hdb Hds Hsurv).
  intros Hln. rewrite Hat.
  (* the chain of the new layer: the layer alone, or the layer on the
     chain of a surviving parent whose filter was copied *)
  assert (Hchain : forall c, chain h' n c ->
            c = [n] \/
            exists p c0 pd fp, c = n :: c0 /\ par = SnapDiff p /\
              chain h p c0 /\ live h p /\ (forall x, x ∈ c0 -> kept h h' x) /\
              layers h !! p = Some pd /\ diffed pd = Some fp /\
              o = origin pd /\ f0 = Filter_Copy fp).
  { intros c Hc. inversion Hc as [l0 d0 Hd0 Hp0 | l0 d0 p c0 Hd0 Hp0 Hcp]; subst;
      [by left | right].
    rewrite Hnew_l in Hd0. injection Hd0 as <-. simpl in Hp0.
    assert (Hlp : live h' p).
    { apply (live_sub h' n (n :: c0) p Hln Hc). right.
      destruct (chain_head _ _ _ Hcp) as [c1 ->]. by left. }
    destruct (Hpar' n d' p Hnew_l) as [Hpn _]; [by simpl |].
    destruct (Hsurv p Hlp) as (c1 & Hc1 & Hc1' & Hs1 & Hk1); [lia |].
    assert (c1 = c0) as -> by (by eapply chain_functional).
    unfold new_base in Hbase. rewrite Hp0 in Hbase.
    destruct (layers h !! p) as [pd |] eqn:Hlp0; [| discriminate].
    destruct (diffed pd) as [fp |] eqn:Hfp; [| discriminate].
    injection Hbase as <- <-.
    exists p, c0, pd, fp. split; [done |]. split; [done |]. split; [done |].
    split; [exists c0; by split |]. by repeat (split; [done |]). }
  split; [| split; [| split; [| split; [| split]]]].
  - split.
    + exists a. split; [done |]. intros (k & Hk).
      destruct (Hent k _ Hk) as (i & slots & [= <-] & _ & _ & Hia & _). done.
    + simpl. by eexists.
    + intros k r Hr. simpl in Hr. destruct (Hent k r Hr) as (i & slots & -> & _).
      by eexists.
    + exact Hinj.
  - intros i [Hi | (k & Hk)].
    + simpl in Hi. by injection Hi as <-.
    + simpl in Hk. destruct (Hent k _ Hk) as (i' & slots & [= <-] & _ & _ & _ & Hb).
      apply elem_of_dom. by eexists.
  - intros s' Hs'. simpl in Hs'. by injection Hs' as <-.
  - intros x Hsx Hne. pose proof (survives_kept _ _ _ Hsx) as Hk.
    pose proof (survives_live _ _ _ Hsx) as Hlx. split.
    + destruct Hk as ((_ & _ & _ & _ & _ & Hsto & _) & _). rewrite Hsto. simpl.
      intros E. apply Hs. by apply (inv_dom_slots h Hinv x s).
    + intros i Hi Hn. apply (kept_owns h h' x i Hk) in Hi.
      pose proof (inv_dom h Hinv x i Hlx Hi) as Hdom.
      destruct Hn as [Hn | (k & Hk')].
      * simpl in Hn. injection Hn as <-. by apply Ha.
      * simpl in Hk'. destruct (Hent k _ Hk') as (i' & slots & [= <-] & _ & Hni & _).
        by apply Hni.
  - intros c x Hc Hx.
    destruct (Hchain c Hc)
      as [-> | (p & c0 & pd & fp & -> & -> & Hc0 & Hlp & Hk0 & Hpd & Hfp & -> & ->)].
    + apply list_elem_of_singleton in Hx as ->. by rewrite Hat.
    + apply elem_of_cons in Hx as [-> | Hx]; [by rewrite Hat |].
      destruct (Hk0 x Hx) as ((-> & _) & _).
      rewrite (inv_origin h Hinv p c0 x Hlp Hc0 Hx).
      by rewrite (layer_at_Some _ _ _ Hpd).
  - destruct Hln as (c & Hc & Hst).
    set (f := bloom_storage h' (slotmap_at h' (Some s))
                (bloom_accounts (blobmap_at h' (Some a)) f0)).
    destruct (new_filter_spec h' (blobmap_at h' (Some a)) (slotmap_at h' (Some s)) f0)
      as (N1 & N2 & N3). fold f in N1, N2, N3.
    exists f, c. split; [by rewrite Hat |]. split; [exact Hc |].
    intros x Hx.
    assert (Hself : bloom_holds h' f n).
    { unfold bloom_holds. rewrite Hat. split.
      - intros k Hk. by apply N2.
      - intros a0 s0 Hk. simpl in Hk. unfold local_slot in Hk.
        destruct (slotmap_at h' (Some s) !! a0) as [slots |] eqn:Ea;
          [| by destruct Hk]. by eapply N3. }
    destruct (Hchain c Hc)
      as [-> | (p & c0 & pd & fp & -> & -> & Hc0 & Hlp & Hk0 & Hpd & Hfp & -> & ->)].
    + by apply list_elem_of_singleton in Hx as ->.
    + apply elem_of_cons in Hx as [-> | Hx]; [done |].
      destruct (inv_bloom h Hinv p Hlp) as (fq & c1 & Hf & Hc1 & Hb).
      rewrite (layer_at_Some _ _ _ Hpd), Hfp in Hf. injection Hf as <-.
      rewrite (chain_functional _ _ _ _ Hc1 Hc0) in Hb.
      destruct (kept_bloom_holds h h' fp x (Hk0 x Hx) (Hb x Hx)) as [B1 B2].
      split.
      * intros k Hk. apply N1. rewrite ContainsHash_Copy. by apply B1.
      * intros a0 s0 Hk. apply N1. rewrite ContainsHash_Copy. by apply B2.
Qed.

End BlockInvariant.

(** ** Flatten removes no map object *)

Section FlattenDom.
Context `{BF : BloomFilter} `{DL : DiskLayer} `{SC : SlimCodec} `{TU : Tuning}.

Lemma maps_Copy_dom (dst src : option nat) (h h' : heap) (r : outcome unit) :
  maps_Copy dst src h = (r, h') ->
  dom (blobmaps h) ⊆ dom (blobmaps h') /\ dom (slotmaps h) ⊆ dom (slotmaps h').
Proof.
  unfold maps_Copy. case_decide; [by intros [= _ <-] |].
  destruct dst as [l |]; intros [= _ <-]; [| done].
  split; [| done]. simpl. rewrite dom_insert_L. apply union_subseteq_r.
Qed.

Lemma flatten_storage_step_dom (ps : option nat) (a : Hash) (slots : option nat)
    (st : outcome unit * heap) :
  dom (blobmaps st.2) ⊆ dom (blobmaps (flatten_storage_step ps a slots st).2) /\
  dom (slotmaps st.2) ⊆ dom (slotmaps (flatten_storage_step ps a slots st).2).
Proof.
  destruct st as [[[] | |] h]; simpl; try done.
  destruct (slotmap_at h ps !! a) as [pslots |].
  - destruct (maps_Copy pslots slots h) as [r h'] eqn:E.
    by apply maps_Copy_dom in E.
  - destruct ps as [l |]; [| done]. split; [done |]. simpl.
    rewrite dom_insert_L. apply union_subseteq_r.
Qed.

Lemma flatten_storage_dom (ps cs : option nat) (h : heap) :
  dom (blobmaps h) ⊆ dom (blobmaps (flatten_storage ps cs h).2) /\
  dom (slotmaps h) ⊆ dom (slotmaps (flatten_storage ps cs h).2).
Proof.
  unfold flatten_storage.
  apply (map_fold_weak_ind (fun st _ =>
    dom (blobmaps h) ⊆ dom (blobmaps st.2) /\
    dom (slotmaps h) ⊆ dom (slotmaps st.2))); [done |].
  intros a slots m st _ [IH1 IH2].
  destruct (flatten_storage_step_dom ps a slots st) as [S1 S2].
  split; etrans; eauto.
Qed.

Lemma flatten_dom (fuel : nat) (dl : nat) (h h' : heap) (r : outcome nat) :
  flatten fuel dl h = (r, h') ->
  dom (blobmaps h) ⊆ dom (blobmaps h') /\ dom (slotmaps h) ⊆ dom (slotmaps h').
Proof.
  revert dl h h' r. induction fuel as [| fuel IH]; intros dl h h' r Hf.
  { by injection Hf as _ <-. }
  cbn [flatten] in Hf. destruct (layers h !! dl) as [d0 |]; [| by injection Hf as _ <-].
  destruct (parent d0) as [| disk | p]; try by injection Hf as _ <-.
  destruct (flatten fuel p h) as [[par | msg |] h1] eqn:Hrec;
    pose proof (IH _ _ _ _ Hrec) as [D1 D2]; try by injection Hf as _ <-.
  destruct (layers h1 !! par) as [pd |]; [| by injection Hf as _ <-].
  destruct (stale pd); [by injection Hf as _ <- |].
  set (h2 := update_layer par (set_stale true) h1) in Hf.
  destruct (layers h2 !! dl) as [d |]; [| by injection Hf as _ <-].
  destruct (maps_Copy (accountData pd) (accountData d) h2) as [rc h3] eqn:Hcopy.
  destruct (maps_Copy_dom _ _ _ _ _ Hcopy) as [C1 C2].
  destruct (flatten_storage_dom (storageData pd) (storageData d) h3) as [S1 S2].
  destruct rc as [[] | msg |]; try (injection Hf as _ <-; split; etrans; eauto).
  destruct (flatten_storage (storageData pd) (storageData d) h3) as [[[] | msg |] h4];
    simpl in S1, S2; unfold alloc_layer in Hf; injection Hf as _ <-; simpl;
    split; (etrans; [eassumption |]); (etrans; [eassumption |]); assumption.
Qed.

End FlattenDom.

(** ** Flatten keeps the invariant *)

Section FlattenInvariant.
Context `{BF : BloomFilter} `{DL : DiskLayer} `{SC : SlimCodec} `{TU : Tuning}.

Lemma chain_account_Some (h : heap) (c : list nat) (k : Hash) :
  is_Some (chain_account h c k) ->
  exists x, x ∈ c /\ is_Some (local_account h (accountData (layer_at h x)) k).
Proof.
  induction c as [| l c IH]; simpl; [by intros [? ?] |].
  destruct (local_account h (accountData (layer_at h l)) k) eqn:E.
  - intros _. exists l. split; [by left | by rewrite E].
  - intros H. destruct (IH H) as (x & Hx & Hs). exists x. split; [by right | done].
Qed.

Lemma chain_slot_Some (h : heap) (c : list nat) (a s : Hash) :
  is_Some (chain_slot h c a s) ->
  exists x, x ∈ c /\ is_Some (local_slot h (storageData (layer_at h x)) a s).
Proof.
  induction c as [| l c IH]; simpl; [by intros [? ?] |].
  destruct (local_slot h (storageData (layer_at h l)) a s) eqn:E.
  - intros _. exists l. split; [by left | by rewrite E].
  - intros H. destruct (IH H) as (x & Hx & Hs). exists x. split; [by right | done].
Qed.

(** The chain of a live layer of a store with the invariant: without
    repetition, well formed, pairwise apart, and no longer than the
    store. *)
Lemma heap_inv_live_chain (h : heap) (l : nat) (c : list nat) :
  heap_inv h -> live h l -> chain h l c ->
  NoDup c /\ chain_sep h c /\ (forall x, x ∈ c -> live h x) /\
  (length c <= length (layers h))%nat.
Proof.
  intros Hinv Hl Hc.
  destruct (chain_bound h (inv_parent h Hinv) l c Hc) as (_ & Hnd & Hlen).
  assert (Hlc : forall x, x ∈ c -> live h x) by (intros x Hx; by eapply live_sub).
  split; [done |]. split; [| split; [done |]].
  - split.
    + intros x Hx. apply (inv_wf h Hinv). by apply Hlc.
    + intros x y Hx Hy Hne. apply (inv_apart h Hinv); auto.
  - apply live_lookup, lookup_lt_Some in Hl. lia.
Qed.

Lemma heap_inv_flatten (h h' : heap) (fuel dl l' : nat) :
  heap_inv h -> flatten fuel dl h = (Ret l', h') -> heap_inv h'.
Proof.
  intros Hinv Hf.
  destruct (flatten_Ret_layers _ _ _ _ _ Hf) as (c & Hc & Hlen & Hcase).
  destruct Hcase as [(_ & _ & ->) | Hdeep]; [done |].
  destruct Hdeep as (b & db & d & new & d' & Hlen2 & Hlast & Hb & Hsb & Hd & Hl' & El'
                     & Enew & Hnew & Ho & Hpa & Hrt & Hst' & Had & Hsd & _ & _ & Hdf).
  pose proof (inv_parent h Hinv) as Hdec.
  pose proof (layer_at_Some _ _ _ Hb) as Hatb.
  pose proof (layer_at_Some _ _ _ Hd) as Hatd.
  assert (Hbc : b ∈ c) by (by apply last_Some_elem_of).
  assert (Hlive_c : forall x, x ∈ c -> stale (layer_at h x) = false).
  { apply (chain_live_bottom h Hdec dl c b Hc Hlast). by rewrite Hatb. }
  assert (Hdl : live h dl) by (exists c; by split).
  destruct (heap_inv_live_chain h dl c Hinv Hdl Hc) as (Hnd & Hsep & Hlc & _).
  assert (Hbot : forall b0, last c = Some b0 -> stale (layer_at h b0) = false).
  { intros b0 Hb0. apply Hlive_c. by apply last_Some_elem_of. }
  destruct (flatten_chain_spec h dl c Hc Hnd Hsep Hbot fuel Hlen)
    as (l2 & h2 & d2 & Hf2 & Hd2 & Hs2 & Hnp2 & Hkeep & Hrefs & Hacc & Hslot & Hwf2
        & Hown & Hbfr & Hsfr).
  rewrite Hf in Hf2. injection Hf2 as <- <-.
  assert (d2 = d') as ->.
  { rewrite Hl', app_assoc in Hd2.
    rewrite lookup_app_r in Hd2 by (rewrite length_app, length_alter; lia).
    rewrite length_app, length_alter, El', Nat.sub_diag in Hd2. by injection Hd2. }
  pose proof (layer_at_Some _ _ _ Hd2) as Hat'.
  destruct (flatten_dom _ _ _ _ _ Hf) as [Hdb Hds].
  destruct (Hrefs b Hlast) as [Hra Hrs].
  assert (Hnpb : forall q, parent db <> SnapDiff q) by (rewrite <- Hpa; exact Hnp2).
  assert (Hlook : forall x dx, layers h' !! x = Some dx ->
            ((x < length (layers h))%nat /\ x <> b /\ layers h !! x = Some dx) \/
            (stale dx = true /\ parent dx = parent db) \/
            (x = l' /\ dx = d')).
  { intros x dx Hx. rewrite Hl' in Hx.
    apply lookup_app_Some in Hx as [Hx | [Hge Hx]].
    - destruct (decide (x = b)) as [-> | Hne].
      + rewrite list_lookup_alter_eq, Hb in Hx. injection Hx as <-.
        right; left. by split.
      + rewrite list_lookup_alter_ne in Hx by done. left.
        split; [by eapply lookup_lt_Some | done].
    - rewrite length_alter in Hge, Hx.
      apply lookup_app_Some in Hx as [Hx | [Hge2 Hx]].
      + right; left. rewrite Forall_forall in Hnew. apply Hnew.
        by eapply list_elem_of_lookup_2.
      + apply list_lookup_singleton_Some in Hx as [Hz <-]. right; right.
        split; [lia | done]. }
  assert (Hpar' : forall x dx p, layers h' !! x = Some dx -> parent dx = SnapDiff p ->
                                 (p < x)%nat /\ stale dx = false).
  { intros x dx p Hx Hp. destruct (Hlook x dx Hx) as [(_ & _ & Hx0) | [[_ Hq] | [_ ->]]].
    - by apply (Hdec x dx p).
    - rewrite Hq in Hp. by destruct (Hnpb p).
    - by destruct (Hnp2 p). }
  assert (Hbot' : forall x dx, layers h' !! x = Some dx -> parent dx <> SnapNil).
  { intros x dx Hx. destruct (Hlook x dx Hx) as [(_ & _ & Hx0) | [[_ Hq] | [_ ->]]].
    - by apply (inv_bottom h Hinv x).
    - rewrite Hq. by apply (inv_bottom h Hinv b).
    - rewrite Hpa. by apply (inv_bottom h Hinv b). }
  assert (Hstale_b : stale (layer_at h' b) = true).
  { unfold layer_at. rewrite Hl'.
    rewrite lookup_app_l by (rewrite length_alter; by eapply lookup_lt_Some).
    by rewrite list_lookup_alter_eq, Hb. }
  (* a chain of live layers of the new store that is not the new layer *)
  assert (Hold_chain : forall x cx, chain h' x cx ->
            (forall y, y ∈ cx -> stale (layer_at h' y) = false) -> x <> l' ->
            chain h x cx /\
            forall y, y ∈ cx -> layers h !! y = Some (layer_at h' y) /\ y ∉ c).
  { intros x cx Hcx Hstx Hne.
    destruct (chain_bound h' Hpar' x cx Hcx) as (Hle & _ & _).
    assert (Hcase1 : forall y, y ∈ cx -> (y <= x)%nat -> (x < length (layers h))%nat ->
                               layers h !! y = Some (layer_at h' y)).
    { intros y Hy Hyx Hxn. pose proof (chain_lookup _ _ _ _ Hcx Hy) as Hly.
      destruct (Hlook _ _ Hly) as [(_ & _ & Hy0) | [[Hq _] | [-> _]]]; [done | |].
      - rewrite (Hstx y Hy) in Hq. discriminate.
      - lia. }
    assert (Hxcx : x ∈ cx).
    { destruct (chain_head _ _ _ Hcx) as [c' ->]. by left. }
    assert (Hxn : (x < length (layers h))%nat).
    { pose proof (chain_lookup _ _ _ _ Hcx Hxcx) as Hlx.
      destruct (Hlook _ _ Hlx) as [(Hlt & _) | [[Hq _] | [-> _]]]; [done | | done].
      rewrite (Hstx x Hxcx) in Hq. discriminate. }
    assert (Hall : forall y, y ∈ cx -> layers h !! y = Some (layer_at h' y)).
    { intros y Hy. apply Hcase1; [done | by apply Hle | done]. }
    assert (Hch : chain h x cx).
    { apply (chain_transfer h' h x cx Hcx). intros y Hy.
      exists (layer_at h' y). split; [by apply Hall | done]. }
    split; [done |]. intros y Hy. split; [by apply Hall |].
    intros Hyc. pose proof (chain_meet h x dl cx c y Hch Hc Hy Hyc) as Hm.
    rewrite Hlast in Hm. apply last_Some_elem_of in Hm.
    rewrite (Hstx b Hm) in Hstale_b. discriminate. }
  assert (Hsurv : forall x, live h' x -> x <> l' -> survives h h' x).
  { intros x (cx & Hcx & Hstx) Hne.
    destruct (Hold_chain x cx Hcx Hstx Hne) as [Hch Hall].
    apply (survives_intro h h' x cx Hcx Hstx).
    - intros y Hy. destruct (Hall y Hy) as [Hy0 _]. split; [by eexists |].
      rewrite (layer_at_Some _ _ _ Hy0). apply same_core_refl.
    - intros y Hy Hly. destruct (Hall y Hy) as [_ Hyc].
      assert (Hap : forall z, z ∈ c -> apart h (layer_at h y) (layer_at h z)).
      { intros z Hz. apply (inv_apart h Hinv); [done | by apply Hlc |].
        intros ->. by apply Hyc. }
      split.
      + destruct (storageData (layer_at h y)) as [s |] eqn:Es; [| reflexivity].
        apply Hsfr. intros z Hz E. destruct (Hap z Hz) as [Hne' _].
        apply Hne'. by rewrite Es, E.
      + intros i Hi. apply Hbfr. intros z Hz Hzi.
        destruct (Hap z Hz) as [_ Hno]. by apply (Hno i). }
  apply (heap_inv_step h h' l' Hinv Hpar' Hbot' Hdb Hds Hsurv).
  intros Hln.
  assert (Hnotin : forall x, survives h h' x -> x ∉ c).
  { intros x (cx & Hchx & _ & _ & Hkx) Hxc.
    destruct (chain_sub h dl c x Hc Hxc) as (cx' & Hcx' & Hlast' & _).
    rewrite (chain_functional _ _ _ _ Hcx' Hchx), Hlast in Hlast'.
    apply last_Some_elem_of in Hlast'.
    destruct (Hkx b Hlast') as ((_ & _ & _ & Hstb & _) & _).
    rewrite Hstale_b, Hatb, Hsb in Hstb. discriminate. }
  split; [| split; [| split; [| split; [| split]]]].
  - by rewrite Hat'.
  - intros i Hi. rewrite Hat' in Hi. destruct (Hown i Hi) as (z & Hz & Hzi).
    apply Hdb. apply (inv_dom h Hinv z i); [by apply Hlc | done].
  - intros s Hs. rewrite Hat', Hrs in Hs. apply Hds.
    apply (inv_dom_slots h Hinv b s); [by apply Hlc | done].
  - intros x Hsx Hne. pose proof (Hnotin x Hsx) as Hxc.
    pose proof (survives_kept _ _ _ Hsx) as Hk.
    pose proof (survives_live _ _ _ Hsx) as Hlx.
    assert (Hap : forall z, z ∈ c -> apart h (layer_at h x) (layer_at h z)).
    { intros z Hz. apply (inv_apart h Hinv); [done | by apply Hlc |].
      intros ->. by apply Hxc. }
    rewrite Hat'. split.
    + destruct Hk as ((_ & _ & _ & _ & _ & Hsto & _) & _). rewrite Hsto, Hrs.
      by destruct (Hap b Hbc).
    + intros i Hi Hi'. apply (kept_owns h h' x i Hk) in Hi.
      destruct (Hown i Hi') as (z & Hz & Hzi).
      destruct (Hap z Hz) as [_ Hno]. by apply (Hno i).
  - intros c' x Hc' Hx.
    inversion Hc' as [l0 d0 Hd0 Hp0 | l0 d0 p c0 Hd0 Hp0 Hcp]; subst.
    + by apply list_elem_of_singleton in Hx as ->.
    + rewrite Hd2 in Hd0. injection Hd0 as <-. by destruct (Hnp2 p).
  - destruct (inv_bloom h Hinv dl Hdl) as (f & c1 & Hfd & Hc1 & Hbl).
    rewrite (chain_functional _ _ _ _ Hc1 Hc) in Hbl. rewrite Hatd in Hfd.
    exists f, [l']. split; [by rewrite Hat', Hdf |].
    split; [by eapply chain_bottom |].
    intros x Hx. apply list_elem_of_singleton in Hx as ->.
    unfold bloom_holds. rewrite Hat'. split.
    + intros k Hk. rewrite Hacc in Hk.
      destruct (chain_account_Some h c k Hk) as (z & Hz & Hzk).
      by apply (proj1 (Hbl z Hz)).
    + intros a s Hk. rewrite Hslot in Hk.
      destruct (chain_slot_Some h c a s Hk) as (z & Hz & Hzk).
      by apply (proj2 (Hbl z Hz)).
Qed.

End FlattenInvariant.

(** ** Reachable stores have the invariant *)

Section ReachableStores.
Context `{BF : BloomFilter} `{DL : DiskLayer} `{SC : SlimCodec} `{TU : Tuning}.

Lemma not_live_empty (l : nat) : ~ live empty_heap l.
Proof. intros Hl. apply live_lookup in Hl. discriminate Hl. Qed.

Lemma heap_inv_empty : heap_inv empty_heap.
Proof.
  split; try (intros l d; intros; discriminate);
    try (intros l; intros; by destruct (not_live_empty l)).
Qed.

Lemma reachable_inv (h : heap) : reachable h -> heap_inv h.
Proof.
  induction 1 as [| h par rt acc sto l h' _ IH Hb | h fuel dl l' h' _ IH Hf
                  | h dl r h' _ IH Ha | h dl a r h' _ IH Hs].
  - apply heap_inv_empty.
  - by eapply heap_inv_apply_block.
  - by eapply heap_inv_flatten.
  - by eapply heap_inv_AccountList.
  - by eapply heap_inv_StorageList.
Qed.

(** A block on a disk layer, or on a diff layer that has a filter,
    returns. *)
Lemma apply_block_returns (h : heap) (par : snapshot) (rt : Hash)
    (accounts : gmap Hash blob) (storage : gmap Hash (gmap Hash blob)) :
  is_Some (new_base h par) ->
  (apply_block par rt accounts storage h).1 = Ret (length (layers h)).
Proof.
  intros [[o f0] Hbase]. unfold apply_block, make_blobmap.
  set (h1 := set_blobmap (fresh_blob h) accounts h).
  destruct (make_storage storage h1) as [s h2] eqn:Hms.
  destruct (make_storage_spec storage h1 h2 s Hms)
    as (Hl & _ & _ & _ & _ & _ & Hent & _).
  rewrite (newDiffLayer_exact par rt _ (Some s) h2 o f0).
  - simpl. by rewrite Hl.
  - rewrite <- Hbase. apply new_base_layers. by rewrite Hl.
  - intros k r Hr. destruct (Hent k r Hr) as (i & slots & -> & _). by eexists.
Qed.

Lemma live_extend (h h' : heap) (d' : diffLayer) (l : nat) :
  layers h' = layers h ++ [d'] -> live h l -> live h' l.
Proof.
  intros E (c & Hc & Hs).
  assert (Hsame : forall x, x ∈ c -> layer_at h' x = layer_at h x).
  { intros x Hx. apply (layer_at_old h h' d' x E).
    by eapply lookup_lt_Some, chain_lookup. }
  exists c. split.
  - apply (chain_transfer h h' l c Hc). intros x Hx. exists (layer_at h x).
    split; [| done]. rewrite E, lookup_app_l.
    + by eapply chain_lookup.
    + by eapply lookup_lt_Some, chain_lookup.
  - intros x Hx. rewrite (Hsame x Hx). by apply Hs.
Qed.

Lemma live_new (h h' : heap) (d' : diffLayer) :
  layers h' = layers h ++ [d'] -> stale d' = false ->
  (forall p, parent d' = SnapDiff p -> live h p) ->
  live h' (length (layers h)).
Proof.
  intros E Hst Hp.
  assert (Hd' : layers h' !! length (layers h) = Some d') by (rewrite E; apply lookup_last).
  pose proof (layer_at_Some _ _ _ Hd') as Hat.
  destruct (parent d') as [| disk | p] eqn:Hpar.
  1,2: exists [length (layers h)]; split;
    [eapply chain_bottom; [exact Hd' | intros q; congruence]
    | intros x Hx; apply list_elem_of_singleton in Hx as ->; by rewrite Hat].
  destruct (live_extend h h' d' p E (Hp p eq_refl)) as (c & Hc & Hs).
  exists (length (layers h) :: c). split; [by eapply chain_step |].
  intros x Hx. apply elem_of_cons in Hx as [-> | Hx]; [by rewrite Hat | by apply Hs].
Qed.

(** A store built by updates alone is reachable, and every layer of it
    is live. *)
Lemma built_spec (h : heap) :
  built h -> reachable h /\ forall l, (l < length (layers h))%nat -> live h l.
Proof.
  assert (Hstep : forall h par rt accounts storage,
    reachable h -> (forall l, (l < length (layers h))%nat -> live h l) ->
    match par with
    | SnapDisk _ => True
    | SnapDiff p => (p < length (layers h))%nat
    | SnapNil => False
    end ->
    let h' := (apply_block par rt accounts storage h).2 in
    reachable h' /\ forall l, (l < length (layers h'))%nat -> live h' l).
  { intros h0 par rt accounts storage Hr Hl Hpar h'.
    assert (Hbase : is_Some (new_base h0 par)).
    { destruct par as [| disk | p]; [done | by eexists |]. simpl.
      destruct (inv_bloom h0 (reachable_inv h0 Hr) p (Hl p Hpar)) as (f & _ & Hf & _).
      rewrite (live_lookup h0 p (Hl p Hpar)), Hf. by eexists. }
    pose proof (outcome_pair_eta _ _ (apply_block_returns h0 par rt accounts storage Hbase))
      as Hret. fold h' in Hret.
    destruct (apply_block_Ret _ _ _ _ _ _ _ Hret)
      as (a & s & o & f0 & _ & _ & Hlay & _).
    split; [by eapply reachable_block |].
    intros l Hlt. rewrite Hlay, length_app in Hlt. simpl in Hlt.
    destruct (decide (l = length (layers h0))) as [-> | Hne].
    - apply (live_new h0 h' _ Hlay); [done |]. simpl. intros p ->. by apply Hl.
    - apply (live_extend h0 h' _ l Hlay). apply Hl. lia. }
  induction 1 as [| h disk rt accounts storage _ [IH1 IH2]
                  | h p rt accounts storage _ [IH1 IH2] Hp].
  - split; [apply reachable_empty |]. simpl. intros l Hl. lia.
  - by apply Hstep.
  - by apply Hstep.
Qed.



End ReachableStores.

(** ** Flatten is invisible to the reads *)

Section ReachableClaims.
Context `{BF : BloomFilter} `{DL : DiskLayer} `{SC : SlimCodec} `{TU : Tuning}.


End ReachableClaims.

Lemma two_layer_heap_built : built two_layer_heap.
Proof.
  unfold two_layer_heap. apply built_diff.
  - unfold one_layer_heap. apply built_disk, built_empty.
  - vm_compute. lia.
Qed.



(** ** Layer records under every operation *)

Section Evolution.
Context `{BF : BloomFilter} `{DL : DiskLayer} `{SC : SlimCodec} `{TU : Tuning}.

(** A returned flatten keeps every layer that was there, but for the
    stale flag of a layer that sits on no diff layer. *)
Lemma flatten_keeps (fuel dl l' : nat) (h h' : heap) :
  flatten fuel dl h = (Ret l', h') ->
  forall x d0, layers h !! x = Some d0 ->
    layers h' !! x = Some d0 \/
    (layers h' !! x = Some (set_stale true d0) /\ forall q, parent d0 <> SnapDiff q).
Proof.
  intros Hf x d0 Hx.
  destruct (flatten_Ret_layers _ _ _ _ _ Hf) as (c & Hc & _ & Hcase).
  destruct Hcase as [(_ & _ & ->) | Hdeep]; [by left |].
  destruct Hdeep as (b & db & d & new & d' & _ & Hlast & Hb & _ & _ & Hl' & _).
  destruct (chain_last_bottom _ _ _ Hc) as (b1 & db1 & Hlast1 & Hb1 & Hnp1).
  rewrite Hlast in Hlast1. injection Hlast1 as <-.
  rewrite Hb in Hb1. injection Hb1 as <-.
  rewrite Hl', lookup_app_l by (rewrite length_alter; by eapply lookup_lt_Some).
  destruct (decide (x = b)) as [-> | Hne].
  - right. rewrite list_lookup_alter_eq, Hx. rewrite Hb in Hx. injection Hx as <-.
    by split.
  - left. by rewrite list_lookup_alter_ne.
Qed.

(** The layers a returned flatten appended sit on no diff layer. *)
Lemma flatten_appended (fuel dl l' : nat) (h h' : heap) :
  flatten fuel dl h = (Ret l', h') ->
  forall x dx, layers h' !! x = Some dx -> (length (layers h) <= x)%nat ->
               forall q, parent dx <> SnapDiff q.
Proof.
  intros Hf x dx Hx Hge.
  destruct (flatten_Ret_layers _ _ _ _ _ Hf) as (c & Hc & _ & Hcase).
  destruct Hcase as [(_ & _ & ->) | Hdeep].
  { apply lookup_lt_Some in Hx. lia. }
  destruct Hdeep as (b & db & d & new & d' & _ & Hlast & Hb & _ & _ & Hl' & _ & _
                     & Hnew & _ & Hpa & _).
  destruct (chain_last_bottom _ _ _ Hc) as (b1 & db1 & Hlast1 & Hb1 & Hnp1).
  rewrite Hlast in Hlast1. injection Hlast1 as <-.
  rewrite Hb in Hb1. injection Hb1 as <-.
  rewrite Hl', lookup_app_r in Hx by (rewrite length_alter; lia).
  apply lookup_app_Some in Hx as [Hx | [_ Hx]].
  - rewrite Forall_forall in Hnew.
    destruct (Hnew dx) as [_ ->]; [by eapply list_elem_of_lookup_2 | done].
  - apply list_lookup_singleton_Some in Hx as [_ <-]. by rewrite Hpa.
Qed.


Lemma shape_empty : shape empty_heap.
Proof. split; intros l d; intros; discriminate. Qed.

Lemma shape_maps (h h' : heap) : layers h' = layers h -> shape h -> shape h'.
Proof.
  intros E [S1 S2]. split.
  - intros l d p. rewrite E. apply S1.
  - intros l d p pd f fp. rewrite E. apply S2.
Qed.

Lemma shape_newDiffLayer (h h' : heap) (par : snapshot) (rt : Hash)
    (acc sto : option nat) (l : nat) :
  shape h -> newDiffLayer par rt acc sto h = (Ret l, h') -> shape h'.
Proof.
  intros [S1 S2] Hret.
  destruct (newDiffLayer_Ret _ _ _ _ _ _ _ Hret) as (o & f0 & Hbase & -> & ->).
  set (d' := new_layer h par rt acc sto o f0).
  assert (Hlook : forall x dx,
            (layers h ++ [d']) !! x = Some dx ->
            layers h !! x = Some dx \/ (x = length (layers h) /\ dx = d')).
  { intros x dx Hx. apply lookup_app_Some in Hx as [Hx | [Hge Hx]]; [by left |].
    apply list_lookup_singleton_Some in Hx as [Hz <-]. right. split; [lia | done]. }
  assert (Hpar : forall p, par = SnapDiff p ->
            exists pd fp, layers h !! p = Some pd /\ diffed pd = Some fp /\
                          f0 = Filter_Copy fp).
  { intros p ->. unfold new_base in Hbase.
    destruct (layers h !! p) as [pd |]; [| discriminate].
    destruct (diffed pd) as [fp |] eqn:Hfp; [| discriminate].
    injection Hbase as _ <-. by exists pd, fp. }
  split; cbn [layers].
  - intros x dx p Hx Hp. destruct (Hlook x dx Hx) as [Hx0 | [-> ->]].
    + by apply (S1 x dx p).
    + simpl in Hp. destruct (Hpar p Hp) as (pd & fp & Hpd & _).
      split; [by eapply lookup_lt_Some | done].
  - intros x dx p pd f fp Hx Hp Hpd Hf Hfp y Hy.
    destruct (Hlook x dx Hx) as [Hx0 | [-> ->]].
    + destruct (S1 x dx p Hx0 Hp) as [Hlt _].
      rewrite lookup_app_l in Hpd by (apply lookup_lt_Some in Hx0; lia).
      by apply (S2 x dx p pd f fp).
    + simpl in Hp, Hf. destruct (Hpar p Hp) as (pd0 & fp0 & Hpd0 & Hfp0 & ->).
      rewrite lookup_app_l in Hpd by (by eapply lookup_lt_Some).
      rewrite Hpd0 in Hpd. injection Hpd as <-.
      rewrite Hfp0 in Hfp. injection Hfp as <-. injection Hf as <-.
      apply new_filter_spec. by rewrite ContainsHash_Copy.
Qed.

Lemma shape_flatten (h h' : heap) (fuel dl l' : nat) :
  shape h -> flatten fuel dl h = (Ret l', h') -> shape h'.
Proof.
  intros [S1 S2] Hf.
  assert (Hback : forall x dx p, layers h' !! x = Some dx -> parent dx = SnapDiff p ->
                                 layers h !! x = Some dx).
  { intros x dx p Hx Hp.
    destruct (decide (x < length (layers h))%nat) as [Hlt | Hge].
    - apply lookup_lt_is_Some in Hlt as [d0 Hd0].
      destruct (flatten_keeps _ _ _ _ _ Hf x d0 Hd0) as [Hk | [Hk Hnp]];
        rewrite Hk in Hx; injection Hx as <-; [done |].
      by destruct (Hnp p).
    - by destruct (flatten_appended _ _ _ _ _ Hf x dx Hx ltac:(lia) p). }
  split.
  - intros x dx p Hx Hp. apply (S1 x dx p); [by eapply Hback | done].
  - intros x dx p pd f fp Hx Hp Hpd Hfd Hfp y Hy.
    pose proof (Hback x dx p Hx Hp) as Hx0.
    destruct (S1 x dx p Hx0 Hp) as [Hlt _].
    destruct (lookup_lt_is_Some_2 (layers h) p) as [pd0 Hpd0].
    { apply lookup_lt_Some in Hx0. lia. }
    assert (Hfp0 : diffed pd0 = Some fp).
    { destruct (flatten_keeps _ _ _ _ _ Hf p pd0 Hpd0) as [Hk | [Hk _]];
        rewrite Hk in Hpd; injection Hpd as <-; done. }
    by apply (S2 x dx p pd0 f fp).
Qed.

Lemma shape_core (h h' : heap) :
  shape h -> length (layers h') = length (layers h) ->
  (forall l, same_core (layer_at h l) (layer_at h' l)) -> shape h'.
Proof.
  intros [S1 S2] El Hcore.
  assert (Hback : forall l d, layers h' !! l = Some d ->
            layers h !! l = Some (layer_at h l) /\ same_core (layer_at h l) d).
  { intros l d Hd. split.
    - apply lookup_layer_at, lookup_lt_is_Some. rewrite <- El.
      by eapply lookup_lt_Some.
    - rewrite <- (layer_at_Some _ _ _ Hd). apply Hcore. }
  split.
  - intros l d p Hd Hp. destruct (Hback l d Hd) as [Hl (_ & Hpar & _ & Hst & _)].
    rewrite Hpar in Hp. rewrite Hst. by apply (S1 l _ p Hl).
  - intros l d p pd f fp Hd Hp Hpd Hf Hfp.
    destruct (Hback l d Hd) as [Hl (_ & Hpar & _ & _ & _ & _ & Hdf)].
    destruct (Hback p pd Hpd) as [Hlp (_ & _ & _ & _ & _ & _ & Hdfp)].
    rewrite Hpar in Hp. rewrite Hdf in Hf. rewrite Hdfp in Hfp.
    by apply (S2 l _ p _ f fp Hl Hp Hlp).
Qed.

Lemma shape_AccountList (h h' : heap) (dl : nat) (r : outcome (slice Hash)) :
  shape h -> AccountList dl h = (r, h') -> shape h'.
Proof.
  intros Hs. unfold AccountList.
  destruct (layers h !! dl) as [d |]; [| by intros [= _ <-]].
  destruct (accountList d); [by intros [= _ <-] |].
  intros [= _ <-]. apply (shape_core h); [done | |].
  - unfold update_layer; simpl. by rewrite length_alter.
  - intros l. apply layer_at_update_core. intros d0. by repeat split.
Qed.

Lemma shape_StorageList (h h' : heap) (dl : nat) (a : Hash)
    (r : outcome (slice Hash)) :
  shape h -> StorageList dl a h = (r, h') -> shape h'.
Proof.
  intros Hs. unfold StorageList.
  destruct (layers h !! dl) as [d |]; [| by intros [= _ <-]].
  destruct (slotmap_at h (storageData d) !! a); [| by intros [= _ <-]].
  destruct (storageList d !! a); [by intros [= _ <-] |].
  intros [= _ <-]. apply (shape_core h); [done | |].
  - unfold update_layer; simpl. by rewrite length_alter.
  - intros l. apply layer_at_update_core. intros d0. by repeat split.
Qed.

Lemma evolves_shape (h : heap) : evolves h -> shape h.
Proof.
  induction 1 as [| h h' _ IH E | h par rt acc sto l h' _ IH Hn
                  | h fuel dl l' h' _ IH Hf | h dl r h' _ IH Ha
                  | h dl a r h' _ IH Hs].
  - apply shape_empty.
  - by apply (shape_maps h).
  - by eapply shape_newDiffLayer.
  - by eapply shape_flatten.
  - by eapply shape_AccountList.
  - by eapply shape_StorageList.
Qed.

(** The stores of the producer are among them. *)
Lemma reachable_evolves (h : heap) : reachable h -> evolves h.
Proof.
  induction 1 as [| h par rt acc sto l h' _ IH Hb | h fuel dl l' h' _ IH Hf
                  | h dl r h' _ IH Ha | h dl a r h' _ IH Hs].
  - apply evolves_empty.
  - unfold apply_block, make_blobmap in Hb.
    destruct (make_storage sto _) as [s h2] eqn:Hms.
    destruct (make_storage_spec _ _ _ _ Hms) as (Hl & _).
    eapply evolves_new; [| exact Hb]. by apply (evolves_maps h).
  - by eapply evolves_flatten.
  - by eapply evolves_AccountList.
  - by eapply evolves_StorageList.
Qed.

End Evolution.

(** ** Stale flags and filters in every store *)

Section EvolvedClaims.
Context `{BF : BloomFilter} `{DL : DiskLayer} `{SC : SlimCodec} `{TU : Tuning}.

(** C10, for every depth of the chain and whatever maps the layers were
    handed. In a store the operations have produced, a returned flatten
    on a layer [dl] whose parent [P] is a diff layer leaves the record of
    [dl] as it was, with the stale flag false: a reader that holds [dl]
    passes the stale check of [dl], and a key that the filter and the
    maps of [dl] hold is answered from these maps. The returned layer is
    a new one with the flag false and no sorted-key cache. The flag is
    set on the bottom layer [b] of the chain of [P] and on the layers
    the flatten allocated apart from the returned one; every other
    layer that was there keeps its record. [b] is [P] when [P] sits on
    no diff layer; otherwise [b] is not [P] and the flag of [P] stays
    false. *)
Theorem flatten_stale_frame (fuel : nat) (dl l' P : loc) (d : diffLayer)
    (h h' : heap) :
  evolves h ->
  layers h !! dl = Some d -> parent d = SnapDiff P ->
  flatten fuel dl h = (Ret l', h') ->
  stale d = false /\ layers h' !! dl = Some d /\
  (forall fuel' k v f,
     diffed d = Some f ->
     Filter_ContainsHash f (accountBloomHash offsets k) = true ->
     blobmap_at h' (accountData d) !! k = Some v ->
     AccountRLP (S fuel') h' dl k = Ret (v, None)) /\
  (forall fuel' a s slots v f,
     diffed d = Some f ->
     Filter_ContainsHash f (storageBloomHash offsets a s) = true ->
     slotmap_at h' (storageData d) !! a = Some slots ->
     blobmap_at h' slots !! s = Some v ->
     Storage (S fuel') h' dl a s = Ret (v, None)) /\
  (length (layers h) <= l')%nat /\
  (exists d', layers h' !! l' = Some d' /\ stale d' = false /\
              accountList d' = None /\ storageList d' = ∅) /\
  exists b c,
    chain h P c /\ last c = Some b /\ b <> dl /\
    layer_stale h b = Some false /\ layer_stale h' b = Some true /\
    (forall x, x <> b -> (x < length (layers h))%nat ->
               layers h' !! x = layers h !! x) /\
    (forall x, (length (layers h) <= x)%nat -> x <> l' -> is_Some (layers h' !! x) ->
               layer_stale h' x = Some true) /\
    (forall dP, layers h !! P = Some dP -> (forall q, parent dP <> SnapDiff q) ->
                b = P) /\
    (forall dP q, layers h !! P = Some dP -> parent dP = SnapDiff q ->
                  b <> P /\ layer_stale h' P = Some false).
Proof.
  intros He Hd Hp Hf.
  destruct (evolves_shape h He) as [S1 _].
  destruct (S1 dl d P Hd Hp) as [_ Hsd].
  destruct (flatten_old_layers _ _ _ _ _ _ _ Hd Hp Hf)
    as (c & b & db & Hc & Hlen & Hlast & Hbne & Hb & Hsb & Hnp & Hfresh & Hold & Hnew
        & d' & Hd' & Hfields).
  assert (Hd1 : layers h' !! dl = Some d).
  { rewrite (Hold _ _ Hd). by rewrite decide_False. }
  split; [done |]. split; [done |]. split; [| split].
  - intros fuel' k v f Hdf Hk Hv. unfold AccountRLP. rewrite Hd1, Hsd, Hdf, Hk.
    simpl. by rewrite Hd1, Hsd, Hv.
  - intros fuel' a s slots v f Hdf Hk Ha Hv. unfold Storage.
    rewrite Hd1, Hsd, Hdf, Hk. simpl. by rewrite Hd1, Hsd, Ha, Hv.
  - split; [done |]. split.
    { exists d'. destruct Hfields as (_ & _ & _ & Hs' & _ & _ & Hal & Hsl & _). done. }
    exists b, c. split; [done |]. split; [done |]. split; [done |].
    split; [unfold layer_stale; by rewrite Hb; simpl; rewrite Hsb |].
    split; [unfold layer_stale; rewrite (Hold _ _ Hb); by rewrite decide_True |].
    split; [| split; [| split]].
    + intros x Hx Hlt. apply lookup_lt_is_Some in Hlt as [dx Hdx].
      rewrite (Hold _ _ Hdx), Hdx. by rewrite decide_False.
    + intros x Hge Hne [dx Hdx]. unfold layer_stale. rewrite Hdx. simpl.
      by rewrite (Hnew x dx Hge Hne Hdx).
    + intros dP HdP HnpP.
      assert (Hc' : chain h P [P]) by (by eapply chain_bottom).
      rewrite (chain_functional _ _ _ _ Hc Hc') in Hlast. by injection Hlast.
    + intros dP q HdP HpP.
      assert (Hne : b <> P).
      { intros ->. rewrite Hb in HdP. injection HdP as ->. by destruct (Hnp q). }
      split; [done |]. unfold layer_stale. rewrite (Hold _ _ HdP).
      rewrite decide_False by done. simpl. by destruct (S1 P dP q HdP HpP) as [_ ->].
Qed.


End EvolvedClaims.

Lemma three_layer_heap_built : built three_layer_heap.
Proof.
  unfold three_layer_heap. apply built_diff; [apply two_layer_heap_built |].
  vm_compute. lia.
Qed.

(** In [three_layer_heap] the parent of layer 2 is layer 1, which sits
    on layer 0. After the flatten of layer 2 the flags of layer 2 and of
    its parent 1 are false, the bottom layer 0 and the intermediate
    merged layer 3 are stale, and the returned layer 4 is not. *)
Lemma flatten_stale_frame_witness :
  layer_stale (flatten 3 2%nat three_layer_heap).2 2%nat = Some false /\
  layer_stale (flatten 3 2%nat three_layer_heap).2 1%nat = Some false /\
  layer_stale (flatten 3 2%nat three_layer_heap).2 0%nat = Some true /\
  layer_stale (flatten 3 2%nat three_layer_heap).2 3%nat = Some true /\
  layer_stale (flatten 3 2%nat three_layer_heap).2 4%nat = Some false.
Proof.
  pose proof (reachable_evolves _ (proj1 (built_spec _ three_layer_heap_built))) as He.
  assert (Hd : layers three_layer_heap !! 2%nat = Some (layer_at three_layer_heap 2%nat))
    by (apply layer_at_lookup; vm_compute; reflexivity).
  assert (Hp : parent (layer_at three_layer_heap 2%nat) = SnapDiff 1%nat)
    by (vm_compute; reflexivity).
  assert (Hf : flatten 3 2%nat three_layer_heap
               = (Ret 4%nat, (flatten 3 2%nat three_layer_heap).2))
    by (apply outcome_pair_eta; vm_compute; reflexivity).
  assert (Hd1 : layers three_layer_heap !! 1%nat = Some (layer_at three_layer_heap 1%nat))
    by (apply layer_at_lookup; vm_compute; reflexivity).
  assert (Hp1 : parent (layer_at three_layer_heap 1%nat) = SnapDiff 0%nat)
    by (vm_compute; reflexivity).
  assert (Hd0 : layers three_layer_heap !! 0%nat = Some (layer_at three_layer_heap 0%nat))
    by (apply layer_at_lookup; vm_compute; reflexivity).
  assert (Hp0 : parent (layer_at three_layer_heap 0%nat) = SnapDisk disk0)
    by (vm_compute; reflexivity).
  assert (Hc' : chain three_layer_heap 1%nat [1%nat; 0%nat]).
  { eapply chain_step; [exact Hd1 | exact Hp1 |].
    eapply chain_bottom; [exact Hd0 |]. intros q Hq. rewrite Hp0 in Hq. discriminate Hq. }
  assert (Hlen : length (layers three_layer_heap) = 3%nat) by (vm_compute; reflexivity).
  assert (Hlen' : length (layers (flatten 3 2%nat three_layer_heap).2) = 5%nat)
    by (vm_compute; reflexivity).
  destruct (flatten_stale_frame 3 2%nat 4%nat 1%nat _ _ _ He Hd Hp Hf)
    as (Hsd & Hd2 & _ & _ & _ & (d' & Hd' & Hs' & _) & b & c & Hc & Hlast & _ & _
        & Hb' & _ & Hnew & _ & HP).
  rewrite (chain_functional _ _ _ _ Hc Hc') in Hlast. injection Hlast as <-.
  split; [| split; [| split; [| split]]].
  - unfold layer_stale. rewrite Hd2. simpl. by rewrite Hsd.
  - exact (proj2 (HP _ 0%nat Hd1 Hp1)).
  - exact Hb'.
  - apply Hnew; [rewrite Hlen; lia | lia |].
    apply lookup_lt_is_Some. rewrite Hlen'. lia.
  - unfold layer_stale. rewrite Hd'. simpl. by rewrite Hs'.
Defined.



(** ** Further properties of the diff layer *)

Section FurtherProperties.
Context `{BF : BloomFilter} `{DL : DiskLayer} `{SC : SlimCodec} `{TU : Tuning}.

(** *** The sorted key views are caches *)

Lemma lookup_same_core (h h' : heap) (l : nat) :
  length (layers h') = length (layers h) ->
  (forall x, same_core (layer_at h x) (layer_at h' x)) ->
  (layers h !! l = None /\ layers h' !! l = None) \/
  (exists d d', layers h !! l = Some d /\ layers h' !! l = Some d' /\ same_core d d').
Proof.
  intros El Hc. destruct (layers h !! l) as [d |] eqn:Hd.
  - right. destruct (lookup_lt_is_Some_2 (layers h') l) as [d' Hd'].
    { rewrite El. by eapply lookup_lt_Some. }
    exists d, d'. split; [done |]. split; [done |].
    specialize (Hc l).
    by rewrite (layer_at_Some _ _ _ Hd), (layer_at_Some _ _ _ Hd') in Hc.
  - left. split; [done |]. apply lookup_ge_None. rewrite El. by apply lookup_ge_None.
Qed.

Lemma accountRLP_same_core (h h' : heap) :
  blobmaps h' = blobmaps h -> length (layers h') = length (layers h) ->
  (forall x, same_core (layer_at h x) (layer_at h' x)) ->
  forall fuel l hash, accountRLP fuel h' l hash = accountRLP fuel h l hash.
Proof.
  intros Eb El Hc fuel. induction fuel as [| fuel IH]; intros l hash; [done |].
  cbn [accountRLP].
  destruct (lookup_same_core h h' l El Hc) as [[-> ->] | (d & d' & -> & -> & Hs)];
    [done |].
  destruct Hs as (_ & Hp & _ & Hst & Ha & _ & _).
  rewrite Hst, Ha, Hp, (blobmap_at_same_blobmaps h h' _ Eb).
  destruct (stale d); [done |].
  destruct (blobmap_at h (accountData d) !! hash); [done |].
  destruct (parent d); first [done | apply IH].
Qed.

Lemma storage_same_core (h h' : heap) :
  blobmaps h' = blobmaps h -> slotmaps h' = slotmaps h ->
  length (layers h') = length (layers h) ->
  (forall x, same_core (layer_at h x) (layer_at h' x)) ->
  forall fuel l a s, storage fuel h' l a s = storage fuel h l a s.
Proof.
  intros Eb Es El Hc fuel. induction fuel as [| fuel IH]; intros l a s; [done |].
  cbn [storage].
  destruct (lookup_same_core h h' l El Hc) as [[-> ->] | (d & d' & -> & -> & Hs)];
    [done |].
  destruct Hs as (_ & Hp & _ & Hst & _ & Hsd & _).
  rewrite Hst, Hsd, Hp, (slotmap_at_same_slotmaps h h' _ Es).
  destruct (stale d); [done |].
  destruct (slotmap_at h (storageData d) !! a) as [slots |].
  - rewrite (blobmap_at_same_blobmaps h h' _ Eb).
    destruct (blobmap_at h slots !! s); [done |].
    destruct (parent d); first [done | apply IH].
  - destruct (parent d); first [done | apply IH].
Qed.

Lemma reads_same_core (h h' : heap) :
  blobmaps h' = blobmaps h -> slotmaps h' = slotmaps h ->
  length (layers h') = length (layers h) ->
  (forall x, same_core (layer_at h x) (layer_at h' x)) ->
  forall fuel l,
    (forall hash, AccountRLP fuel h' l hash = AccountRLP fuel h l hash /\
                  Account fuel h' l hash = Account fuel h l hash) /\
    (forall a s, Storage fuel h' l a s = Storage fuel h l a s).
Proof.
  intros Eb Es El Hc fuel l.
  assert (HA : forall hash, AccountRLP fuel h' l hash = AccountRLP fuel h l hash).
  { intros hash. unfold AccountRLP.
    destruct (lookup_same_core h h' l El Hc) as [[-> ->] | (d & d' & -> & -> & Hs)];
      [done |].
    destruct Hs as (Ho & _ & _ & Hst & _ & _ & Hf).
    rewrite Hst, Hf, Ho. by rewrite (accountRLP_same_core h h' Eb El Hc). }
  split.
  - intros hash. split; [apply HA |]. unfold Account. by rewrite HA.
  - intros a s. unfold Storage.
    destruct (lookup_same_core h h' l El Hc) as [[-> ->] | (d & d' & -> & -> & Hs)];
      [done |].
    destruct Hs as (Ho & _ & _ & Hst & _ & _ & Hf).
    rewrite Hst, Hf, Ho. by rewrite (storage_same_core h h' Eb Es El Hc).
Qed.

Lemma update_layer_core (h : heap) (dl : nat) (f : diffLayer -> diffLayer) :
  (forall d, same_core d (f d)) ->
  blobmaps (update_layer dl f h) = blobmaps h /\
  slotmaps (update_layer dl f h) = slotmaps h /\
  length (layers (update_layer dl f h)) = length (layers h) /\
  forall x, same_core (layer_at h x) (layer_at (update_layer dl f h) x).
Proof.
  intros Hf. split; [done |]. split; [done |]. split.
  - unfold update_layer; simpl. by rewrite length_alter.
  - intros x. by apply layer_at_update_core.
Qed.

Lemma heap_core_refl (h : heap) :
  blobmaps h = blobmaps h /\ slotmaps h = slotmaps h /\
  length (layers h) = length (layers h) /\
  forall x, same_core (layer_at h x) (layer_at h x).
Proof. repeat split; reflexivity. Qed.

Lemma AccountList_core (h : heap) (dl : nat) :
  blobmaps (AccountList dl h).2 = blobmaps h /\
  slotmaps (AccountList dl h).2 = slotmaps h /\
  length (layers (AccountList dl h).2) = length (layers h) /\
  forall x, same_core (layer_at h x) (layer_at (AccountList dl h).2 x).
Proof.
  unfold AccountList.
  destruct (layers h !! dl) as [d |]; [| apply heap_core_refl].
  destruct (accountList d); [apply heap_core_refl |].
  cbn [snd]. apply update_layer_core. intros d0. by repeat split.
Qed.

Lemma StorageList_core (h : heap) (dl : nat) (a : Hash) :
  blobmaps (StorageList dl a h).2 = blobmaps h /\
  slotmaps (StorageList dl a h).2 = slotmaps h /\
  length (layers (StorageList dl a h).2) = length (layers h) /\
  forall x, same_core (layer_at h x) (layer_at (StorageList dl a h).2 x).
Proof.
  unfold StorageList.
  destruct (layers h !! dl) as [d |]; [| apply heap_core_refl].
  destruct (slotmap_at h (storageData d) !! a); [| apply heap_core_refl].
  destruct (storageList d !! a); [apply heap_core_refl |].
  cbn [snd]. apply update_layer_core. intros d0. by repeat split.
Qed.

(** X1. The sorted key views are caches and nothing else: after
    [AccountList] or [StorageList] on any layer, whatever they returned,
    every point read of every layer ([AccountRLP], [Account], [Storage])
    answers as before, and so do [Root], [Parent] and [Stale]. *)
Theorem key_views_keep_reads (h : heap) (dl : loc) (accountHash : Hash)
    (fuel : nat) (l : loc) :
  (forall hash,
      AccountRLP fuel (AccountList dl h).2 l hash = AccountRLP fuel h l hash /\
      Account fuel (AccountList dl h).2 l hash = Account fuel h l hash /\
      AccountRLP fuel (StorageList dl accountHash h).2 l hash
        = AccountRLP fuel h l hash /\
      Account fuel (StorageList dl accountHash h).2 l hash = Account fuel h l hash) /\
  (forall a s,
      Storage fuel (AccountList dl h).2 l a s = Storage fuel h l a s /\
      Storage fuel (StorageList dl accountHash h).2 l a s = Storage fuel h l a s) /\
  Root l (AccountList dl h).2 = Root l h /\
  Parent l (AccountList dl h).2 = Parent l h /\
  Stale l (AccountList dl h).2 = Stale l h /\
  Root l (StorageList dl accountHash h).2 = Root l h /\
  Parent l (StorageList dl accountHash h).2 = Parent l h /\
  Stale l (StorageList dl accountHash h).2 = Stale l h.
Proof.
  destruct (AccountList_core h dl) as (Eb1 & Es1 & El1 & Hc1).
  destruct (StorageList_core h dl accountHash) as (Eb2 & Es2 & El2 & Hc2).
  destruct (reads_same_core h _ Eb1 Es1 El1 Hc1 fuel l) as [HA1 HS1].
  destruct (reads_same_core h _ Eb2 Es2 El2 Hc2 fuel l) as [HA2 HS2].
  split; [| split].
  - intros hash. destruct (HA1 hash), (HA2 hash). by repeat split.
  - intros a s. split; [apply HS1 | apply HS2].
  - unfold Root, Parent, Stale.
    destruct (lookup_same_core h _ l El1 Hc1)
      as [[E1 ->] | (d & d1 & E1 & -> & (_ & Hp1 & Hr1 & Hst1 & _))];
    destruct (lookup_same_core h _ l El2 Hc2)
      as [[E2 ->] | (d0 & d2 & E2 & -> & (_ & Hp2 & Hr2 & Hst2 & _))];
      rewrite E1 in E2 |- *; try discriminate E2; [done |].
    injection E2 as <-. by rewrite Hp1, Hr1, Hst1, Hp2, Hr2, Hst2.
Qed.

(** *** The sorted key views themselves *)

(** X2. First call of [AccountList] on a layer: it returns the keys of
    the account map of the layer, each once, in strictly ascending
    lexicographic order; it caches the list, charges one hash length per
    key to [memory], and the next call returns the cached list and leaves
    the store as it is. *)
Theorem AccountList_sorted_keys (h : heap) (dl : loc) (d : diffLayer) :
  layers h !! dl = Some d -> accountList d = None ->
  exists keys h',
    AccountList dl h = (Ret (Some keys), h') /\
    StronglySorted lex_lt keys /\ NoDup keys /\
    (forall k, k ∈ keys <-> is_Some (blobmap_at h (accountData d) !! k)) /\
    accountList <$> layers h' !! dl = Some (Some keys) /\
    layer_memory h' dl =
      Some (wrap64 (memory d + HashLength * Z.of_nat (length keys))) /\
    AccountList dl h' = (Ret (Some keys), h').
Proof. apply AccountList_first. Qed.

(** X3. [StorageList]: for an account the storage map of the layer does
    not hold, the result is nil and the store is left as it is; for an
    account it holds, the first call returns the slot keys of the
    account, each once, in strictly ascending lexicographic order, and
    the next call returns the same list and leaves the store as it
    is. *)
Theorem StorageList_sorted_keys (h : heap) (dl : loc) (d : diffLayer)
    (accountHash : Hash) :
  layers h !! dl = Some d ->
  (slotmap_at h (storageData d) !! accountHash = None ->
   StorageList dl accountHash h = (Ret None, h)) /\
  (forall slots,
     slotmap_at h (storageData d) !! accountHash = Some slots ->
     storageList d !! accountHash = None ->
     exists keys h',
       StorageList dl accountHash h = (Ret (Some keys), h') /\
       StronglySorted lex_lt keys /\ NoDup keys /\
       (forall k, k ∈ keys <-> is_Some (blobmap_at h slots !! k)) /\
       StorageList dl accountHash h' = (Ret (Some keys), h')).
Proof.
  intros Hd. split.
  - intros Hn. unfold StorageList. by rewrite Hd, Hn.
  - intros slots Hs Hn.
    destruct (StorageList_first h dl d accountHash slots Hd Hs Hn)
      as (keys & h' & H1 & H2 & H3 & H4 & _ & H6).
    by exists keys, h'.
Qed.

(** *** Fuel *)

Lemma accountRLP_fuel (h : heap) (hash : Hash) (k fuel : nat) (l : loc) :
  accountRLP fuel h l hash <> OutOfFuel ->
  accountRLP (fuel + k) h l hash = accountRLP fuel h l hash.
Proof.
  revert l. induction fuel as [| fuel IH]; intros l Hne; [done |].
  change (S fuel + k)%nat with (S (fuel + k)). cbn [accountRLP] in *.
  destruct (layers h !! l) as [d |]; [| done].
  destruct (stale d); [done |].
  destruct (blobmap_at h (accountData d) !! hash); [done |].
  destruct (parent d); try done. by apply IH.
Qed.

Lemma storage_fuel (h : heap) (a s : Hash) (k fuel : nat) (l : loc) :
  storage fuel h l a s <> OutOfFuel ->
  storage (fuel + k) h l a s = storage fuel h l a s.
Proof.
  revert l. induction fuel as [| fuel IH]; intros l Hne; [done |].
  change (S fuel + k)%nat with (S (fuel + k)). cbn [storage] in *.
  destruct (layers h !! l) as [d |]; [| done].
  destruct (stale d); [done |].
  destruct (match slotmap_at h (storageData d) !! a with
            | Some slots => blobmap_at h slots !! s
            | None => None
            end); [done |].
  destruct (parent d); try done. by apply IH.
Qed.

Lemma flatten_fuel (k fuel : nat) (dl : loc) (h h' : heap) (r : outcome loc) :
  flatten fuel dl h = (r, h') -> r <> OutOfFuel ->
  flatten (fuel + k) dl h = (r, h').
Proof.
  revert dl h h' r. induction fuel as [| fuel IH]; intros dl h h' r Hf Hne.
  { injection Hf as <- _. done. }
  change (S fuel + k)%nat with (S (fuel + k)). cbn [flatten] in *.
  destruct (layers h !! dl) as [d0 |]; [| done].
  destruct (parent d0) as [| disk | p]; try done.
  destruct (flatten fuel p h) as [[par | msg |] h1] eqn:Hrec.
  - by rewrite (IH _ _ _ _ Hrec).
  - by rewrite (IH _ _ _ _ Hrec).
  - injection Hf as <- _. done.
Qed.

(** X4. The walks over parent pointers are settled by their first
    answer: once [AccountRLP], [Storage] or [flatten] gives a result or
    a panic within some bound on the number of parent steps, every
    larger bound gives the same result and the same store. *)
Theorem walks_settle (h : heap) (fuel k : nat) (dl : loc) :
  (forall hash, AccountRLP fuel h dl hash <> OutOfFuel ->
                AccountRLP (fuel + k) h dl hash = AccountRLP fuel h dl hash) /\
  (forall a s, Storage fuel h dl a s <> OutOfFuel ->
               Storage (fuel + k) h dl a s = Storage fuel h dl a s) /\
  (forall r h', flatten fuel dl h = (r, h') -> r <> OutOfFuel ->
                flatten (fuel + k) dl h = (r, h')).
Proof.
  split; [| split].
  - intros hash. unfold AccountRLP.
    destruct (layers h !! dl) as [d |]; [| done].
    destruct (stale d); [done |]. destruct (diffed d) as [f |]; [| done].
    cbv zeta.
    destruct (if Filter_ContainsHash f (accountBloomHash offsets hash)
              then None else origin d); [done |].
    apply accountRLP_fuel.
  - intros a s. unfold Storage.
    destruct (layers h !! dl) as [d |]; [| done].
    destruct (stale d); [done |]. destruct (diffed d) as [f |]; [| done].
    cbv zeta.
    destruct (if Filter_ContainsHash f (storageBloomHash offsets a s)
              then None else origin d); [done |].
    apply storage_fuel.
  - intros r h'. apply flatten_fuel.
Qed.

(** *** The stale flag is never cleared *)

Lemma flatten_flags (fuel : nat) (dl : loc) (h h' : heap) (r : outcome loc) :
  flatten fuel dl h = (r, h') ->
  forall x d, layers h !! x = Some d ->
    layers h' !! x = Some d \/ layers h' !! x = Some (set_stale true d).
Proof.
  revert dl h h' r. induction fuel as [| fuel IH]; intros dl h h' r Hf x d Hx.
  { injection Hf as _ <-. by left. }
  cbn [flatten] in Hf.
  destruct (layers h !! dl) as [d0 |]; [| injection Hf as _ <-; by left].
  destruct (parent d0) as [| disk | p]; try (injection Hf as _ <-; by left).
  destruct (flatten fuel p h) as [[par | msg |] h1] eqn:Hrec;
    pose proof (IH _ _ _ _ Hrec x d Hx) as H1;
    try (injection Hf as _ <-; exact H1).
  destruct (layers h1 !! par) as [pd |]; [| injection Hf as _ <-; exact H1].
  destruct (stale pd); [injection Hf as _ <-; exact H1 |].
  set (h2 := update_layer par (set_stale true) h1) in Hf.
  assert (H2 : layers h2 !! x = Some d \/ layers h2 !! x = Some (set_stale true d)).
  { subst h2. destruct (decide (par = x)) as [-> | Hne].
    - right. rewrite lookup_update_layer_eq. by destruct H1 as [-> | ->].
    - by rewrite lookup_update_layer_ne. }
  clearbody h2.
  destruct (layers h2 !! dl) as [d2 |]; [| injection Hf as _ <-; exact H2].
  destruct (maps_Copy (accountData pd) (accountData d2) h2) as [[[] | msg |] h3] eqn:Hc;
    pose proof (maps_Copy_layers _ _ _ _ _ Hc) as [E3 _];
    try (injection Hf as _ <-; by rewrite E3).
  destruct (flatten_storage (storageData pd) (storageData d2) h3)
    as [[[] | msg |] h4] eqn:Hs;
    pose proof (flatten_storage_layers (storageData pd) (storageData d2) h3) as E4;
    rewrite Hs in E4; cbn [snd] in E4;
    try (injection Hf as _ <-; by rewrite E4, E3).
  unfold alloc_layer in Hf. injection Hf as _ <-. cbn [layers].
  rewrite E4, E3.
  destruct H2 as [H2 | H2]; [left | right]; by apply lookup_app_l_Some.
Qed.

(** X5. The stale flag is never cleared, and only [flatten] sets it.
    Whatever [flatten] does, a result, a panic half-way or no answer
    within the bound, every layer that was there keeps its record up to
    the flag, and a flag that was set stays set. A [newDiffLayer] that
    returned, [AccountList] and [StorageList] leave every flag as it
    was. *)
Theorem stale_is_permanent (h : heap) (x : loc) (d : diffLayer) :
  layers h !! x = Some d ->
  (forall fuel dl r h', flatten fuel dl h = (r, h') ->
     (layers h' !! x = Some d \/ layers h' !! x = Some (set_stale true d)) /\
     (stale d = true -> layer_stale h' x = Some true)) /\
  (forall par rt acc sto l h', newDiffLayer par rt acc sto h = (Ret l, h') ->
     layers h' !! x = Some d) /\
  (forall dl, layer_stale (AccountList dl h).2 x = Some (stale d)) /\
  (forall dl a, layer_stale (StorageList dl a h).2 x = Some (stale d)).
Proof.
  intros Hx. split; [| split; [| split]].
  - intros fuel dl r h' Hf.
    pose proof (flatten_flags _ _ _ _ _ Hf x d Hx) as Hcase. split; [exact Hcase |].
    intros Hs. unfold layer_stale. destruct Hcase as [-> | ->]; simpl; by rewrite ?Hs.
  - intros par rt acc sto l h' Hn.
    destruct (newDiffLayer_Ret _ _ _ _ _ _ _ Hn) as (o & f0 & _ & _ & ->).
    cbn [layers]. by apply lookup_app_l_Some.
  - intros dl. destruct (AccountList_core h dl) as (_ & _ & El & Hc).
    unfold layer_stale.
    destruct (lookup_same_core h _ x El Hc)
      as [[E _] | (d0 & d1 & E & -> & (_ & _ & _ & Hst & _))];
      rewrite Hx in E; [discriminate E |].
    injection E as <-. simpl. by rewrite Hst.
  - intros dl a. destruct (StorageList_core h dl a) as (_ & _ & El & Hc).
    unfold layer_stale.
    destruct (lookup_same_core h _ x El Hc)
      as [[E _] | (d0 & d1 & E & -> & (_ & _ & _ & Hst & _))];
      rewrite Hx in E; [discriminate E |].
    injection E as <-. simpl. by rewrite Hst.
Qed.

(** *** Construction *)

Lemma storage_memory_outcome (dl : nat) (s : gmap Hash (option nat)) (h : heap) :
  (storage_memory dl s h).1 = Ret tt \/
  exists a, s !! a = Some None /\
            (storage_memory dl s h).1 = Panic (storage_nil_message a).
Proof.
  unfold storage_memory.
  apply (map_fold_weak_ind (fun st m =>
    st.1 = Ret tt \/
    exists a, m !! a = Some None /\ st.1 = Panic (storage_nil_message a))).
  - by left.
  - intros a r m st Hm IH. destruct st as [[[] | msg |] h0]; cbn [fst] in IH.
    + destruct r as [i |]; [by left |]. right. exists a.
      split; [by rewrite lookup_insert_eq | done].
    + destruct IH as [IH | (a0 & Ha0 & IH)]; [discriminate IH |].
      right. exists a0. split; [| done].
      rewrite lookup_insert_ne; [done |]. intros ->. by rewrite Hm in Ha0.
    + destruct IH as [IH | (a0 & _ & IH)]; discriminate IH.
Qed.

(** On a parent with a filter, [newDiffLayer] reaches its second
    accounting loop, whose outcome is the outcome of the call. *)
Lemma newDiffLayer_loops (par : snapshot) (rt : Hash) (acc sto : option nat)
    (h : heap) (o : option diskLayer) (f0 : Filter) :
  new_base h par = Some (o, f0) ->
  exists h2,
    newDiffLayer par rt acc sto h
    = match storage_memory (length (layers h)) (slotmap_at h sto) h2 with
      | (Ret _, h3) => (Ret (length (layers h)), h3)
      | (Panic msg, h3) => (Panic msg, h3)
      | (OutOfFuel, h3) => (OutOfFuel, h3)
      end.
Proof.
  intros Hbase. destruct h as [ls bm sm].
  unfold newDiffLayer, alloc_layer. cbv zeta. cbn [layers blobmaps slotmaps].
  match goal with |- context [ls ++ [?r]] => set (d0 := r) end.
  set (dA := set_diffed
               (Some (bloom_storage (mkHeap ls bm sm)
                        (slotmap_at (mkHeap ls bm sm) sto)
                        (bloom_accounts (blobmap_at (mkHeap ls bm sm) acc) f0)))
               (set_origin o d0)).
  assert (Hreb :
    match par with
    | SnapDisk disk => rebloom (Some disk) (length ls) (mkHeap (ls ++ [d0]) bm sm)
    | SnapDiff p =>
        match (ls ++ [d0]) !! p with
        | Some pd => rebloom (origin pd) (length ls) (mkHeap (ls ++ [d0]) bm sm)
        | None => (Panic nil_dereference, mkHeap (ls ++ [d0]) bm sm)
        end
    | SnapNil => (Panic "unknown parent type"%string, mkHeap (ls ++ [d0]) bm sm)
    end
    = (Ret tt, mkHeap (ls ++ [dA]) bm sm)).
  { unfold new_base in Hbase. cbn [layers] in Hbase.
    destruct par as [| disk | p]; [discriminate Hbase | |].
    - injection Hbase as <- <-. rewrite rebloom_last. reflexivity.
    - destruct (ls !! p) as [pd |] eqn:Hp; [| discriminate Hbase].
      destruct (diffed pd) as [f |] eqn:Hf; [| discriminate Hbase].
      injection Hbase as <- <-.
      rewrite (lookup_app_l_Some _ _ _ _ Hp), rebloom_last. cbv zeta.
      cbn [parent d0 layers]. rewrite (lookup_app_l_Some _ _ _ _ Hp), Hf.
      reflexivity. }
  rewrite Hreb. clear Hreb.
  rewrite (account_memory_spec (length ls) _ (mkHeap (ls ++ [dA]) bm sm) dA);
    [| apply lookup_last | simpl; lia].
  rewrite update_layer_last. eexists. reflexivity.
Qed.

(** X6. [newDiffLayer] on a disk layer, or on a diff layer that has a
    filter, with a storage delta without nil slot maps: the call
    returns. It appends one layer and touches nothing else; the new
    layer has the given parent, root and map references, the origin of
    the parent (the disk layer itself for a disk parent), is not stale,
    has empty key caches, and its [memory] is the sum, over the entries
    of the account map and of every slot map, of one hash length plus
    the length of the blob, as a [uint64]. *)
Theorem newDiffLayer_returns (par : snapshot) (rt : Hash) (acc sto : mapref)
    (h : heap) (o : option diskLayer) (f0 : Filter) :
  new_base h par = Some (o, f0) ->
  (forall a r, slotmap_at h sto !! a = Some r -> is_Some r) ->
  exists h' d,
    newDiffLayer par rt acc sto h = (Ret (length (layers h)), h') /\
    Update (length (layers h)) rt acc sto h'
      = newDiffLayer (SnapDiff (length (layers h))) rt acc sto h' /\
    blobmaps h' = blobmaps h /\ slotmaps h' = slotmaps h /\
    layers h' = layers h ++ [d] /\
    origin d = o /\
    o = match par with
        | SnapDisk disk => Some disk
        | SnapDiff p => origin (layer_at h p)
        | SnapNil => None
        end /\
    parent d = par /\ root d = rt /\ stale d = false /\
    accountData d = acc /\ storageData d = sto /\
    accountList d = None /\ storageList d = ∅ /\
    memory d = wrap64 (account_weight (blobmap_at h acc)
                       + storage_weight h (slotmap_at h sto)) /\
    0 <= memory d < 2 ^ 64.
Proof.
  intros Hbase Hnil.
  exists (mkHeap (layers h ++ [new_layer h par rt acc sto o f0])
                 (blobmaps h) (slotmaps h)),
         (new_layer h par rt acc sto o f0).
  split; [by apply newDiffLayer_exact |].
  split; [reflexivity |].
  do 4 (split; [reflexivity |]).
  split.
  { unfold new_base in Hbase. destruct par as [| disk | p]; [discriminate Hbase | |].
    - by injection Hbase as <- _.
    - unfold layer_at. destruct (layers h !! p) as [pd |]; [| discriminate Hbase].
      destruct (diffed pd); [| discriminate Hbase]. by injection Hbase as <- _. }
  do 7 (split; [reflexivity |]).
  split; [reflexivity | apply wrap64_range].
Qed.

(** X7. When [newDiffLayer] does not return. Without a parent it panics
    with "unknown parent type". On a parent with a filter and a storage
    delta that holds a nil slot map, it panics with the message
    "storage 0x<hash> nil" for an account whose slot map is nil. And a
    call that returned had a parent with a filter and no nil slot map. *)
Theorem newDiffLayer_panics (rt : Hash) (acc sto : mapref) (h : heap) :
  (newDiffLayer SnapNil rt acc sto h).1 = Panic "unknown parent type"%string /\
  (forall par a,
      is_Some (new_base h par) -> slotmap_at h sto !! a = Some None ->
      exists a', slotmap_at h sto !! a' = Some None /\
                 (newDiffLayer par rt acc sto h).1 = Panic (storage_nil_message a')) /\
  (forall par l h',
      newDiffLayer par rt acc sto h = (Ret l, h') ->
      is_Some (new_base h par) /\
      forall a r, slotmap_at h sto !! a = Some r -> is_Some r).
Proof.
  split; [reflexivity |]. split.
  - intros par a [[o f0] Hbase] Ha.
    destruct (newDiffLayer_loops par rt acc sto h o f0 Hbase) as [h2 ->].
    destruct (storage_memory_outcome (length (layers h)) (slotmap_at h sto) h2)
      as [Hr | (a' & Ha' & Hp)].
    + destruct (storage_memory (length (layers h)) (slotmap_at h sto) h2)
        as [[[] | msg |] h3] eqn:E; try discriminate Hr.
      destruct (storage_memory_Ret _ _ _ _ E a None Ha) as [i Hi]. discriminate Hi.
    + exists a'. split; [done |].
      destruct (storage_memory (length (layers h)) (slotmap_at h sto) h2)
        as [[[] | msg |] h3]; cbn [fst] in Hp |- *; try discriminate Hp.
      by injection Hp as ->.
  - intros par l h' Hret.
    pose proof (newDiffLayer_Ret_base _ _ _ _ _ _ _ Hret) as Hb. split; [exact Hb |].
    destruct Hb as [[o f0] Hbase].
    destruct (newDiffLayer_loops par rt acc sto h o f0 Hbase) as [h2 E].
    rewrite E in Hret.
    destruct (storage_memory (length (layers h)) (slotmap_at h sto) h2)
      as [[[] | msg |] h3] eqn:Es; try discriminate Hret.
    exact (storage_memory_Ret _ _ _ _ Es).
Qed.

(** *** Flatten *)

(** X8. [flatten] on a layer whose parent is not a diff layer returns
    the layer itself and leaves the store as it is, stale or not. *)
Theorem flatten_on_disk_parent (fuel : nat) (dl : loc) (d : diffLayer) (h : heap) :
  layers h !! dl = Some d -> (forall p, parent d <> SnapDiff p) ->
  flatten (S fuel) dl h = (Ret dl, h).
Proof. apply flatten_bottom. Qed.

Lemma flatten_memory (fuel : nat) (dl l' : loc) (h h' : heap) (c : list nat) :
  flatten fuel dl h = (Ret l', h') -> chain h dl c ->
  memory (layer_at h' l') = chain_memory h c.
Proof.
  revert dl l' h h' c. induction fuel as [| fuel IH]; intros dl l' h h' c Hf Hc.
  { discriminate Hf. }
  cbn [flatten] in Hf.
  inversion Hc as [l d Hd Hp | l d p c' Hd Hp Hc']; subst.
  - rewrite Hd in Hf.
    destruct (parent d) as [| disk | q] eqn:E; [| | by destruct (Hp q)];
      injection Hf as <- <-; reflexivity.
  - rewrite Hd, Hp in Hf.
    destruct (flatten fuel p h) as [[par | msg |] h1] eqn:Hrec; try discriminate Hf.
    pose proof (IH _ _ _ _ _ Hrec Hc') as Hm.
    destruct (layers h1 !! par) as [pd |] eqn:Hpd; [| discriminate Hf].
    rewrite (layer_at_Some _ _ _ Hpd) in Hm.
    destruct (stale pd); [discriminate Hf |].
    destruct (layers (update_layer par (set_stale true) h1) !! dl) as [d2 |] eqn:Hd2;
      [| discriminate Hf].
    assert (Hmd : memory d2 = memory d).
    { destruct (decide (par = dl)) as [-> | Hne].
      - rewrite lookup_update_layer_eq in Hd2.
        destruct (flatten_flags _ _ _ _ _ Hrec dl d Hd) as [H1 | H1];
          rewrite H1 in Hd2; by injection Hd2 as <-.
      - rewrite lookup_update_layer_ne in Hd2 by done.
        destruct (flatten_flags _ _ _ _ _ Hrec dl d Hd) as [H1 | H1];
          rewrite H1 in Hd2; by injection Hd2 as <-. }
    destruct (maps_Copy (accountData pd) (accountData d2)
                (update_layer par (set_stale true) h1)) as [[[] | msg |] h3];
      try discriminate Hf.
    destruct (flatten_storage (storageData pd) (storageData d2) h3)
      as [[[] | msg |] h4]; try discriminate Hf.
    unfold alloc_layer in Hf. injection Hf as <- <-.
    unfold layer_at at 1. cbn [layers]. rewrite lookup_last. cbn [default memory].
    destruct (chain_head _ _ _ Hc') as [c'' ->].
    change (chain_memory h (dl :: p :: c''))
      with (wrap64 (chain_memory h (p :: c'') + memory (layer_at h dl))).
    by rewrite <- Hm, Hmd, (layer_at_Some _ _ _ Hd).
Qed.

(** X9. The record of the layer a [flatten] returns. Its root and its
    filter are those of the layer [flatten] was called on; its parent,
    origin and map objects are those of the bottom layer of the chain,
    so it sits on no diff layer; and its [memory] is the counter of the
    bottom layer plus, merge by merge from the bottom up, the counter
    of the layer merged in, each sum taken as a [uint64]. *)
Theorem flatten_merged_record (fuel : nat) (dl l' b : loc) (h h' : heap)
    (c : list loc) :
  flatten fuel dl h = (Ret l', h') -> chain h dl c -> last c = Some b ->
  exists d',
    layers h' !! l' = Some d' /\
    memory d' = chain_memory h c /\
    root d' = root (layer_at h dl) /\
    diffed d' = diffed (layer_at h dl) /\
    origin d' = origin (layer_at h b) /\
    parent d' = parent (layer_at h b) /\
    accountData d' = accountData (layer_at h b) /\
    storageData d' = storageData (layer_at h b) /\
    (forall q, parent d' <> SnapDiff q).
Proof.
  intros Hf Hc Hlast.
  pose proof (flatten_memory _ _ _ _ _ _ Hf Hc) as Hm.
  destruct (chain_last_bottom _ _ _ Hc) as (b1 & db1 & Hlast1 & Hb1 & Hnp1).
  rewrite Hlast in Hlast1. injection Hlast1 as <-.
  pose proof (layer_at_Some _ _ _ Hb1) as Hatb.
  destruct (flatten_Ret_layers _ _ _ _ _ Hf) as (c0 & Hc0 & _ & Hcase).
  rewrite (chain_functional _ _ _ _ Hc0 Hc) in Hcase.
  destruct Hcase as [(-> & -> & ->) | Hdeep].
  - injection Hlast as <-. exists db1. rewrite Hatb in Hm |- *. by repeat split.
  - destruct Hdeep as (b2 & db & d & new & d' & _ & Hlast2 & Hb2 & _ & Hd & Hl'
                       & -> & _ & _ & Ho & Hp & Hr & _ & Ha & Hs & _ & _ & Hfl).
    rewrite Hlast in Hlast2. injection Hlast2 as <-.
    rewrite Hb1 in Hb2. injection Hb2 as <-.
    assert (Hd' : layers h' !! (length (layers h) + length new)%nat = Some d').
    { rewrite Hl', app_assoc.
      rewrite lookup_app_r by (rewrite length_app, length_alter; lia).
      by rewrite length_app, length_alter, Nat.sub_diag. }
    exists d'. rewrite (layer_at_Some _ _ _ Hd') in Hm.
    rewrite Hatb, (layer_at_Some _ _ _ Hd).
    repeat split; try done. intros q. rewrite Hp. apply Hnp1.
Qed.

(** *** The decoded account map *)

(** X10. [Accounts] decodes every entry of the account map of the layer
    itself, whatever the stale flag says. When every blob decodes, it
    returns the map from every key of the account map to its decoded
    account and no error; when some blob does not, it returns no map and
    the decoding error. *)
Theorem Accounts_decodes_every_entry (h : heap) (dl : loc) (d : diffLayer) :
  layers h !! dl = Some d ->
  ((forall k data, blobmap_at h (accountData d) !! k = Some data ->
                   is_Some (rlp_DecodeBytes (default [] data))) ->
   exists accounts,
     Accounts dl h = Ret (Some accounts, None) /\
     forall k, accounts !! k
               = blobmap_at h (accountData d) !! k
                 ≫= (fun data => rlp_DecodeBytes (default [] data))) /\
  (forall k data, blobmap_at h (accountData d) !! k = Some data ->
                  rlp_DecodeBytes (default [] data) = None ->
   Accounts dl h = Ret (None, Some (ErrOther "rlp: decoding error"))).
Proof.
  intros Hd. unfold Accounts. rewrite Hd.
  set (step := fun (hash : Hash) (data : blob)
                   (st : option (gmap Hash SlimAccount) * option error) =>
                 match st with
                 | (Some accounts, None) =>
                     match rlp_DecodeBytes (default [] data) with
                     | Some account => (Some (<[hash := account]> accounts), None)
                     | None => (None, Some (ErrOther "rlp: decoding error"))
                     end
                 | _ => st
                 end).
  assert (Hfold :
    (exists accounts,
        map_fold step (Some ∅, None) (blobmap_at h (accountData d))
          = (Some accounts, None) /\
        (forall k, accounts !! k
                   = blobmap_at h (accountData d) !! k
                     ≫= (fun data => rlp_DecodeBytes (default [] data))) /\
        forall k data, blobmap_at h (accountData d) !! k = Some data ->
                       is_Some (rlp_DecodeBytes (default [] data))) \/
    (map_fold step (Some ∅, None) (blobmap_at h (accountData d))
       = (None, Some (ErrOther "rlp: decoding error")) /\
     exists k data, blobmap_at h (accountData d) !! k = Some data /\
                    rlp_DecodeBytes (default [] data) = None)).
  { apply (map_fold_weak_ind (fun st m =>
      (exists accounts,
          st = (Some accounts, None) /\
          (forall k, accounts !! k
                     = m !! k ≫= (fun data => rlp_DecodeBytes (default [] data))) /\
          forall k data, m !! k = Some data ->
                         is_Some (rlp_DecodeBytes (default [] data))) \/
      (st = (None, Some (ErrOther "rlp: decoding error")) /\
       exists k data, m !! k = Some data /\
                      rlp_DecodeBytes (default [] data) = None))).
    - left. exists ∅. split; [done |]. split.
      + intros k. by rewrite !lookup_empty.
      + intros k data Hk. by rewrite lookup_empty in Hk.
    - intros k0 data0 m st Hm [(accounts & -> & Hall & Hdec) | (-> & k1 & data1 & Hk1 & Hn1)].
      + unfold step.
        destruct (rlp_DecodeBytes (default [] data0)) as [account |] eqn:E.
        * left. exists (<[k0 := account]> accounts). split; [done |]. split.
          -- intros k. destruct (decide (k = k0)) as [-> | Hne].
             ++ rewrite !lookup_insert_eq. simpl. by rewrite E.
             ++ rewrite !lookup_insert_ne by done. apply Hall.
          -- intros k data Hk. destruct (decide (k = k0)) as [-> | Hne].
             ++ rewrite lookup_insert_eq in Hk. injection Hk as <-. by rewrite E.
             ++ rewrite lookup_insert_ne in Hk by done. by eapply Hdec.
        * right. split; [done |]. exists k0, data0.
          split; [by rewrite lookup_insert_eq | done].
      + right. split; [done |]. exists k1, data1. split; [| done].
        rewrite lookup_insert_ne; [done |]. intros ->.
        pose proof (eq_trans (eq_sym Hm) Hk1) as Hx. discriminate Hx. }
  split.
  - intros Hall. destruct Hfold as [(accounts & E & Hacc & _) | (_ & k & data & Hk & Hn)].
    + exists accounts. split; [exact (f_equal Ret E) | done].
    + destruct (Hall k data Hk) as [x Hx]. by rewrite Hn in Hx.
  - intros k data Hk Hn.
    destruct Hfold as [(accounts & _ & _ & Hdec) | (E & _)].
    + destruct (Hdec k data Hk) as [x Hx]. by rewrite Hn in Hx.
    + exact (f_equal Ret E).
Qed.

End FurtherProperties.

(** *** The properties at sample stores *)

(** In [one_layer_heap] the layer holds accounts [0a..0a] and [0d..0d]:
    the first [AccountList] returns them in this order and charges 64
    bytes to the 98 of the layer, the second one returns the same list
    and changes nothing. *)
Lemma AccountList_sorted_keys_witness :
  exists h',
    AccountList 0%nat one_layer_heap
      = (Ret (Some [hash_of x0a; hash_of x0d]), h') /\
    layer_memory one_layer_heap 0%nat = Some 98 /\
    layer_memory h' 0%nat = Some 162 /\
    AccountList 0%nat h' = (Ret (Some [hash_of x0a; hash_of x0d]), h').
Proof.
  assert (Hd : layers one_layer_heap !! 0%nat = Some (layer_at one_layer_heap 0%nat))
    by (apply layer_at_lookup; vm_compute; reflexivity).
  assert (Hn : accountList (layer_at one_layer_heap 0%nat) = None)
    by (vm_compute; reflexivity).
  destruct (AccountList_sorted_keys one_layer_heap 0%nat _ Hd Hn)
    as (keys & h' & Hcall & _ & _ & _ & _ & Hmem & Hagain).
  assert (Hv : (AccountList 0%nat one_layer_heap).1
               = Ret (Some [hash_of x0a; hash_of x0d]))
    by (vm_compute; reflexivity).
  rewrite Hcall in Hv. cbn [fst] in Hv. injection Hv as ->.
  exists h'. split; [exact Hcall |]. split; [vm_compute; reflexivity |].
  split; [| exact Hagain]. rewrite Hmem. vm_compute. reflexivity.
Defined.

(** In [three_slot_heap] the layer holds three slots of account
    [0a..0a] and none of account [0b..0b]. *)
Lemma StorageList_sorted_keys_witness :
  StorageList 0%nat (hash_of x0b) three_slot_heap = (Ret None, three_slot_heap) /\
  exists h',
    StorageList 0%nat (hash_of x0a) three_slot_heap
      = (Ret (Some [hash_of x01; hash_of x02; hash_of x03]), h') /\
    StorageList 0%nat (hash_of x0a) h'
      = (Ret (Some [hash_of x01; hash_of x02; hash_of x03]), h').
Proof.
  assert (Hd : layers three_slot_heap !! 0%nat = Some (layer_at three_slot_heap 0%nat))
    by (apply layer_at_lookup; vm_compute; reflexivity).
  destruct (StorageList_sorted_keys three_slot_heap 0%nat _ (hash_of x0b) Hd)
    as [Hnone _].
  destruct (StorageList_sorted_keys three_slot_heap 0%nat _ (hash_of x0a) Hd)
    as [_ Hsome].
  split; [apply Hnone; vm_compute; reflexivity |].
  assert (Hs : slotmap_at three_slot_heap
                 (storageData (layer_at three_slot_heap 0%nat)) !! hash_of x0a
               = Some (Some 1%nat))
    by (vm_compute; reflexivity).
  assert (Hn : storageList (layer_at three_slot_heap 0%nat) !! hash_of x0a = None)
    by (vm_compute; reflexivity).
  destruct (Hsome _ Hs Hn) as (keys & h' & Hcall & _ & _ & _ & Hagain).
  assert (Hv : (StorageList 0%nat (hash_of x0a) three_slot_heap).1
               = Ret (Some [hash_of x01; hash_of x02; hash_of x03]))
    by (vm_compute; reflexivity).
  rewrite Hcall in Hv. cbn [fst] in Hv. injection Hv as ->.
  exists h'. split; [exact Hcall | exact Hagain].
Defined.

(** In [two_layer_heap] the tombstone of account [0d..0d] lies in layer
    0: the read on layer 1 is settled within two steps, and a bound of
    seven gives the same answer. *)
Lemma walks_settle_witness :
  AccountRLP 7 two_layer_heap 1%nat (hash_of x0d) = Ret (Some [], None).
Proof.
  assert (Hv : AccountRLP 2 two_layer_heap 1%nat (hash_of x0d) = Ret (Some [], None))
    by (vm_compute; reflexivity).
  rewrite <- Hv. change 7%nat with (2 + 5)%nat.
  apply (proj1 (walks_settle two_layer_heap 2 5 1%nat)).
  rewrite Hv. discriminate.
Defined.

(** In [flattened_heap] layer 0 is stale: a second flatten of layer 1
    panics, and layer 0 is stale after it. *)
Lemma stale_is_permanent_witness :
  (flatten 2 1%nat flattened_heap).1 = Panic double_flatten /\
  layer_stale (flatten 2 1%nat flattened_heap).2 0%nat = Some true.
Proof.
  split; [vm_compute; reflexivity |].
  assert (Hd : layers flattened_heap !! 0%nat = Some (layer_at flattened_heap 0%nat))
    by (apply layer_at_lookup; vm_compute; reflexivity).
  assert (Hs : stale (layer_at flattened_heap 0%nat) = true)
    by (vm_compute; reflexivity).
  exact (proj2 (proj1 (stale_is_permanent flattened_heap 0%nat _ Hd)
                  2%nat 1%nat _ _ (surjective_pairing _)) Hs).
Defined.

(** A second layer on the layer of [one_layer_heap] that is handed the
    account map of that layer and no storage: its [memory] is 65, the
    bytes of accounts [0a..0a] (one byte) and [0d..0d] (none). *)
Lemma newDiffLayer_returns_witness :
  exists h' d,
    newDiffLayer (SnapDiff 0%nat) (hash_of x02) (Some 0%nat) None one_layer_heap
      = (Ret 1%nat, h') /\
    layers h' !! 1%nat = Some d /\ memory d = 65 /\ origin d = Some disk0 /\
    stale d = false.
Proof.
  assert (Hb : new_base one_layer_heap (SnapDiff 0%nat)
               = Some (Some disk0, mkBitFilter 64 11264))
    by (vm_compute; reflexivity).
  assert (Hlen : length (layers one_layer_heap) = 1%nat) by (vm_compute; reflexivity).
  destruct (newDiffLayer_returns (SnapDiff 0%nat) (hash_of x02) (Some 0%nat) None
              one_layer_heap _ _ Hb)
    as (h' & d & Hcall & _ & _ & _ & Hl & Ho & _ & _ & _ & Hst & _ & _ & _ & _ & Hm & _).
  { intros a r Hr. unfold slotmap_at in Hr. by rewrite lookup_empty in Hr. }
  rewrite Hlen in Hcall.
  exists h', d. split; [exact Hcall |]. split; [| split; [| split]].
  - rewrite Hl, lookup_app_r by (rewrite Hlen; lia). by rewrite Hlen.
  - rewrite Hm. vm_compute. reflexivity.
  - exact Ho.
  - exact Hst.
Defined.

(** In [nil_slot_heap] the storage map holds a nil slot map for account
    [0a..0a]: a layer over the disk layer with this storage panics with
    the hash of the account in the message. *)
Lemma newDiffLayer_panics_witness :
  (newDiffLayer (SnapDisk disk0) (hash_of x01) None (Some 0%nat) nil_slot_heap).1
  = Panic "storage 0x0a0a0a0a0a0a0a0a0a0a0a0a0a0a0a0a0a0a0a0a0a0a0a0a0a0a0a0a0a0a0a0a nil"%string.
Proof.
  assert (Hb : is_Some (new_base nil_slot_heap (SnapDisk disk0))) by (by eexists).
  assert (Hs : slotmap_at nil_slot_heap (Some 0%nat) !! hash_of x0a = Some None)
    by (vm_compute; reflexivity).
  pose proof (newDiffLayer_panics (hash_of x01) None (Some 0%nat) nil_slot_heap)
    as (_ & Hpanic & _).
  destruct (Hpanic _ (hash_of x0a) Hb Hs) as (a' & Ha' & Hp).
  assert (Ea : a' = hash_of x0a).
  { unfold slotmap_at, nil_slot_heap in Ha'. cbn [slotmaps] in Ha'.
    rewrite lookup_singleton_eq in Ha'. cbv [default from_option id] in Ha'.
    by apply lookup_singleton_Some in Ha' as [<- _]. }
  rewrite Hp, Ea. vm_compute. reflexivity.
Defined.

(** The layer of [one_layer_heap] sits on the disk layer. *)
Lemma flatten_on_disk_parent_witness :
  flatten 1 0%nat one_layer_heap = (Ret 0%nat, one_layer_heap).
Proof.
  assert (Hd : layers one_layer_heap !! 0%nat = Some (layer_at one_layer_heap 0%nat))
    by (apply layer_at_lookup; vm_compute; reflexivity).
  assert (Hp : parent (layer_at one_layer_heap 0%nat) = SnapDisk disk0)
    by (vm_compute; reflexivity).
  apply (flatten_on_disk_parent 0 0%nat _ one_layer_heap Hd).
  intros p Hq. rewrite Hp in Hq. discriminate Hq.
Defined.

(** In [three_layer_heap] the layers hold 98, 131 and 66 bytes: the
    flatten of layer 2 returns layer 4, with the root of layer 2, on the
    disk layer, and with 295 bytes. *)
Lemma flatten_merged_record_witness :
  exists d',
    layers (flatten 3 2%nat three_layer_heap).2 !! 4%nat = Some d' /\
    memory d' = 295 /\ root d' = hash_of x03 /\ parent d' = SnapDisk disk0.
Proof.
  assert (Hf : flatten 3 2%nat three_layer_heap
               = (Ret 4%nat, (flatten 3 2%nat three_layer_heap).2))
    by (apply outcome_pair_eta; vm_compute; reflexivity).
  assert (Hd2 : layers three_layer_heap !! 2%nat = Some (layer_at three_layer_heap 2%nat))
    by (apply layer_at_lookup; vm_compute; reflexivity).
  assert (Hp2 : parent (layer_at three_layer_heap 2%nat) = SnapDiff 1%nat)
    by (vm_compute; reflexivity).
  assert (Hd1 : layers three_layer_heap !! 1%nat = Some (layer_at three_layer_heap 1%nat))
    by (apply layer_at_lookup; vm_compute; reflexivity).
  assert (Hp1 : parent (layer_at three_layer_heap 1%nat) = SnapDiff 0%nat)
    by (vm_compute; reflexivity).
  assert (Hd0 : layers three_layer_heap !! 0%nat = Some (layer_at three_layer_heap 0%nat))
    by (apply layer_at_lookup; vm_compute; reflexivity).
  assert (Hp0 : parent (layer_at three_layer_heap 0%nat) = SnapDisk disk0)
    by (vm_compute; reflexivity).
  assert (Hc : chain three_layer_heap 2%nat [2%nat; 1%nat; 0%nat]).
  { eapply chain_step; [exact Hd2 | exact Hp2 |].
    eapply chain_step; [exact Hd1 | exact Hp1 |].
    eapply chain_bottom; [exact Hd0 |]. intros q Hq. rewrite Hp0 in Hq. discriminate Hq. }
  destruct (flatten_merged_record 3 2%nat 4%nat 0%nat _ _ _ Hf Hc eq_refl)
    as (d' & Hd' & Hm & Hr & _ & _ & Hp & _).
  exists d'. split; [exact Hd' |]. split; [| split].
  - rewrite Hm. vm_compute. reflexivity.
  - rewrite Hr. vm_compute. reflexivity.
  - by rewrite Hp, Hp0.
Defined.

(** With a codec that takes every blob, [Accounts] on the layer of
    [one_layer_heap] returns its two accounts, the tombstone of
    [0d..0d] included, and nothing for account [0e..0e]. *)
Lemma Accounts_decodes_every_entry_witness :
  exists accounts,
    Accounts 0%nat one_layer_heap = Ret (Some accounts, None) /\
    accounts !! hash_of x0a = Some [x02] /\
    accounts !! hash_of x0d = Some [] /\
    accounts !! hash_of x0e = None.
Proof.
  assert (Hd : layers one_layer_heap !! 0%nat = Some (layer_at one_layer_heap 0%nat))
    by (apply layer_at_lookup; vm_compute; reflexivity).
  destruct (proj1 (Accounts_decodes_every_entry one_layer_heap 0%nat _ Hd))
    as (accounts & Hcall & Hacc).
  { intros k data _. by eexists. }
  exists accounts. split; [exact Hcall |].
  rewrite !Hacc. repeat split; vm_compute; reflexivity.
Defined.
